(** * SearchManager: the inverted-index search of the student media portal

    A shallow embedding of [student-media-portal/js/search.js] (class
    [SearchManager]) together with the constants of [utils.js] it reads,
    and the properties of tokenisation, index construction, ranked
    querying and suggestions stated about it. *)

From Stdlib Require Import String Ascii.
From Stdlib Require Import List NArith ZArith Bool Lia.
From Stdlib Require Import Permutation Sorted.
Import ListNotations.

Local Open Scope N_scope.

(** ** JavaScript strings

    A JavaScript string is a sequence of UTF-16 code units; [length],
    [includes], [startsWith], [split] and regular expressions without the
    [u] flag all work on code units. *)

Definition jsstring := list N.

(** Source literals are written as UTF-8 text and decoded to code units
    (one- to three-byte sequences, which covers every literal used here). *)
Fixpoint utf16_of_bytes (bs : list N) : jsstring :=
  match bs with
  | [] => []
  | b0 :: r0 =>
      if b0 <? 0x80 then b0 :: utf16_of_bytes r0
      else
        match r0 with
        | [] => [b0]
        | b1 :: r1 =>
            if b0 <? 0xE0 then
              ((b0 mod 32) * 64 + b1 mod 64) :: utf16_of_bytes r1
            else
              match r1 with
              | [] => [b0; b1]
              | b2 :: r2 =>
                  ((b0 mod 16) * 4096 + (b1 mod 64) * 64 + b2 mod 64)
                    :: utf16_of_bytes r2
              end
        end
  end.

Definition js (s : string) : jsstring :=
  utf16_of_bytes (map N_of_ascii (list_ascii_of_string s)).

Definition in_range (lo hi c : N) : bool := (lo <=? c) && (c <=? hi).

Fixpoint jsstring_eqb (a b : jsstring) : bool :=
  match a, b with
  | [], [] => true
  | x :: a', y :: b' => (x =? y) && jsstring_eqb a' b'
  | _, _ => false
  end.

(** [String.prototype.toLowerCase] as the tokeniser and the weight
    tests see it, per code unit.  The table is written out for Basic
    Latin and for the Cyrillic rows U+0400..U+042F, plus the two units
    outside them whose lower case contains a Basic Latin letter (U+0130
    and the Kelvin sign U+212A).  Every other unit is left as it is.
    For tokenisation and for the weight tests this loses nothing: the
    real lower case of such a unit is again one unit (or a surrogate
    pair) that the tokeniser's class rejects, as the unit itself is, so
    tokens and their occurrences are the same (lemmas
    [extractWords_lower_case] and [weight_tests_lower_case]).  Where
    lower-cased texts are compared with each other or kept (tags,
    suggestions), the lower case is [Unicode.toLowerCase] below. *)
Definition toLowerCase_cu (c : N) : list N :=
  if in_range 0x41 0x5A c then [c + 0x20]
  else if in_range 0x410 0x42F c then [c + 0x20]
  else if in_range 0x400 0x40F c then [c + 0x50]
  else if c =? 0x130 then [0x69; 0x307]
  else if c =? 0x212A then [0x6B]
  else [c].

Definition toLowerCase (s : jsstring) : jsstring := flat_map toLowerCase_cu s.

(** [String.prototype.toUpperCase], per code unit, on the same rows and
    on every unit whose upper case consists of Basic Latin letters: the
    long s, the dotless i, the sharp s (SS) and the ligatures
    U+FB00..U+FB06 (FF, FI, FL, FFI, FFL, ST, ST).  It is used for the
    key of a category only, and the keys of [CATEGORIES] are words of
    A..Z: the upper case of any other unit holds a unit outside A..Z, as
    the unit itself is, so the same keys are found. *)
Definition toUpperCase_cu (c : N) : list N :=
  if in_range 0x61 0x7A c then [c - 0x20]
  else if in_range 0x430 0x44F c then [c - 0x20]
  else if in_range 0x450 0x45F c then [c - 0x50]
  else if c =? 0x17F then [0x53]
  else if c =? 0x131 then [0x49]
  else if c =? 0xDF then [0x53; 0x53]
  else if c =? 0xFB00 then [0x46; 0x46]
  else if c =? 0xFB01 then [0x46; 0x49]
  else if c =? 0xFB02 then [0x46; 0x4C]
  else if c =? 0xFB03 then [0x46; 0x46; 0x49]
  else if c =? 0xFB04 then [0x46; 0x46; 0x4C]
  else if in_range 0xFB05 0xFB06 c then [0x53; 0x54]
  else [c].

Definition toUpperCase (s : jsstring) : jsstring := flat_map toUpperCase_cu s.

(** ** Lower case by code points

    [String.prototype.toLowerCase] as ECMAScript defines it: the string
    is read as code points, each is replaced by its lower-case mapping of
    the Unicode Character Database (UnicodeData.txt and the
    language-independent part of SpecialCasing.txt), and the result is
    written back as code units.  Two mappings are not a single code
    point: U+0130 becomes U+0069 U+0307, and U+03A3 becomes U+03C2 in a
    Final_Sigma context and U+03C3 elsewhere.  The tables are those of
    version 14.0 of the database. *)
Module Unicode.
(** The simple lower-case mappings: an entry [(first, last, step, to)]
    sends the code point [first + k * step], up to [last], to
    [to + k * step]. *)
Definition lower_runs : list (N * N * N * N) :=
  [
   (0x41, 0x5A, 1, 0x61); (0xC0, 0xD6, 1, 0xE0); (0xD8, 0xDE, 1, 0xF8);
   (0x100, 0x12E, 2, 0x101); (0x132, 0x136, 2, 0x133); (0x139, 0x147, 2, 0x13A);
   (0x14A, 0x176, 2, 0x14B); (0x178, 0x178, 1, 0xFF); (0x179, 0x17D, 2, 0x17A);
   (0x181, 0x181, 1, 0x253); (0x182, 0x184, 2, 0x183); (0x186, 0x186, 1, 0x254);
   (0x187, 0x187, 1, 0x188); (0x189, 0x18A, 1, 0x256); (0x18B, 0x18B, 1, 0x18C);
   (0x18E, 0x18E, 1, 0x1DD); (0x18F, 0x18F, 1, 0x259); (0x190, 0x190, 1, 0x25B);
   (0x191, 0x191, 1, 0x192); (0x193, 0x193, 1, 0x260); (0x194, 0x194, 1, 0x263);
   (0x196, 0x196, 1, 0x269); (0x197, 0x197, 1, 0x268); (0x198, 0x198, 1, 0x199);
   (0x19C, 0x19C, 1, 0x26F); (0x19D, 0x19D, 1, 0x272); (0x19F, 0x19F, 1, 0x275);
   (0x1A0, 0x1A4, 2, 0x1A1); (0x1A6, 0x1A6, 1, 0x280); (0x1A7, 0x1A7, 1, 0x1A8);
   (0x1A9, 0x1A9, 1, 0x283); (0x1AC, 0x1AC, 1, 0x1AD); (0x1AE, 0x1AE, 1, 0x288);
   (0x1AF, 0x1AF, 1, 0x1B0); (0x1B1, 0x1B2, 1, 0x28A); (0x1B3, 0x1B5, 2, 0x1B4);
   (0x1B7, 0x1B7, 1, 0x292); (0x1B8, 0x1B8, 1, 0x1B9); (0x1BC, 0x1BC, 1, 0x1BD);
   (0x1C4, 0x1C4, 1, 0x1C6); (0x1C5, 0x1C5, 1, 0x1C6); (0x1C7, 0x1C7, 1, 0x1C9);
   (0x1C8, 0x1C8, 1, 0x1C9); (0x1CA, 0x1CA, 1, 0x1CC); (0x1CB, 0x1DB, 2, 0x1CC);
   (0x1DE, 0x1EE, 2, 0x1DF); (0x1F1, 0x1F1, 1, 0x1F3); (0x1F2, 0x1F4, 2, 0x1F3);
   (0x1F6, 0x1F6, 1, 0x195); (0x1F7, 0x1F7, 1, 0x1BF); (0x1F8, 0x21E, 2, 0x1F9);
   (0x220, 0x220, 1, 0x19E); (0x222, 0x232, 2, 0x223); (0x23A, 0x23A, 1, 0x2C65);
   (0x23B, 0x23B, 1, 0x23C); (0x23D, 0x23D, 1, 0x19A); (0x23E, 0x23E, 1, 0x2C66);
   (0x241, 0x241, 1, 0x242); (0x243, 0x243, 1, 0x180); (0x244, 0x244, 1, 0x289);
   (0x245, 0x245, 1, 0x28C); (0x246, 0x24E, 2, 0x247); (0x370, 0x372, 2, 0x371);
   (0x376, 0x376, 1, 0x377); (0x37F, 0x37F, 1, 0x3F3); (0x386, 0x386, 1, 0x3AC);
   (0x388, 0x38A, 1, 0x3AD); (0x38C, 0x38C, 1, 0x3CC); (0x38E, 0x38F, 1, 0x3CD);
   (0x391, 0x3A1, 1, 0x3B1); (0x3A3, 0x3AB, 1, 0x3C3); (0x3CF, 0x3CF, 1, 0x3D7);
   (0x3D8, 0x3EE, 2, 0x3D9); (0x3F4, 0x3F4, 1, 0x3B8); (0x3F7, 0x3F7, 1, 0x3F8);
   (0x3F9, 0x3F9, 1, 0x3F2); (0x3FA, 0x3FA, 1, 0x3FB); (0x3FD, 0x3FF, 1, 0x37B);
   (0x400, 0x40F, 1, 0x450); (0x410, 0x42F, 1, 0x430); (0x460, 0x480, 2, 0x461);
   (0x48A, 0x4BE, 2, 0x48B); (0x4C0, 0x4C0, 1, 0x4CF); (0x4C1, 0x4CD, 2, 0x4C2);
   (0x4D0, 0x52E, 2, 0x4D1); (0x531, 0x556, 1, 0x561); (0x10A0, 0x10C5, 1, 0x2D00);
   (0x10C7, 0x10C7, 1, 0x2D27); (0x10CD, 0x10CD, 1, 0x2D2D); (0x13A0, 0x13EF, 1, 0xAB70);
   (0x13F0, 0x13F5, 1, 0x13F8); (0x1C90, 0x1CBA, 1, 0x10D0); (0x1CBD, 0x1CBF, 1, 0x10FD);
   (0x1E00, 0x1E94, 2, 0x1E01); (0x1E9E, 0x1E9E, 1, 0xDF); (0x1EA0, 0x1EFE, 2, 0x1EA1);
   (0x1F08, 0x1F0F, 1, 0x1F00); (0x1F18, 0x1F1D, 1, 0x1F10); (0x1F28, 0x1F2F, 1, 0x1F20);
   (0x1F38, 0x1F3F, 1, 0x1F30); (0x1F48, 0x1F4D, 1, 0x1F40); (0x1F59, 0x1F5F, 2, 0x1F51);
   (0x1F68, 0x1F6F, 1, 0x1F60); (0x1F88, 0x1F8F, 1, 0x1F80); (0x1F98, 0x1F9F, 1, 0x1F90);
   (0x1FA8, 0x1FAF, 1, 0x1FA0); (0x1FB8, 0x1FB9, 1, 0x1FB0); (0x1FBA, 0x1FBB, 1, 0x1F70);
   (0x1FBC, 0x1FBC, 1, 0x1FB3); (0x1FC8, 0x1FCB, 1, 0x1F72); (0x1FCC, 0x1FCC, 1, 0x1FC3);
   (0x1FD8, 0x1FD9, 1, 0x1FD0); (0x1FDA, 0x1FDB, 1, 0x1F76); (0x1FE8, 0x1FE9, 1, 0x1FE0);
   (0x1FEA, 0x1FEB, 1, 0x1F7A); (0x1FEC, 0x1FEC, 1, 0x1FE5); (0x1FF8, 0x1FF9, 1, 0x1F78);
   (0x1FFA, 0x1FFB, 1, 0x1F7C); (0x1FFC, 0x1FFC, 1, 0x1FF3); (0x2126, 0x2126, 1, 0x3C9);
   (0x212A, 0x212A, 1, 0x6B); (0x212B, 0x212B, 1, 0xE5); (0x2132, 0x2132, 1, 0x214E);
   (0x2160, 0x216F, 1, 0x2170); (0x2183, 0x2183, 1, 0x2184); (0x24B6, 0x24CF, 1, 0x24D0);
   (0x2C00, 0x2C2F, 1, 0x2C30); (0x2C60, 0x2C60, 1, 0x2C61); (0x2C62, 0x2C62, 1, 0x26B);
   (0x2C63, 0x2C63, 1, 0x1D7D); (0x2C64, 0x2C64, 1, 0x27D); (0x2C67, 0x2C6B, 2, 0x2C68);
   (0x2C6D, 0x2C6D, 1, 0x251); (0x2C6E, 0x2C6E, 1, 0x271); (0x2C6F, 0x2C6F, 1, 0x250);
   (0x2C70, 0x2C70, 1, 0x252); (0x2C72, 0x2C72, 1, 0x2C73); (0x2C75, 0x2C75, 1, 0x2C76);
   (0x2C7E, 0x2C7F, 1, 0x23F); (0x2C80, 0x2CE2, 2, 0x2C81); (0x2CEB, 0x2CED, 2, 0x2CEC);
   (0x2CF2, 0x2CF2, 1, 0x2CF3); (0xA640, 0xA66C, 2, 0xA641); (0xA680, 0xA69A, 2, 0xA681);
   (0xA722, 0xA72E, 2, 0xA723); (0xA732, 0xA76E, 2, 0xA733); (0xA779, 0xA77B, 2, 0xA77A);
   (0xA77D, 0xA77D, 1, 0x1D79); (0xA77E, 0xA786, 2, 0xA77F); (0xA78B, 0xA78B, 1, 0xA78C);
   (0xA78D, 0xA78D, 1, 0x265); (0xA790, 0xA792, 2, 0xA791); (0xA796, 0xA7A8, 2, 0xA797);
   (0xA7AA, 0xA7AA, 1, 0x266); (0xA7AB, 0xA7AB, 1, 0x25C); (0xA7AC, 0xA7AC, 1, 0x261);
   (0xA7AD, 0xA7AD, 1, 0x26C); (0xA7AE, 0xA7AE, 1, 0x26A); (0xA7B0, 0xA7B0, 1, 0x29E);
   (0xA7B1, 0xA7B1, 1, 0x287); (0xA7B2, 0xA7B2, 1, 0x29D); (0xA7B3, 0xA7B3, 1, 0xAB53);
   (0xA7B4, 0xA7C2, 2, 0xA7B5); (0xA7C4, 0xA7C4, 1, 0xA794); (0xA7C5, 0xA7C5, 1, 0x282);
   (0xA7C6, 0xA7C6, 1, 0x1D8E); (0xA7C7, 0xA7C9, 2, 0xA7C8); (0xA7D0, 0xA7D0, 1, 0xA7D1);
   (0xA7D6, 0xA7D8, 2, 0xA7D7); (0xA7F5, 0xA7F5, 1, 0xA7F6); (0xFF21, 0xFF3A, 1, 0xFF41);
   (0x10400, 0x10427, 1, 0x10428); (0x104B0, 0x104D3, 1, 0x104D8); (0x10570, 0x1057A, 1, 0x10597);
   (0x1057C, 0x1058A, 1, 0x105A3); (0x1058C, 0x10592, 1, 0x105B3); (0x10594, 0x10595, 1, 0x105BB);
   (0x10C80, 0x10CB2, 1, 0x10CC0); (0x118A0, 0x118BF, 1, 0x118C0); (0x16E40, 0x16E5F, 1, 0x16E60);
   (0x1E900, 0x1E921, 1, 0x1E922) ].

(** The cased code points that are not case-ignorable, as ranges. *)
Definition cased_ranges : list (N * N) :=
  [
   (0x41, 0x5A); (0x61, 0x7A); (0xAA, 0xAA); (0xB5, 0xB5); (0xBA, 0xBA);
   (0xC0, 0xD6); (0xD8, 0xF6); (0xF8, 0x1BA); (0x1BC, 0x1BF); (0x1C4, 0x293);
   (0x295, 0x2AF); (0x370, 0x373); (0x376, 0x377); (0x37B, 0x37D); (0x37F, 0x37F);
   (0x386, 0x386); (0x388, 0x38A); (0x38C, 0x38C); (0x38E, 0x3A1); (0x3A3, 0x3F5);
   (0x3F7, 0x481); (0x48A, 0x52F); (0x531, 0x556); (0x560, 0x588); (0x10A0, 0x10C5);
   (0x10C7, 0x10C7); (0x10CD, 0x10CD); (0x10D0, 0x10FA); (0x10FD, 0x10FF); (0x13A0, 0x13F5);
   (0x13F8, 0x13FD); (0x1C80, 0x1C88); (0x1C90, 0x1CBA); (0x1CBD, 0x1CBF); (0x1D00, 0x1D2B);
   (0x1D6B, 0x1D77); (0x1D79, 0x1D9A); (0x1E00, 0x1F15); (0x1F18, 0x1F1D); (0x1F20, 0x1F45);
   (0x1F48, 0x1F4D); (0x1F50, 0x1F57); (0x1F59, 0x1F59); (0x1F5B, 0x1F5B); (0x1F5D, 0x1F5D);
   (0x1F5F, 0x1F7D); (0x1F80, 0x1FB4); (0x1FB6, 0x1FBC); (0x1FBE, 0x1FBE); (0x1FC2, 0x1FC4);
   (0x1FC6, 0x1FCC); (0x1FD0, 0x1FD3); (0x1FD6, 0x1FDB); (0x1FE0, 0x1FEC); (0x1FF2, 0x1FF4);
   (0x1FF6, 0x1FFC); (0x2102, 0x2102); (0x2107, 0x2107); (0x210A, 0x2113); (0x2115, 0x2115);
   (0x2119, 0x211D); (0x2124, 0x2124); (0x2126, 0x2126); (0x2128, 0x2128); (0x212A, 0x212D);
   (0x212F, 0x2134); (0x2139, 0x2139); (0x213C, 0x213F); (0x2145, 0x2149); (0x214E, 0x214E);
   (0x2160, 0x217F); (0x2183, 0x2184); (0x24B6, 0x24E9); (0x2C00, 0x2C7B); (0x2C7E, 0x2CE4);
   (0x2CEB, 0x2CEE); (0x2CF2, 0x2CF3); (0x2D00, 0x2D25); (0x2D27, 0x2D27); (0x2D2D, 0x2D2D);
   (0xA640, 0xA66D); (0xA680, 0xA69B); (0xA722, 0xA76F); (0xA771, 0xA787); (0xA78B, 0xA78E);
   (0xA790, 0xA7CA); (0xA7D0, 0xA7D1); (0xA7D3, 0xA7D3); (0xA7D5, 0xA7D9); (0xA7F5, 0xA7F6);
   (0xA7FA, 0xA7FA); (0xAB30, 0xAB5A); (0xAB60, 0xAB68); (0xAB70, 0xABBF); (0xFB00, 0xFB06);
   (0xFB13, 0xFB17); (0xFF21, 0xFF3A); (0xFF41, 0xFF5A); (0x10400, 0x1044F); (0x104B0, 0x104D3);
   (0x104D8, 0x104FB); (0x10570, 0x1057A); (0x1057C, 0x1058A); (0x1058C, 0x10592); (0x10594, 0x10595);
   (0x10597, 0x105A1); (0x105A3, 0x105B1); (0x105B3, 0x105B9); (0x105BB, 0x105BC); (0x10C80, 0x10CB2);
   (0x10CC0, 0x10CF2); (0x118A0, 0x118DF); (0x16E40, 0x16E7F); (0x1D400, 0x1D454); (0x1D456, 0x1D49C);
   (0x1D49E, 0x1D49F); (0x1D4A2, 0x1D4A2); (0x1D4A5, 0x1D4A6); (0x1D4A9, 0x1D4AC); (0x1D4AE, 0x1D4B9);
   (0x1D4BB, 0x1D4BB); (0x1D4BD, 0x1D4C3); (0x1D4C5, 0x1D505); (0x1D507, 0x1D50A); (0x1D50D, 0x1D514);
   (0x1D516, 0x1D51C); (0x1D51E, 0x1D539); (0x1D53B, 0x1D53E); (0x1D540, 0x1D544); (0x1D546, 0x1D546);
   (0x1D54A, 0x1D550); (0x1D552, 0x1D6A5); (0x1D6A8, 0x1D6C0); (0x1D6C2, 0x1D6DA); (0x1D6DC, 0x1D6FA);
   (0x1D6FC, 0x1D714); (0x1D716, 0x1D734); (0x1D736, 0x1D74E); (0x1D750, 0x1D76E); (0x1D770, 0x1D788);
   (0x1D78A, 0x1D7A8); (0x1D7AA, 0x1D7C2); (0x1D7C4, 0x1D7CB); (0x1DF00, 0x1DF09); (0x1DF0B, 0x1DF1E);
   (0x1E900, 0x1E943); (0x1F130, 0x1F149); (0x1F150, 0x1F169); (0x1F170, 0x1F189) ].

(** The case-ignorable code points, as ranges. *)
Definition case_ignorable_ranges : list (N * N) :=
  [
   (0x27, 0x27); (0x2E, 0x2E); (0x3A, 0x3A); (0x5E, 0x5E); (0x60, 0x60);
   (0xA8, 0xA8); (0xAD, 0xAD); (0xAF, 0xAF); (0xB4, 0xB4); (0xB7, 0xB8);
   (0x2B0, 0x36F); (0x374, 0x375); (0x37A, 0x37A); (0x384, 0x385); (0x387, 0x387);
   (0x483, 0x489); (0x559, 0x559); (0x55F, 0x55F); (0x591, 0x5BD); (0x5BF, 0x5BF);
   (0x5C1, 0x5C2); (0x5C4, 0x5C5); (0x5C7, 0x5C7); (0x5F4, 0x5F4); (0x600, 0x605);
   (0x610, 0x61A); (0x61C, 0x61C); (0x640, 0x640); (0x64B, 0x65F); (0x670, 0x670);
   (0x6D6, 0x6DD); (0x6DF, 0x6E8); (0x6EA, 0x6ED); (0x70F, 0x70F); (0x711, 0x711);
   (0x730, 0x74A); (0x7A6, 0x7B0); (0x7EB, 0x7F5); (0x7FA, 0x7FA); (0x7FD, 0x7FD);
   (0x816, 0x82D); (0x859, 0x85B); (0x888, 0x888); (0x890, 0x891); (0x898, 0x89F);
   (0x8C9, 0x902); (0x93A, 0x93A); (0x93C, 0x93C); (0x941, 0x948); (0x94D, 0x94D);
   (0x951, 0x957); (0x962, 0x963); (0x971, 0x971); (0x981, 0x981); (0x9BC, 0x9BC);
   (0x9C1, 0x9C4); (0x9CD, 0x9CD); (0x9E2, 0x9E3); (0x9FE, 0x9FE); (0xA01, 0xA02);
   (0xA3C, 0xA3C); (0xA41, 0xA42); (0xA47, 0xA48); (0xA4B, 0xA4D); (0xA51, 0xA51);
   (0xA70, 0xA71); (0xA75, 0xA75); (0xA81, 0xA82); (0xABC, 0xABC); (0xAC1, 0xAC5);
   (0xAC7, 0xAC8); (0xACD, 0xACD); (0xAE2, 0xAE3); (0xAFA, 0xAFF); (0xB01, 0xB01);
   (0xB3C, 0xB3C); (0xB3F, 0xB3F); (0xB41, 0xB44); (0xB4D, 0xB4D); (0xB55, 0xB56);
   (0xB62, 0xB63); (0xB82, 0xB82); (0xBC0, 0xBC0); (0xBCD, 0xBCD); (0xC00, 0xC00);
   (0xC04, 0xC04); (0xC3C, 0xC3C); (0xC3E, 0xC40); (0xC46, 0xC48); (0xC4A, 0xC4D);
   (0xC55, 0xC56); (0xC62, 0xC63); (0xC81, 0xC81); (0xCBC, 0xCBC); (0xCBF, 0xCBF);
   (0xCC6, 0xCC6); (0xCCC, 0xCCD); (0xCE2, 0xCE3); (0xD00, 0xD01); (0xD3B, 0xD3C);
   (0xD41, 0xD44); (0xD4D, 0xD4D); (0xD62, 0xD63); (0xD81, 0xD81); (0xDCA, 0xDCA);
   (0xDD2, 0xDD4); (0xDD6, 0xDD6); (0xE31, 0xE31); (0xE34, 0xE3A); (0xE46, 0xE4E);
   (0xEB1, 0xEB1); (0xEB4, 0xEBC); (0xEC6, 0xEC6); (0xEC8, 0xECD); (0xF18, 0xF19);
   (0xF35, 0xF35); (0xF37, 0xF37); (0xF39, 0xF39); (0xF71, 0xF7E); (0xF80, 0xF84);
   (0xF86, 0xF87); (0xF8D, 0xF97); (0xF99, 0xFBC); (0xFC6, 0xFC6); (0x102D, 0x1030);
   (0x1032, 0x1037); (0x1039, 0x103A); (0x103D, 0x103E); (0x1058, 0x1059); (0x105E, 0x1060);
   (0x1071, 0x1074); (0x1082, 0x1082); (0x1085, 0x1086); (0x108D, 0x108D); (0x109D, 0x109D);
   (0x10FC, 0x10FC); (0x135D, 0x135F); (0x1712, 0x1714); (0x1732, 0x1733); (0x1752, 0x1753);
   (0x1772, 0x1773); (0x17B4, 0x17B5); (0x17B7, 0x17BD); (0x17C6, 0x17C6); (0x17C9, 0x17D3);
   (0x17D7, 0x17D7); (0x17DD, 0x17DD); (0x180B, 0x180F); (0x1843, 0x1843); (0x1885, 0x1886);
   (0x18A9, 0x18A9); (0x1920, 0x1922); (0x1927, 0x1928); (0x1932, 0x1932); (0x1939, 0x193B);
   (0x1A17, 0x1A18); (0x1A1B, 0x1A1B); (0x1A56, 0x1A56); (0x1A58, 0x1A5E); (0x1A60, 0x1A60);
   (0x1A62, 0x1A62); (0x1A65, 0x1A6C); (0x1A73, 0x1A7C); (0x1A7F, 0x1A7F); (0x1AA7, 0x1AA7);
   (0x1AB0, 0x1ACE); (0x1B00, 0x1B03); (0x1B34, 0x1B34); (0x1B36, 0x1B3A); (0x1B3C, 0x1B3C);
   (0x1B42, 0x1B42); (0x1B6B, 0x1B73); (0x1B80, 0x1B81); (0x1BA2, 0x1BA5); (0x1BA8, 0x1BA9);
   (0x1BAB, 0x1BAD); (0x1BE6, 0x1BE6); (0x1BE8, 0x1BE9); (0x1BED, 0x1BED); (0x1BEF, 0x1BF1);
   (0x1C2C, 0x1C33); (0x1C36, 0x1C37); (0x1C78, 0x1C7D); (0x1CD0, 0x1CD2); (0x1CD4, 0x1CE0);
   (0x1CE2, 0x1CE8); (0x1CED, 0x1CED); (0x1CF4, 0x1CF4); (0x1CF8, 0x1CF9); (0x1D2C, 0x1D6A);
   (0x1D78, 0x1D78); (0x1D9B, 0x1DFF); (0x1FBD, 0x1FBD); (0x1FBF, 0x1FC1); (0x1FCD, 0x1FCF);
   (0x1FDD, 0x1FDF); (0x1FED, 0x1FEF); (0x1FFD, 0x1FFE); (0x200B, 0x200F); (0x2018, 0x2019);
   (0x2024, 0x2024); (0x2027, 0x2027); (0x202A, 0x202E); (0x2060, 0x2064); (0x2066, 0x206F);
   (0x2071, 0x2071); (0x207F, 0x207F); (0x2090, 0x209C); (0x20D0, 0x20F0); (0x2C7C, 0x2C7D);
   (0x2CEF, 0x2CF1); (0x2D6F, 0x2D6F); (0x2D7F, 0x2D7F); (0x2DE0, 0x2DFF); (0x2E2F, 0x2E2F);
   (0x3005, 0x3005); (0x302A, 0x302D); (0x3031, 0x3035); (0x303B, 0x303B); (0x3099, 0x309E);
   (0x30FC, 0x30FE); (0xA015, 0xA015); (0xA4F8, 0xA4FD); (0xA60C, 0xA60C); (0xA66F, 0xA672);
   (0xA674, 0xA67D); (0xA67F, 0xA67F); (0xA69C, 0xA69F); (0xA6F0, 0xA6F1); (0xA700, 0xA721);
   (0xA770, 0xA770); (0xA788, 0xA78A); (0xA7F2, 0xA7F4); (0xA7F8, 0xA7F9); (0xA802, 0xA802);
   (0xA806, 0xA806); (0xA80B, 0xA80B); (0xA825, 0xA826); (0xA82C, 0xA82C); (0xA8C4, 0xA8C5);
   (0xA8E0, 0xA8F1); (0xA8FF, 0xA8FF); (0xA926, 0xA92D); (0xA947, 0xA951); (0xA980, 0xA982);
   (0xA9B3, 0xA9B3); (0xA9B6, 0xA9B9); (0xA9BC, 0xA9BD); (0xA9CF, 0xA9CF); (0xA9E5, 0xA9E6);
   (0xAA29, 0xAA2E); (0xAA31, 0xAA32); (0xAA35, 0xAA36); (0xAA43, 0xAA43); (0xAA4C, 0xAA4C);
   (0xAA70, 0xAA70); (0xAA7C, 0xAA7C); (0xAAB0, 0xAAB0); (0xAAB2, 0xAAB4); (0xAAB7, 0xAAB8);
   (0xAABE, 0xAABF); (0xAAC1, 0xAAC1); (0xAADD, 0xAADD); (0xAAEC, 0xAAED); (0xAAF3, 0xAAF4);
   (0xAAF6, 0xAAF6); (0xAB5B, 0xAB5F); (0xAB69, 0xAB6B); (0xABE5, 0xABE5); (0xABE8, 0xABE8);
   (0xABED, 0xABED); (0xFB1E, 0xFB1E); (0xFBB2, 0xFBC2); (0xFE00, 0xFE0F); (0xFE13, 0xFE13);
   (0xFE20, 0xFE2F); (0xFE52, 0xFE52); (0xFE55, 0xFE55); (0xFEFF, 0xFEFF); (0xFF07, 0xFF07);
   (0xFF0E, 0xFF0E); (0xFF1A, 0xFF1A); (0xFF3E, 0xFF3E); (0xFF40, 0xFF40); (0xFF70, 0xFF70);
   (0xFF9E, 0xFF9F); (0xFFE3, 0xFFE3); (0xFFF9, 0xFFFB); (0x101FD, 0x101FD); (0x102E0, 0x102E0);
   (0x10376, 0x1037A); (0x10780, 0x10785); (0x10787, 0x107B0); (0x107B2, 0x107BA); (0x10A01, 0x10A03);
   (0x10A05, 0x10A06); (0x10A0C, 0x10A0F); (0x10A38, 0x10A3A); (0x10A3F, 0x10A3F); (0x10AE5, 0x10AE6);
   (0x10D24, 0x10D27); (0x10EAB, 0x10EAC); (0x10F46, 0x10F50); (0x10F82, 0x10F85); (0x11001, 0x11001);
   (0x11038, 0x11046); (0x11070, 0x11070); (0x11073, 0x11074); (0x1107F, 0x11081); (0x110B3, 0x110B6);
   (0x110B9, 0x110BA); (0x110BD, 0x110BD); (0x110C2, 0x110C2); (0x110CD, 0x110CD); (0x11100, 0x11102);
   (0x11127, 0x1112B); (0x1112D, 0x11134); (0x11173, 0x11173); (0x11180, 0x11181); (0x111B6, 0x111BE);
   (0x111C9, 0x111CC); (0x111CF, 0x111CF); (0x1122F, 0x11231); (0x11234, 0x11234); (0x11236, 0x11237);
   (0x1123E, 0x1123E); (0x112DF, 0x112DF); (0x112E3, 0x112EA); (0x11300, 0x11301); (0x1133B, 0x1133C);
   (0x11340, 0x11340); (0x11366, 0x1136C); (0x11370, 0x11374); (0x11438, 0x1143F); (0x11442, 0x11444);
   (0x11446, 0x11446); (0x1145E, 0x1145E); (0x114B3, 0x114B8); (0x114BA, 0x114BA); (0x114BF, 0x114C0);
   (0x114C2, 0x114C3); (0x115B2, 0x115B5); (0x115BC, 0x115BD); (0x115BF, 0x115C0); (0x115DC, 0x115DD);
   (0x11633, 0x1163A); (0x1163D, 0x1163D); (0x1163F, 0x11640); (0x116AB, 0x116AB); (0x116AD, 0x116AD);
   (0x116B0, 0x116B5); (0x116B7, 0x116B7); (0x1171D, 0x1171F); (0x11722, 0x11725); (0x11727, 0x1172B);
   (0x1182F, 0x11837); (0x11839, 0x1183A); (0x1193B, 0x1193C); (0x1193E, 0x1193E); (0x11943, 0x11943);
   (0x119D4, 0x119D7); (0x119DA, 0x119DB); (0x119E0, 0x119E0); (0x11A01, 0x11A0A); (0x11A33, 0x11A38);
   (0x11A3B, 0x11A3E); (0x11A47, 0x11A47); (0x11A51, 0x11A56); (0x11A59, 0x11A5B); (0x11A8A, 0x11A96);
   (0x11A98, 0x11A99); (0x11C30, 0x11C36); (0x11C38, 0x11C3D); (0x11C3F, 0x11C3F); (0x11C92, 0x11CA7);
   (0x11CAA, 0x11CB0); (0x11CB2, 0x11CB3); (0x11CB5, 0x11CB6); (0x11D31, 0x11D36); (0x11D3A, 0x11D3A);
   (0x11D3C, 0x11D3D); (0x11D3F, 0x11D45); (0x11D47, 0x11D47); (0x11D90, 0x11D91); (0x11D95, 0x11D95);
   (0x11D97, 0x11D97); (0x11EF3, 0x11EF4); (0x13430, 0x13438); (0x16AF0, 0x16AF4); (0x16B30, 0x16B36);
   (0x16B40, 0x16B43); (0x16F4F, 0x16F4F); (0x16F8F, 0x16F9F); (0x16FE0, 0x16FE1); (0x16FE3, 0x16FE4);
   (0x1AFF0, 0x1AFF3); (0x1AFF5, 0x1AFFB); (0x1AFFD, 0x1AFFE); (0x1BC9D, 0x1BC9E); (0x1BCA0, 0x1BCA3);
   (0x1CF00, 0x1CF2D); (0x1CF30, 0x1CF46); (0x1D167, 0x1D169); (0x1D173, 0x1D182); (0x1D185, 0x1D18B);
   (0x1D1AA, 0x1D1AD); (0x1D242, 0x1D244); (0x1DA00, 0x1DA36); (0x1DA3B, 0x1DA6C); (0x1DA75, 0x1DA75);
   (0x1DA84, 0x1DA84); (0x1DA9B, 0x1DA9F); (0x1DAA1, 0x1DAAF); (0x1E000, 0x1E006); (0x1E008, 0x1E018);
   (0x1E01B, 0x1E021); (0x1E023, 0x1E024); (0x1E026, 0x1E02A); (0x1E130, 0x1E13D); (0x1E2AE, 0x1E2AE);
   (0x1E2EC, 0x1E2EF); (0x1E8D0, 0x1E8D6); (0x1E944, 0x1E94B); (0x1F3FB, 0x1F3FF); (0xE0001, 0xE0001);
   (0xE0020, 0xE007F); (0xE0100, 0xE01EF) ].

Definition in_run (c : N) (e : N * N * N * N) : bool :=
  let '(first, last, step, _) := e in
  if first <=? c then
    if c <=? last then (c - first) mod step =? 0 else false
  else false.

Definition simple_lower (c : N) : N :=
  match find (in_run c) lower_runs with
  | Some (first, _, _, to) => to + (c - first)
  | None => c
  end.

Definition in_ranges (c : N) (ranges : list (N * N)) : bool :=
  existsb (fun r => (fst r <=? c) && (c <=? snd r)) ranges.

Definition case_ignorable (c : N) : bool := in_ranges c case_ignorable_ranges.

Definition cased (c : N) : bool := in_ranges c cased_ranges.

(** [StringToCodePoints]: a high surrogate followed by a low one is one
    code point, any other unit stands for itself. *)
Fixpoint StringToCodePoints (s : jsstring) : list N :=
  match s with
  | [] => []
  | c :: r =>
      match r with
      | d :: r' =>
          if in_range 0xD800 0xDBFF c && in_range 0xDC00 0xDFFF d
          then (0x10000 + (c - 0xD800) * 0x400 + (d - 0xDC00)) :: StringToCodePoints r'
          else c :: StringToCodePoints r
      | [] => [c]
      end
  end.

Definition CodePointToString (c : N) : jsstring :=
  if c <? 0x10000 then [c]
  else [0xD800 + (c - 0x10000) / 0x400; 0xDC00 + (c - 0x10000) mod 0x400].

(** Whether the code points met first, once the case-ignorable ones are
    passed over, begin with a cased letter. *)
Fixpoint cased_letter_next (cps : list N) : bool :=
  match cps with
  | [] => false
  | c :: r => if case_ignorable c then cased_letter_next r else cased c
  end.

(** The Final_Sigma context: a cased letter before (the code points
    before are given nearest first), and none after. *)
Definition Final_Sigma (before after : list N) : bool :=
  cased_letter_next before && negb (cased_letter_next after).

Fixpoint lower_from (before cps : list N) : list N :=
  match cps with
  | [] => []
  | c :: r =>
      (if c =? 0x3A3 then (if Final_Sigma before r then [0x3C2] else [0x3C3])
       else if c =? 0x130 then [0x69; 0x307]
       else [simple_lower c])
      ++ lower_from (c :: before) r
  end.

Definition toLowerCase (s : jsstring) : jsstring :=
  flat_map CodePointToString (lower_from [] (StringToCodePoints s)).
End Unicode.

(** [a.startsWith(b)] and [a.includes(b)]. *)
Fixpoint startsWith (a b : jsstring) : bool :=
  match b, a with
  | [], _ => true
  | _ :: _, [] => false
  | y :: b', x :: a' => (x =? y) && startsWith a' b'
  end.

Fixpoint includes (a b : jsstring) : bool :=
  startsWith a b ||
  match a with
  | [] => false
  | _ :: a' => includes a' b
  end.

(** [parts.join(sep)]. *)
Fixpoint join (sep : jsstring) (parts : list jsstring) : jsstring :=
  match parts with
  | [] => []
  | [p] => p
  | p :: rest => p ++ sep ++ join sep rest
  end.

(** ** Regular expressions of the tokeniser *)

(** [\w] without the [u] flag. *)
Definition is_word_char (c : N) : bool :=
  in_range 0x61 0x7A c || in_range 0x41 0x5A c || in_range 0x30 0x39 c
  || (c =? 0x5F).

(** [\s]: WhiteSpace and LineTerminator. *)
Definition is_space (c : N) : bool :=
  in_range 0x09 0x0D c || (c =? 0x20) || (c =? 0xA0) || (c =? 0x1680)
  || in_range 0x2000 0x200A c || (c =? 0x2028) || (c =? 0x2029)
  || (c =? 0x202F) || (c =? 0x205F) || (c =? 0x3000) || (c =? 0xFEFF).

(** The class [\w\sа-яё] as written. *)
Definition class_member (c : N) : bool :=
  is_word_char c || is_space c || in_range 0x430 0x44F c || (c =? 0x451).

(** The class under the [i] flag: a unit matches when its canonical
    (upper-case) form is that of a member.  Besides the members this
    admits А..Я, Ё, and the seven units U+1C80..U+1C86, whose upper-case
    forms lie in А..Я. *)
Definition class_member_ci (c : N) : bool :=
  class_member c || in_range 0x410 0x42F c || (c =? 0x401)
  || in_range 0x1C80 0x1C86 c.

(** [text.replace(/[^\w\sа-яё]/gi, ' ')]. *)
Definition replace_non_word (s : jsstring) : jsstring :=
  map (fun c => if class_member_ci c then c else 0x20) s.

(** [text.split(/\s+/)]: the pieces between maximal runs of white space;
    a leading or trailing run leaves an empty piece, and the empty string
    splits into one empty piece. *)
Fixpoint split_ws (s : jsstring) : list jsstring :=
  match s with
  | [] => [[]]
  | c :: r =>
      if is_space c then
        match r with
        | c' :: _ => if is_space c' then split_ws r else [] :: split_ws r
        | [] => [] :: split_ws r
        end
      else
        match split_ws r with
        | h :: t => (c :: h) :: t
        | [] => [[c]]
        end
  end.

(** [content.replace(/<[^>]*>/g, '')]: every [<] that has a [>] after it
    is removed together with everything up to the first such [>]; a [<]
    with no [>] after it stays, with the rest of the text.  [pending]
    holds, in reverse, the text since an opening [<] not yet closed. *)
Fixpoint strip_tags_from (pending : option jsstring) (s : jsstring) : jsstring :=
  match s with
  | [] => match pending with
          | None => []
          | Some p => rev p
          end
  | c :: r =>
      match pending with
      | None =>
          if c =? 0x3C then strip_tags_from (Some [c]) r
          else c :: strip_tags_from None r
      | Some p =>
          if c =? 0x3E then strip_tags_from None r
          else strip_tags_from (Some (c :: p)) r
      end
  end.

Definition strip_tags (s : jsstring) : jsstring := strip_tags_from None s.

(** ** extractWords *)

Definition extractWords (text : jsstring) : list jsstring :=
  filter (fun word => 2 <=? N.of_nat (length word))
         (split_ws (replace_non_word (toLowerCase text))).

(** ** The [Map] objects

    A JavaScript [Map] keeps its entries in insertion order; [set] on a
    key already present replaces the value where it stands.  The order is
    visible: [forEach], [values] and [entries] follow it. *)

Module JsMap.

Definition t (V : Type) := list (jsstring * V).

Definition empty {V} : t V := [].

Fixpoint get {V} (k : jsstring) (m : t V) : option V :=
  match m with
  | [] => None
  | (k', v) :: r => if jsstring_eqb k k' then Some v else get k r
  end.

Definition has {V} (k : jsstring) (m : t V) : bool :=
  match get k m with
  | Some _ => true
  | None => false
  end.

Fixpoint set {V} (k : jsstring) (v : V) (m : t V) : t V :=
  match m with
  | [] => [(k, v)]
  | (k', v') :: r =>
      if jsstring_eqb k k' then (k', v) :: r else (k', v') :: set k v r
  end.

Definition keys {V} (m : t V) : list jsstring := map fst m.
Definition values {V} (m : t V) : list V := map snd m.

End JsMap.

(** ** [Array.prototype.sort] and [slice]

    The sort is stable, and for a comparator that is a consistent
    ordering its result is the one stable arrangement; this insertion
    sort computes it.  The comparator returns a number, as in the source. *)

Section ArraySort.
Context {A : Type} (cmp : A -> A -> Z).

Fixpoint sort_insert (x : A) (l : list A) : list A :=
  match l with
  | [] => [x]
  | y :: r => if (cmp x y <=? 0)%Z then x :: y :: r else y :: sort_insert x r
  end.

Definition array_sort (l : list A) : list A := fold_right sort_insert [] l.
End ArraySort.

(** [xs.slice(0, n)]. *)
Definition slice0 {A} (n : nat) (xs : list A) : list A := firstn n xs.

(** ** Constants of utils.js *)

Module ARTICLE_STATUS.
Definition DRAFT : jsstring := Eval vm_compute in js "draft".
Definition PENDING : jsstring := Eval vm_compute in js "pending".
Definition PUBLISHED : jsstring := Eval vm_compute in js "published".
Definition ARCHIVED : jsstring := Eval vm_compute in js "archived".
End ARTICLE_STATUS.

Record Category := { cat_id : jsstring; cat_name : jsstring; cat_icon : jsstring }.

(** The object [CATEGORIES], as its own properties in definition order. *)
Definition CATEGORIES : list (jsstring * Category) :=
  [ (js "REPORTAGE", {| cat_id := js "reportage"; cat_name := js "Репортаж"; cat_icon := js "fas fa-camera" |});
    (js "INTERVIEW", {| cat_id := js "interview"; cat_name := js "Интервью"; cat_icon := js "fas fa-microphone" |});
    (js "OPINION", {| cat_id := js "opinion"; cat_name := js "Мнение"; cat_icon := js "fas fa-comment-alt" |});
    (js "PHOTOPROJECT", {| cat_id := js "photoproject"; cat_name := js "Фотопроект"; cat_icon := js "fas fa-images" |});
    (js "PODCAST", {| cat_id := js "podcast"; cat_name := js "Подкасты"; cat_icon := js "fas fa-podcast" |});
    (js "NEWS", {| cat_id := js "news"; cat_name := js "Новости"; cat_icon := js "fas fa-newspaper" |}) ].

(** ** Documents *)

Module Article.
Record t := mk {
  id : jsstring;
  title : jsstring;
  lead : jsstring;
  content : jsstring;
  tags : list jsstring;
  category : option jsstring;
  status : jsstring;
  publishedAt : option jsstring
}.
End Article.

Module User.
Record t := mk {
  id : jsstring;
  firstName : jsstring;
  lastName : jsstring;
  role : jsstring;
  bio : option jsstring
}.
End User.

(** What the search manager reads from the other managers:
    [articleManager.articles] and [authManager.getAllUsers()], each
    behind the source's [manager ? ... : []] guard. *)
Record Managers := {
  articleManager : option (list Article.t);
  authManager : option (list User.t)
}.

Definition articles_of (w : Managers) : list Article.t :=
  match articleManager w with
  | Some arts => arts
  | None => []
  end.

Definition users_of (w : Managers) : list User.t :=
  match authManager w with
  | Some us => us
  | None => []
  end.

(** ** Index entries *)

Inductive DocType := article | author.

Definition type_name (t : DocType) : jsstring :=
  match t with
  | article => js "article"
  | author => js "author"
  end.

(** The two shapes of object pushed into the index. *)
Inductive Posting :=
| ArticlePosting (id title lead : jsstring) (category publishedAt : option jsstring)
                 (relevance : N)
| AuthorPosting (id name role : jsstring) (bio : option jsstring) (relevance : N).

Definition type (p : Posting) : DocType :=
  match p with
  | ArticlePosting _ _ _ _ _ _ => article
  | AuthorPosting _ _ _ _ _ => author
  end.

Definition id (p : Posting) : jsstring :=
  match p with
  | ArticlePosting i _ _ _ _ _ => i
  | AuthorPosting i _ _ _ _ => i
  end.

Definition relevance (p : Posting) : N :=
  match p with
  | ArticlePosting _ _ _ _ _ r => r
  | AuthorPosting _ _ _ _ r => r
  end.

Definition SearchIndex := JsMap.t (list Posting).

(** ** Suggestions and history *)

Inductive SuggestionType := term | category | tag.

Record Suggestion := {
  sg_type : SuggestionType;
  text : jsstring;
  icon : jsstring;
  count : option N
}.

Record HistoryItem := {
  h_query : jsstring;
  resultsCount : nat;
  timestamp : jsstring
}.

(** The fields of a [SearchManager] the search core reads or writes. *)
Record SearchManager := {
  searchHistory : list HistoryItem;
  searchSuggestions : list Suggestion;
  searchIndex : SearchIndex
}.

(** The constructor's field values, before [init] runs. *)
Definition new_SearchManager : SearchManager :=
  {| searchHistory := []; searchSuggestions := []; searchIndex := JsMap.empty |}.

(** ** Index construction *)

(** [MediaPortal.CATEGORIES[key]]: the keys produced by [toUpperCase]
    hold no lower-case letter, so no inherited property is ever reached. *)
Definition lookup_category (key : jsstring) : option Category :=
  JsMap.get key CATEGORIES.

(** [MediaPortal.CATEGORIES[article.category?.toUpperCase()]?.name ||
    article.category]; an [undefined] result joins as the empty string. *)
Definition category_label (a : Article.t) : jsstring :=
  match Article.category a with
  | None => []
  | Some c =>
      match lookup_category (toUpperCase c) with
      | Some cat =>
          match cat_name cat with
          | [] => c
          | _ :: _ => cat_name cat
          end
      | None => c
      end
  end.

Definition article_searchableText (a : Article.t) : jsstring :=
  toLowerCase
    (join (js " ")
          ([Article.title a; Article.lead a; strip_tags (Article.content a)]
             ++ Article.tags a ++ [category_label a])).

(** [user.bio || '']. *)
Definition bio_or_empty (u : User.t) : jsstring :=
  match User.bio u with
  | Some b => b
  | None => []
  end.

Definition user_searchableText (u : User.t) : jsstring :=
  toLowerCase (join (js " ") [User.firstName u; User.lastName u; bio_or_empty u]).

Definition calculateWordRelevance (word : jsstring) (a : Article.t) : N :=
  let relevance := 1 in
  let relevance :=
    if includes (toLowerCase (Article.title a)) word then relevance + 3 else relevance in
  let relevance :=
    if includes (toLowerCase (Article.lead a)) word then relevance + 2 else relevance in
  let relevance :=
    if existsb (fun tag => includes (toLowerCase tag) word) (Article.tags a)
    then relevance + 2 else relevance in
  relevance.

(** The body of the [words.forEach] callback: create the entry for
    [word] when it is missing, then push onto the array stored there. *)
Definition index_push (word : jsstring) (p : Posting) (idx : SearchIndex) : SearchIndex :=
  let idx := if JsMap.has word idx then idx else JsMap.set word [] idx in
  match JsMap.get word idx with
  | Some postings => JsMap.set word (postings ++ [p]) idx
  | None => idx
  end.

Definition article_posting (word : jsstring) (a : Article.t) : Posting :=
  ArticlePosting (Article.id a) (Article.title a) (Article.lead a)
                 (Article.category a) (Article.publishedAt a)
                 (calculateWordRelevance word a).

Definition indexArticle (a : Article.t) (idx : SearchIndex) : SearchIndex :=
  let words := extractWords (article_searchableText a) in
  fold_left (fun idx word => index_push word (article_posting word a) idx) words idx.

Definition user_posting (u : User.t) : Posting :=
  AuthorPosting (User.id u) (User.firstName u ++ js " " ++ User.lastName u)
                (User.role u) (User.bio u) 1.

Definition indexUser (u : User.t) (idx : SearchIndex) : SearchIndex :=
  let words := extractWords (user_searchableText u) in
  fold_left (fun idx word => index_push word (user_posting u) idx) words idx.

Definition is_published (a : Article.t) : bool :=
  jsstring_eqb (Article.status a) ARTICLE_STATUS.PUBLISHED.

(** ** Suggestion pool *)

(** [counts.set(k, (counts.get(k) || 0) + 1)]. *)
Definition count_up (k : jsstring) (counts : JsMap.t N) : JsMap.t N :=
  JsMap.set k (match JsMap.get k counts with
               | Some n => n
               | None => 0
               end + 1) counts.

(** The comparator [(a, b) => b[1] - a[1]]. *)
Definition by_count_desc (a b : jsstring * N) : Z := (Z.of_N (snd b) - Z.of_N (snd a))%Z.

Definition getPopularSearchTerms (history : list HistoryItem) : list Suggestion :=
  let termCounts :=
    fold_left (fun counts item =>
                 fold_left (fun counts word => count_up word counts)
                           (extractWords (h_query item)) counts)
              history JsMap.empty in
  map (fun '(t, n) =>
         {| sg_type := term; text := t; icon := js "fas fa-search"; count := Some n |})
      (slice0 10 (array_sort by_count_desc termCounts)).

Definition getPopularTags (w : Managers) : list jsstring :=
  let tagCounts :=
    fold_left (fun counts a =>
                 if is_published a then
                   fold_left (fun counts tag => count_up (Unicode.toLowerCase tag) counts)
                             (Article.tags a) counts
                 else counts)
              (articles_of w) JsMap.empty in
  map fst (slice0 5 (array_sort by_count_desc tagCounts)).

Definition buildSuggestions (w : Managers) (history : list HistoryItem) : list Suggestion :=
  getPopularSearchTerms history
  ++ map (fun c => {| sg_type := category; text := cat_name c; icon := cat_icon c;
                      count := None |})
         (JsMap.values CATEGORIES)
  ++ map (fun t => {| sg_type := tag; text := t; icon := js "fas fa-tag"; count := None |})
         (getPopularTags w).

Definition buildSearchIndex (w : Managers) (s : SearchManager) : SearchManager :=
  let idx := JsMap.empty in
  let idx :=
    fold_left (fun idx a => if is_published a then indexArticle a idx else idx)
              (articles_of w) idx in
  let idx := fold_left (fun idx u => indexUser u idx) (users_of w) idx in
  {| searchHistory := searchHistory s;
     searchSuggestions := buildSuggestions w (searchHistory s);
     searchIndex := idx |}.

(** ** Querying *)

(** An entry of [resultMap]: a copy of the first posting met for the
    document ([{ ...result, score: 0 }]) with its running score.  Every
    score is a sum of integers and of integers times 0.5, which doubles
    hold exactly (below 2^52); [score] counts halves, so [score +=
    relevance] adds [2 * relevance] and [score += relevance * 0.5] adds
    [relevance], and the comparator's sign is that of the difference. *)
Record ScoredResult := {
  result : Posting;
  score : N
}.

Record SearchResults := {
  articles : list ScoredResult;
  authors : list ScoredResult;
  total : nat;
  query : option jsstring
}.

(** The template string [`${result.type}-${result.id}`]. *)
Definition result_key (p : Posting) : jsstring :=
  type_name (type p) ++ js "-" ++ id p.

(** The body shared by both inner callbacks: create the map entry when
    missing, then add [w] halves to its score. *)
Definition accumulate (p : Posting) (w : N) (resultMap : JsMap.t ScoredResult)
  : JsMap.t ScoredResult :=
  let key := result_key p in
  let resultMap :=
    if JsMap.has key resultMap then resultMap
    else JsMap.set key {| result := p; score := 0 |} resultMap in
  match JsMap.get key resultMap with
  | Some r => JsMap.set key {| result := result r; score := score r + w |} resultMap
  | None => resultMap
  end.

Definition exact_phase (idx : SearchIndex) (word : jsstring)
           (resultMap : JsMap.t ScoredResult) : JsMap.t ScoredResult :=
  if JsMap.has word idx then
    match JsMap.get word idx with
    | Some postings =>
        fold_left (fun rm p => accumulate p (2 * relevance p) rm) postings resultMap
    | None => resultMap
    end
  else resultMap.

Definition partial_phase (idx : SearchIndex) (word : jsstring)
           (resultMap : JsMap.t ScoredResult) : JsMap.t ScoredResult :=
  fold_left
    (fun rm '(indexWord, postings) =>
       if includes indexWord word && negb (jsstring_eqb indexWord word) then
         fold_left (fun rm p => accumulate p (relevance p) rm) postings rm
       else rm)
    idx resultMap.

(** The [queryWords.forEach] loop. *)
Definition score_words (idx : SearchIndex) (queryWords : list jsstring)
  : JsMap.t ScoredResult :=
  fold_left (fun rm word => partial_phase idx word (exact_phase idx word rm))
            queryWords JsMap.empty.

(** The comparator [(a, b) => b.score - a.score]. *)
Definition by_score_desc (a b : ScoredResult) : Z :=
  (Z.of_N (score b) - Z.of_N (score a))%Z.

Definition is_type (t : DocType) (r : ScoredResult) : bool :=
  match type (result r), t with
  | article, article => true
  | author, author => true
  | _, _ => false
  end.

(** The values of [resultMap], sorted. *)
Definition ranked (idx : SearchIndex) (q : jsstring) : list ScoredResult :=
  array_sort by_score_desc (JsMap.values (score_words idx (extractWords q))).

Definition searchInIndex (idx : SearchIndex) (q : jsstring) : SearchResults :=
  let sorted := ranked idx q in
  let articles := filter (is_type article) sorted in
  let authors := filter (is_type author) sorted in
  {| articles := slice0 20 articles;
     authors := slice0 10 authors;
     total := (List.length articles + List.length authors)%nat;
     query := Some q |}.

(** ** The query loop over the object store

    The postings held by the index are objects, and the callbacks of
    [searchInIndex] receive references to them.  Here the loop is
    written over a store of objects: the index holds locations, a new
    entry of [resultMap] is a freshly allocated copy of the posting
    ([{ ...result, score: 0 }]), and [score +=] writes to the object the
    map refers to. *)

(** An object of the store: the posting properties and, on a result
    object, the [score] property. *)
Record Object := {
  fields : Posting;
  score_prop : option N
}.

Definition Store := list Object.

Definition store_get (st : Store) (l : nat) : option Object := nth_error st l.

Fixpoint store_put (st : Store) (l : nat) (o : Object) : Store :=
  match st, l with
  | [], _ => []
  | _ :: r, O => o :: r
  | x :: r, S l' => x :: store_put r l' o
  end.

(** The index and the result map as maps to locations. *)
Definition IndexRefs := JsMap.t (list nat).
Definition ResultRefs := JsMap.t nat.

(** [obj.score] read as a number; a result object always has it. *)
Definition score_of (o : Object) : N :=
  match score_prop o with
  | Some v => v
  | None => 0
  end.

(** The shared callback body, on the posting object at location [l]. *)
Definition accumulate_obj (weight : Posting -> N) (stm : Store * ResultRefs) (l : nat)
  : Store * ResultRefs :=
  match store_get (fst stm) l with
  | None => stm
  | Some posting =>
      let key := result_key (fields posting) in
      let stm :=
        if JsMap.has key (snd stm) then stm
        else (fst stm ++ [{| fields := fields posting; score_prop := Some 0 |}],
              JsMap.set key (List.length (fst stm)) (snd stm)) in
      match JsMap.get key (snd stm) with
      | None => stm
      | Some l' =>
          match store_get (fst stm) l' with
          | None => stm
          | Some r =>
              (store_put (fst stm) l'
                         {| fields := fields r;
                            score_prop := Some (score_of r + weight (fields posting)) |},
               snd stm)
          end
      end
  end.

Definition exact_phase_obj (idx : IndexRefs) (word : jsstring) (stm : Store * ResultRefs)
  : Store * ResultRefs :=
  if JsMap.has word idx then
    match JsMap.get word idx with
    | Some locs => fold_left (accumulate_obj (fun p => 2 * relevance p)) locs stm
    | None => stm
    end
  else stm.

Definition partial_phase_obj (idx : IndexRefs) (word : jsstring) (stm : Store * ResultRefs)
  : Store * ResultRefs :=
  fold_left
    (fun stm '(indexWord, locs) =>
       if includes indexWord word && negb (jsstring_eqb indexWord word) then
         fold_left (accumulate_obj relevance) locs stm
       else stm)
    idx stm.

Definition score_words_obj (idx : IndexRefs) (queryWords : list jsstring) (st : Store)
  : Store * ResultRefs :=
  fold_left (fun stm word => partial_phase_obj idx word (exact_phase_obj idx word stm))
            queryWords (st, JsMap.empty).

(** Reading a result object, and the postings an index of locations
    stands for. *)
Definition result_at (st : Store) (l : nat) : ScoredResult :=
  match store_get st l with
  | Some o => {| result := fields o; score := score_of o |}
  | None => {| result := AuthorPosting [] [] [] None 0; score := 0 |}
  end.

Definition read_results (st : Store) (rm : ResultRefs) : JsMap.t ScoredResult :=
  map (fun e => (fst e, result_at st (snd e))) rm.

Definition postings_at_locs (st : Store) (locs : list nat) : list Posting :=
  flat_map (fun l => match store_get st l with
                     | Some o => [fields o]
                     | None => []
                     end) locs.

Definition read_index (st : Store) (idx : IndexRefs) : SearchIndex :=
  map (fun e => (fst e, postings_at_locs st (snd e))) idx.

(** Every location held by the index is one of the store. *)
Definition index_in_store (st : Store) (idx : IndexRefs) : Prop :=
  forall word locs l, In (word, locs) idx -> In l locs -> (l < List.length st)%nat.

(** [searchInIndex] over the store: the final store and the result object. *)
Definition searchInIndex_obj (st : Store) (idx : IndexRefs) (q : jsstring)
  : Store * SearchResults :=
  let stm := score_words_obj idx (extractWords q) st in
  let sorted := array_sort by_score_desc (JsMap.values (read_results (fst stm) (snd stm))) in
  let articles := filter (is_type article) sorted in
  let authors := filter (is_type author) sorted in
  (fst stm,
   {| articles := slice0 20 articles;
      authors := slice0 10 authors;
      total := (List.length articles + List.length authors)%nat;
      query := Some q |}).

(** A store holding the postings of an index one after the other, and
    the index of their locations. *)
Definition store_of_index (idx : SearchIndex) : Store :=
  map (fun p => {| fields := p; score_prop := None |}) (flat_map snd idx).

Fixpoint locations_from (n : nat) (idx : SearchIndex) : IndexRefs :=
  match idx with
  | [] => []
  | (word, ps) :: rest =>
      (word, seq n (List.length ps)) :: locations_from (n + List.length ps) rest
  end.

(** The result map refers to objects allocated after the first [n0],
    each entry to its own. *)
Definition refs_fresh (n0 : nat) (st : Store) (rm : ResultRefs) : Prop :=
  Forall (fun e => (n0 <= snd e < List.length st)%nat) rm /\ NoDup (map snd rm).

(** The store [st] still begins with the objects of [st0], unchanged. *)
Definition store_extends (st0 st : Store) : Prop := firstn (List.length st0) st = st0.

(** The invariant of the query loop over the store. *)
Definition loop_invariant (st0 : Store) (stm : Store * ResultRefs) : Prop :=
  store_extends st0 (fst stm) /\ refs_fresh (List.length st0) (fst stm) (snd stm).

(** ** History and [performSearch] *)

(** What the page supplies to a search that is recorded: whether the
    result modal (both of its elements) is in the document, and the two
    readings of the clock. *)
Record Page := {
  search_modal : bool;
  now_first : jsstring;
  now_second : jsstring
}.

Definition saveSearchHistory (s : SearchManager) : SearchManager :=
  {| searchHistory :=
       if (50 <? List.length (searchHistory s))%nat
       then slice0 50 (searchHistory s) else searchHistory s;
     searchSuggestions := searchSuggestions s;
     searchIndex := searchIndex s |}.

Definition addToSearchHistory (q : jsstring) (n : nat) (now : jsstring)
           (s : SearchManager) : SearchManager :=
  saveSearchHistory
    {| searchHistory :=
         {| h_query := q; resultsCount := n; timestamp := now |}
           :: filter (fun item => negb (jsstring_eqb (h_query item) q)) (searchHistory s);
       searchSuggestions := searchSuggestions s;
       searchIndex := searchIndex s |}.

(** The state change of a [showSearchResults] that returns: with the
    modal present it ends by recording the query once more; without it,
    it returns at once.  ([showSearchResults_run] below has the call
    that does not return.) *)
Definition showSearchResults (pg : Page) (q : jsstring) (r : SearchResults)
           (s : SearchManager) : SearchManager :=
  if search_modal pg then addToSearchHistory q (total r) (now_second pg) s else s.

Definition empty_results : SearchResults :=
  {| articles := []; authors := []; total := 0%nat; query := None |}.

(** The result and the state of a [performSearch] that returns;
    [performSearch_run] below says which calls return
    ([performSearch_run_returned]: a call that returns gives this pair). *)
Definition performSearch (pg : Page) (q : jsstring) (addToHistory : bool)
           (s : SearchManager) : SearchResults * SearchManager :=
  if match q with [] => true | _ :: _ => false end
     || (N.of_nat (List.length q) <? 2)
  then (empty_results, s)
  else
    let results := searchInIndex (searchIndex s) q in
    if addToHistory then
      (results,
       showSearchResults pg q results
         (addToSearchHistory q (total results) (now_first pg) s))
    else (results, s).

(** ** The render step of [showSearchResults]

    With the modal present and a result that is not empty,
    [showSearchResults] renders every listed result through
    [highlightMatch], which builds [new RegExp(`(${query})`, 'gi')] from
    the query as typed.  For a query that is no pattern (one with an
    unclosed parenthesis, say) the constructor throws a SyntaxError that
    nothing catches: [showSearchResults], and [performSearch] with it,
    end there, after the first recording and before the second.  A
    result with [total] 0 is shown by a fixed text, without
    [highlightMatch]. *)

Inductive Completion (A : Type) : Type :=
| Returned (value : A)
| Thrown.
Arguments Returned {A} value.
Arguments Thrown {A}.

Section Rendering.
(** Whether [new RegExp(`(${q})`, 'gi')] accepts the query. *)
Variable RegExp_accepts : jsstring -> bool.

Definition showSearchResults_run (pg : Page) (q : jsstring) (r : SearchResults)
           (s : SearchManager) : Completion unit * SearchManager :=
  if search_modal pg then
    if (total r =? 0)%nat || RegExp_accepts q
    then (Returned tt, addToSearchHistory q (total r) (now_second pg) s)
    else (Thrown, s)
  else (Returned tt, s).

(** A call of [performSearch]: how it ends, and the state it leaves. *)
Definition performSearch_run (pg : Page) (q : jsstring) (addToHistory : bool)
           (s : SearchManager) : Completion SearchResults * SearchManager :=
  if match q with [] => true | _ :: _ => false end
     || (N.of_nat (List.length q) <? 2)
  then (Returned empty_results, s)
  else
    let results := searchInIndex (searchIndex s) q in
    if addToHistory then
      match showSearchResults_run pg q results
              (addToSearchHistory q (total results) (now_first pg) s) with
      | (Returned _, s') => (Returned results, s')
      | (Thrown, s') => (Thrown, s')
      end
    else (Returned results, s).
End Rendering.

(** ** getSuggestions *)

Definition typePriority (t : SuggestionType) : Z :=
  match t with
  | term => 3
  | category => 2
  | tag => 1
  end.

Definition suggestion_order (queryLower : jsstring) (a b : Suggestion) : Z :=
  let aExact := startsWith (Unicode.toLowerCase (text a)) queryLower in
  let bExact := startsWith (Unicode.toLowerCase (text b)) queryLower in
  if aExact && negb bExact then (-1)%Z
  else if negb aExact && bExact then 1%Z
  else (typePriority (sg_type b) - typePriority (sg_type a))%Z.

Definition getSuggestions (s : SearchManager) (q : jsstring) : list Suggestion :=
  let queryLower := Unicode.toLowerCase q in
  array_sort (suggestion_order queryLower)
    (slice0 8
       (filter (fun sg => includes (Unicode.toLowerCase (text sg)) queryLower)
               (searchSuggestions s))).

(** ** Vocabulary of the statements *)

(** The code units a token can hold: [a-z], [0-9], [_], the Russian
    letters а..я and ё, and the seven units U+1C80..U+1C86. *)
Definition token_unit (c : N) : bool :=
  in_range 0x61 0x7A c || in_range 0x30 0x39 c || (c =? 0x5F)
  || in_range 0x430 0x44F c || (c =? 0x451) || in_range 0x1C80 0x1C86 c.

(** A Latin or Cyrillic alphanumeric, read generously: a Basic Latin
    letter or digit, or any unit of the Cyrillic blocks (U+0400..U+052F,
    U+1C80..U+1C8F). *)
Definition latin_or_cyrillic_alnum (c : N) : bool :=
  in_range 0x61 0x7A c || in_range 0x41 0x5A c || in_range 0x30 0x39 c
  || in_range 0x400 0x52F c || in_range 0x1C80 0x1C8F c.

(** The postings stored under a token ([[]] when the token has no entry). *)
Definition postings_at (word : jsstring) (idx : SearchIndex) : list Posting :=
  match JsMap.get word idx with
  | Some postings => postings
  | None => []
  end.

(** How often a token occurs in a token sequence. *)
Definition occurrences (word : jsstring) (words : list jsstring) : nat :=
  List.length (filter (jsstring_eqb word) words).

Definition article_words (a : Article.t) : list jsstring :=
  extractWords (article_searchableText a).

Definition user_words (u : User.t) : list jsstring :=
  extractWords (user_searchableText u).

Definition N_sum (l : list N) : N := fold_right N.add 0 l.

(** The running score of document [k] in a result map, in halves
    ([0] when the document has no entry). *)
Definition score_at (k : jsstring) (resultMap : JsMap.t ScoredResult) : N :=
  match JsMap.get k resultMap with
  | Some r => score r
  | None => 0
  end.

(** The sum of [f p] over those postings of [ps] that belong to the
    document with key [k]. *)
Definition doc_weight (k : jsstring) (f : Posting -> N) (ps : list Posting) : N :=
  N_sum (map (fun p => if jsstring_eqb (result_key p) k then f p else 0) ps).

(** What the statement of the scoring rule gives one query token for
    document [k], in halves: over the index entries, the full weight
    (two halves per unit) of the postings under the token itself, and
    half the weight (one half per unit) of the postings under every
    other index token that contains it. *)
Definition token_contribution (idx : SearchIndex) (word k : jsstring) : N :=
  N_sum (map (fun '(indexWord, ps) =>
                if jsstring_eqb indexWord word
                then doc_weight k (fun p => 2 * relevance p) ps
                else if includes indexWord word
                     then doc_weight k relevance ps
                     else 0)
             idx).

Definition expected_score (idx : SearchIndex) (q k : jsstring) : N :=
  N_sum (map (fun word => token_contribution idx word k) (extractWords q)).

(** The postings a query reaches: those under an index token that
    contains one of the query tokens (the token itself included). *)
Definition matched_postings (idx : SearchIndex) (q : jsstring) : list Posting :=
  flat_map (fun word =>
              flat_map (fun '(indexWord, ps) =>
                          if includes indexWord word then ps else [])
                       idx)
           (extractWords q).

(** A document, as the result map tells documents apart: type and id. *)
Definition doc_ref (p : Posting) : DocType * jsstring := (type p, id p).

Definition doc_ref_eq_dec (a b : DocType * jsstring) : {a = b} + {a <> b}.
Proof. decide equality; [apply (list_eq_dec N.eq_dec) | decide equality]. Defined.

Definition distinct_docs (ps : list Posting) : list (DocType * jsstring) :=
  nodup doc_ref_eq_dec (map doc_ref ps).

(** The weight rule in the statement's words: base 1, plus 3 for the
    title, plus 2 for the lead or bio, plus 2 for a tag (a tag matches
    when its lower case contains the token). *)
Definition weight_rule (word title leadOrBio : jsstring) (tags : list jsstring) : N :=
  1
  + (if includes (toLowerCase title) word then 3 else 0)
  + (if includes (toLowerCase leadOrBio) word then 2 else 0)
  + (if existsb (fun tag => includes (toLowerCase tag) word) tags then 2 else 0).

(** Counting a sequence of keys into a fresh [Map]. *)
Definition count_all (l : list jsstring) : JsMap.t N :=
  fold_left (fun counts k => count_up k counts) l JsMap.empty.

Definition count_at (k : jsstring) (counts : JsMap.t N) : N :=
  match JsMap.get k counts with
  | Some n => n
  | None => 0
  end.

(** The lower-cased tags of the published articles, in order. *)
Definition published_tags (w : Managers) : list jsstring :=
  flat_map (fun a => map Unicode.toLowerCase (Article.tags a))
           (filter is_published (articles_of w)).

(** The [tagCounts] map of [getPopularTags]. *)
Definition tagCounts (w : Managers) : JsMap.t N := count_all (published_tags w).

(** The tokens of the recorded queries, in order, and the [termCounts]
    map of [getPopularSearchTerms]. *)
Definition history_terms (history : list HistoryItem) : list jsstring :=
  flat_map (fun item => extractWords (h_query item)) history.

Definition termCounts (history : list HistoryItem) : JsMap.t N :=
  count_all (history_terms history).

(** The snapshot with everything but the published articles removed. *)
Definition published_only (w : Managers) : Managers :=
  {| articleManager := Some (filter is_published (articles_of w));
     authManager := authManager w |}.

(** A suggestion whose text contains, or starts with, the typed text,
    case-insensitively. *)
Definition matches_prefix (q : jsstring) (sg : Suggestion) : bool :=
  includes (Unicode.toLowerCase (text sg)) (Unicode.toLowerCase q).

Definition starts_with_prefix (q : jsstring) (sg : Suggestion) : bool :=
  startsWith (Unicode.toLowerCase (text sg)) (Unicode.toLowerCase q).

(** The pool priority as the statement has it, term > category > tag:
    pool [a] is not below pool [b]. *)
Definition pool_not_below (a b : SuggestionType) : Prop :=
  match b with
  | term => a = term
  | category => a = term \/ a = category
  | tag => True
  end.

(** The order the statement describes: a suggestion that starts with the
    typed text goes before one that does not, and among suggestions that
    agree on that, a term goes before a category and a category before a
    tag. *)
Definition goes_before (q : jsstring) (a b : Suggestion) : Prop :=
  (starts_with_prefix q b = true -> starts_with_prefix q a = true) /\
  (starts_with_prefix q a = starts_with_prefix q b ->
   pool_not_below (sg_type a) (sg_type b)).

Definition sg_rank (q : jsstring) (sg : Suggestion) : Z :=
  ((if starts_with_prefix q sg then 4 else 0) + typePriority (sg_type sg))%Z.

Definition tag_suggestion (t : jsstring) : Suggestion :=
  {| sg_type := tag; text := t; icon := js "fas fa-tag"; count := None |}.

(** Another tag that is at least as frequent as tag [t] with count [n]. *)
Definition rival (t : jsstring) (n : N) (e : jsstring * N) : bool :=
  negb (jsstring_eqb (fst e) t) && (n <=? snd e).

(** The two loops of [buildSearchIndex]. *)
Definition index_articles (arts : list Article.t) (idx : SearchIndex) : SearchIndex :=
  fold_left (fun idx a => indexArticle a idx) arts idx.

Definition index_users (us : list User.t) (idx : SearchIndex) : SearchIndex :=
  fold_left (fun idx u => indexUser u idx) us idx.

(** Every entry of a result map sits under the key of the posting it copies. *)
Definition well_keyed (rm : JsMap.t ScoredResult) : Prop :=
  forall k r, JsMap.get k rm = Some r -> k = result_key (result r).

(** An index token that merely contains the query token. *)
Definition partial_match (word indexWord : jsstring) : bool :=
  includes indexWord word && negb (jsstring_eqb indexWord word).

(** One turn of the [queryWords.forEach] loop. *)
Definition score_word (idx : SearchIndex) (rm : JsMap.t ScoredResult) (word : jsstring) :=
  partial_phase idx word (exact_phase idx word rm).

(** The key of a document reference; [result_key] is this key of the
    posting's reference. *)
Definition key_of_ref (d : DocType * jsstring) : jsstring :=
  type_name (fst d) ++ js "-" ++ snd d.

(** The guard of [performSearch]: [!query || query.length < 2]. *)
Definition too_short (q : jsstring) : bool :=
  match q with [] => true | _ :: _ => false end || (N.of_nat (List.length q) <? 2).

(** Descending order of a numeric key. *)
Definition descending {A} (key : A -> Z) (x y : A) : Prop := (key y <= key x)%Z.

(** ** Sample data *)

Definition sample_article (i t l c : string) (tgs : list string) (st : jsstring)
  : Article.t :=
  Article.mk (js i) (js t) (js l) (js c) (map js tgs) (Some (js "news")) st None.

Definition sample_user (i first last b : string) : User.t :=
  User.mk (js i) (js first) (js last) (js "author") (Some (js b)).

(** The two articles of the rally scenario and one author. *)
Definition rally_report : Article.t :=
  sample_article "article-a" "Репортаж с митинга" "" "" ["митинг"; "новости"]%string
                 ARTICLE_STATUS.PUBLISHED.

Definition weather_week : Article.t :=
  sample_article "article-b" "Погода на неделе" "" "<p>Днём прошёл митинг.</p>" []
                 ARTICLE_STATUS.PUBLISHED.

Definition rally_draft : Article.t :=
  sample_article "article-c" "Митинг: черновик" "" "" ["митинг"]%string ARTICLE_STATUS.DRAFT.

Definition poet : User.t := sample_user "author-1" "Анна" "Серова" "поэт и репортёр".

Definition rally_managers : Managers :=
  {| articleManager := Some [rally_report; weather_week; rally_draft];
     authManager := Some [poet] |}.

Definition rally_index : SearchIndex :=
  searchIndex (buildSearchIndex rally_managers new_SearchManager).

(** Thirty published articles with the same title and distinct ids. *)
Definition thirty_articles : list Article.t :=
  map (fun n => Article.mk (js "issue-" ++ [0x41 + N.of_nat n]) (js "Выпуск газеты") []
                           [] [] None ARTICLE_STATUS.PUBLISHED None)
      (seq 0 30).

Definition thirty_managers : Managers :=
  {| articleManager := Some thirty_articles; authManager := None |}.

(** The demo article of [DemoData.createDemoArticles] in utils.js. *)
Definition demo_article : Article.t :=
  Article.mk
    (js "article-1")
    (js "Добро пожаловать в медиа-портал!")
    (js "Это первая статья в нашем студенческом медиа-портале. Здесь будут публиковаться работы студентов факультета журналистики.")
    (js "<p>Добро пожаловать в наш новый медиа-портал! Это современная платформа для публикации студенческих работ.</p><p>Здесь вы найдете самые интересные материалы от будущих журналистов.</p>")
    (map js ["добро пожаловать"; "новости"; "портал"]%string)
    (Some (js "news")) ARTICLE_STATUS.PUBLISHED None.

Definition demo_managers : Managers :=
  {| articleManager := Some [demo_article]; authManager := None |}.

Definition demo_index : SearchIndex :=
  searchIndex (buildSearchIndex demo_managers new_SearchManager).

(** Five published articles tagged with the same word, and a history
    whose one query holds eight words containing the typed text. *)
Definition science_articles : list Article.t :=
  map (fun n => Article.mk (js "science-" ++ [0x31 + N.of_nat n]) (js "Заметка") [] []
                           [js "Наука"] None ARTICLE_STATUS.PUBLISHED None)
      (seq 0 5).

Definition science_managers : Managers :=
  {| articleManager := Some science_articles; authManager := None |}.

Definition science_state : SearchManager :=
  buildSearchIndex science_managers new_SearchManager.

Definition flooded_history : list HistoryItem :=
  [ {| h_query := js "народ наряд налог навык набор надзор награда название";
       resultsCount := 0%nat;
       timestamp := js "2024-05-01T10:00:00.000Z" |} ].

Definition flooded_state : SearchManager :=
  buildSearchIndex science_managers
    {| searchHistory := flooded_history; searchSuggestions := [];
       searchIndex := JsMap.empty |}.

(** Five published articles each carrying the same six tags. *)
Definition tied_articles : list Article.t :=
  map (fun n => Article.mk (js "tied-" ++ [0x31 + N.of_nat n]) (js "Заметка") [] []
                           (map js ["спорт"; "кино"; "музыка"; "театр"; "книги";
                                    "наука"]%string)
                           None ARTICLE_STATUS.PUBLISHED None)
      (seq 0 5).

Definition tied_managers : Managers :=
  {| articleManager := Some tied_articles; authManager := None |}.

Definition tied_state : SearchManager :=
  buildSearchIndex tied_managers new_SearchManager.

(** A pool with a term, a category and a tag that start with "нов", and
    a term and a tag that merely contain it. *)
Definition news_managers : Managers :=
  {| articleManager :=
       Some [Article.mk (js "news-1") (js "Заметка") [] []
                        [js "Новинки"; js "Обновление"] None ARTICLE_STATUS.PUBLISHED None];
     authManager := None |}.

Definition news_state : SearchManager :=
  buildSearchIndex news_managers
    {| searchHistory :=
         [ {| h_query := js "обновить новый"; resultsCount := 0%nat;
              timestamp := js "2024-05-01T10:00:00.000Z" |} ];
       searchSuggestions := []; searchIndex := JsMap.empty |}.

(** A stand-in for the verdict of the [RegExp] constructor, right on the
    queries used below: a query with an opening parenthesis is turned
    down. *)
Definition no_open_parenthesis (q : jsstring) : bool := negb (existsb (N.eqb 0x28) q).

Definition sample_page : Page :=
  {| search_modal := true;
     now_first := js "2024-05-01T10:00:00.000Z";
     now_second := js "2024-05-01T10:00:00.001Z" |}.

Definition rally_state : SearchManager := buildSearchIndex rally_managers new_SearchManager.


(** ** More string operations *)

(** [s.trim()]: white space and line terminators removed at both ends
    (the units of [\s]). *)
Fixpoint trimStart (s : jsstring) : jsstring :=
  match s with
  | [] => []
  | c :: r => if is_space c then trimStart r else s
  end.

Definition trim (s : jsstring) : jsstring := rev (trimStart (rev (trimStart s))).

(** [s.split(sep)] for a separator of one code unit: the empty string
    splits into one empty piece. *)
Fixpoint split_on (sep : N) (s : jsstring) : list jsstring :=
  match s with
  | [] => [[]]
  | c :: r =>
      if c =? sep then [] :: split_on sep r
      else
        match split_on sep r with
        | h :: t => (c :: h) :: t
        | [] => [[c]]
        end
  end.

(** [ArticleManager.parseTags]: the tags typed into the form, which the
    index later reads as [article.tags]. *)
Definition parseTags (tagsString : jsstring) : list jsstring :=
  match tagsString with
  | [] => []
  | _ :: _ =>
      filter (fun tag => (0 <? List.length tag)%nat)
             (map trim (split_on 0x2C tagsString))
  end.

(** [Formatter.truncate(text, length, suffix)] of utils.js, which the
    result renderers call on leads and bios. *)
Definition truncate (text : jsstring) (length : nat) (suffix : jsstring) : jsstring :=
  if match text with [] => true | _ :: _ => false end
     || (List.length text <=? length)%nat
  then text
  else trim (firstn length text) ++ suffix.

(** ** Keyboard navigation in the suggestion list

    The suggestion elements carry the class [active] or not; the list
    of flags stands for the elements in document order. *)








(** A string that neither begins nor ends with white space. *)
Definition no_edge_space (t : jsstring) : Prop :=
  (forall c r, t = c :: r -> is_space c = false) /\
  (forall c r, t = r ++ [c] -> is_space c = false).

(** A text in which no [<] has a [>] anywhere after it. *)
Definition no_tag (s : jsstring) : Prop :=
  forall pre post, s = pre ++ 0x3C :: post -> ~ In 0x3E post.

(** A tag as the form's parser leaves it: not empty, no comma, no white
    space at either end. *)
Definition clean_tag (t : jsstring) : Prop :=
  t <> [] /\ ~ In 0x2C t /\ no_edge_space t.

(** One of the tokens [words] of a document contains a token of the
    query [q]. *)
Definition token_hit (q : jsstring) (words : list jsstring) : Prop :=
  exists word t,
    In word (extractWords q) /\ In t words /\ includes t word = true.


(** The [k] most frequent keys of a sequence with their counts:
    [Array.from(counts.entries()).sort(...).slice(0, k)]. *)
Definition top_counts (l : list jsstring) (k : nat) : list (jsstring * N) :=
  slice0 k (array_sort by_count_desc (count_all l)).


(** ** Advanced search *)

(** The article objects of [articleManager.articles] with the two
    further properties the advanced search reads.  [createdAt] is a
    string on every article: [createArticle] and the demo data set it
    to an ISO date. *)
Module StoredArticle.
Record t := mk {
  fields : Article.t;
  authorId : option jsstring;
  createdAt : jsstring
}.
End StoredArticle.

(** The [filters] object built by [handleAdvancedSearch]. *)
Module Filters.
Record t := mk {
  query : jsstring;
  category : jsstring;
  author : jsstring;
  dateFrom : jsstring;
  dateTo : jsstring;
  tags : list jsstring
}.
End Filters.

(** The entries of the submitted form: [formData.get(name)] is a string
    or [null]. *)
Record AdvancedForm := {
  form_query : option jsstring;
  form_category : option jsstring;
  form_author : option jsstring;
  form_dateFrom : option jsstring;
  form_dateTo : option jsstring;
  form_tags : option jsstring
}.

(** A string in a condition: the empty string is falsy. *)
Definition truthy (s : jsstring) : bool :=
  match s with
  | [] => false
  | _ :: _ => true
  end.

(** [formData.get(name) || '']. *)
Definition or_empty (v : option jsstring) : jsstring :=
  match v with
  | Some (c :: r) => c :: r
  | _ => []
  end.

(** [formData.get('tags') ? formData.get('tags').split(',').map(t => t.trim()) : []]. *)
Definition form_filter_tags (v : option jsstring) : list jsstring :=
  match v with
  | Some (c :: r) => map trim (split_on 0x2C (c :: r))
  | _ => []
  end.

Definition form_filters (form : AdvancedForm) : Filters.t :=
  {| Filters.query := or_empty (form_query form);
     Filters.category := or_empty (form_category form);
     Filters.author := or_empty (form_author form);
     Filters.dateFrom := or_empty (form_dateFrom form);
     Filters.dateTo := or_empty (form_dateTo form);
     Filters.tags := form_filter_tags (form_tags form) |}.

(** [article.publishedAt || article.createdAt]. *)
Definition article_date (a : StoredArticle.t) : jsstring :=
  match Article.publishedAt (StoredArticle.fields a) with
  | Some (c :: r) => c :: r
  | _ => StoredArticle.createdAt a
  end.

(** [x >= y] and [x <= y] on two [Date] objects compare their time
    values; with an invalid date on either side both are false. *)
Definition date_ge (x y : option Z) : bool :=
  match x, y with
  | Some tx, Some ty => (ty <=? tx)%Z
  | _, _ => false
  end.

Definition date_le (x y : option Z) : bool :=
  match x, y with
  | Some tx, Some ty => (tx <=? ty)%Z
  | _, _ => false
  end.

(** [article.category === filters.category] and the like, where the
    property may be missing. *)
Definition is_string (v : option jsstring) (s : jsstring) : bool :=
  match v with
  | Some x => jsstring_eqb x s
  | None => false
  end.

Definition tags_match (filterTags : list jsstring) (a : StoredArticle.t) : bool :=
  existsb (fun filterTag =>
             existsb (fun articleTag =>
                        includes (Unicode.toLowerCase articleTag)
                                 (Unicode.toLowerCase filterTag))
                     (Article.tags (StoredArticle.fields a)))
          filterTags.

(** [relevanceMap.get(a.id) || 0]. *)
Definition relevance_of (relevanceMap : JsMap.t N) (a : StoredArticle.t) : N :=
  match JsMap.get (Article.id (StoredArticle.fields a)) relevanceMap with
  | Some n => n
  | None => 0
  end.

Definition by_relevance_desc (relevanceMap : JsMap.t N) (a b : StoredArticle.t) : Z :=
  (Z.of_N (relevance_of relevanceMap b) - Z.of_N (relevance_of relevanceMap a))%Z.

(** The [forEach] that fills [relevanceMap]. *)
Definition relevance_map (textArticles : list ScoredResult) : JsMap.t N :=
  fold_left (fun m r => JsMap.set (id (result r)) (score r) m) textArticles JsMap.empty.

(** The branch taken with a text query: keep the articles whose id is
    among the text results, in the order of their text score. *)
Definition text_stage (textResults : SearchResults) (selected : list StoredArticle.t)
  : list StoredArticle.t :=
  let articleIds := map (fun r => id (result r)) (articles textResults) in
  let selected :=
    filter (fun a => existsb (jsstring_eqb (Article.id (StoredArticle.fields a))) articleIds)
           selected in
  let relevanceMap := relevance_map (articles textResults) in
  array_sort (by_relevance_desc relevanceMap) selected.

Section AdvancedSearch.
(** [new Date(s).getTime()], with [None] for the NaN of an invalid date. *)
Variable Date_time : jsstring -> option Z.

(** The comparator of the date sort; a NaN difference counts as 0.  With
    a date that does not parse among the articles this is no consistent
    order, and the order [sort] then leaves is the engine's own: the
    sorted list is a rearrangement of the selection, and its order is
    stated below for dates that all parse. *)
Definition by_date_desc (a b : StoredArticle.t) : Z :=
  match Date_time (article_date b), Date_time (article_date a) with
  | Some tb, Some ta => (tb - ta)%Z
  | _, _ => 0%Z
  end.

(** The array [articles] of [advancedSearch] when it reaches the
    [return]. *)
Definition advanced_articles (stored : option (list StoredArticle.t))
                             (idx : SearchIndex) (filters : Filters.t)
  : list StoredArticle.t :=
  let articles := match stored with Some l => l | None => [] end in
  let articles := filter (fun a => is_published (StoredArticle.fields a)) articles in
  let articles :=
    if truthy (Filters.category filters) then
      filter (fun a => is_string (Article.category (StoredArticle.fields a))
                                 (Filters.category filters)) articles
    else articles in
  let articles :=
    if truthy (Filters.author filters) then
      filter (fun a => is_string (StoredArticle.authorId a) (Filters.author filters)) articles
    else articles in
  let articles :=
    if truthy (Filters.dateFrom filters) then
      let fromDate := Date_time (Filters.dateFrom filters) in
      filter (fun a => date_ge (Date_time (article_date a)) fromDate) articles
    else articles in
  let articles :=
    if truthy (Filters.dateTo filters) then
      let toDate := Date_time (Filters.dateTo filters) in
      filter (fun a => date_le (Date_time (article_date a)) toDate) articles
    else articles in
  let articles :=
    if (0 <? List.length (Filters.tags filters))%nat then
      filter (tags_match (Filters.tags filters)) articles
    else articles in
  if truthy (Filters.query filters) && (2 <=? List.length (Filters.query filters))%nat then
    text_stage (searchInIndex idx (Filters.query filters)) articles
  else
    array_sort by_date_desc articles.

End AdvancedSearch.

(** What the stages of [advancedSearch] ask of an article, one line per
    stage; a stage whose filter is empty asks nothing. *)
Definition selected_by (Date_time : jsstring -> option Z) (idx : SearchIndex)
                       (filters : Filters.t) (a : StoredArticle.t) : Prop :=
  Article.status (StoredArticle.fields a) = ARTICLE_STATUS.PUBLISHED /\
  (Filters.category filters <> [] ->
   Article.category (StoredArticle.fields a) = Some (Filters.category filters)) /\
  (Filters.author filters <> [] ->
   StoredArticle.authorId a = Some (Filters.author filters)) /\
  (Filters.dateFrom filters <> [] ->
   exists t t0, Date_time (article_date a) = Some t /\
                Date_time (Filters.dateFrom filters) = Some t0 /\ (t0 <= t)%Z) /\
  (Filters.dateTo filters <> [] ->
   exists t t1, Date_time (article_date a) = Some t /\
                Date_time (Filters.dateTo filters) = Some t1 /\ (t <= t1)%Z) /\
  (Filters.tags filters <> [] ->
   exists filterTag articleTag,
     In filterTag (Filters.tags filters) /\
     In articleTag (Article.tags (StoredArticle.fields a)) /\
     includes (Unicode.toLowerCase articleTag) (Unicode.toLowerCase filterTag) = true) /\
  ((2 <= List.length (Filters.query filters))%nat ->
   exists r, In r (articles (searchInIndex idx (Filters.query filters))) /\
             id (result r) = Article.id (StoredArticle.fields a)).

(** The time value of an article's date, 0 standing in for NaN. *)
Definition article_time (Date_time : jsstring -> option Z) (a : StoredArticle.t) : Z :=
  match Date_time (article_date a) with
  | Some t => t
  | None => 0%Z
  end.

(** A stand-in for the time value of a date written [yyyy-mm-dd]: its
    digits read as one number, which keeps the order of such dates. *)
Definition digits_time (s : jsstring) : option Z :=
  match s with
  | [] => None
  | _ :: _ =>
      Some (Z.of_N (fold_left (fun acc c => if in_range 0x30 0x39 c
                                            then acc * 10 + (c - 0x30) else acc) s 0))
  end.

Definition stored_article (a : Article.t) (author created : string) : StoredArticle.t :=
  StoredArticle.mk a (Some (js author)) (js created).

Definition rally_stored : option (list StoredArticle.t) :=
  Some [stored_article rally_report "author-1" "2024-04-30";
        stored_article weather_week "author-1" "2024-05-02";
        stored_article rally_draft "author-1" "2024-05-03"].

Definition text_filters (q : string) : Filters.t :=
  {| Filters.query := js q; Filters.category := []; Filters.author := [];
     Filters.dateFrom := []; Filters.dateTo := []; Filters.tags := [] |}.

(** Every filter filled in, to select [rally_report]. *)
Definition rally_filters : Filters.t :=
  {| Filters.query := js "митинг"; Filters.category := js "news";
     Filters.author := js "author-1";
     Filters.dateFrom := js "2024-04-01"; Filters.dateTo := js "2024-05-01";
     Filters.tags := [js "МИТ"] |}.

(** ** The two lower cases

    The vocabulary of the comparison between [toLowerCase], the table
    the tokeniser and the weight tests use, and [Unicode.toLowerCase]. *)

(** A string of UTF-16 code units. *)
Definition code_units (s : jsstring) : Prop := Forall (fun c => c < 0x10000) s.

(** A unit that the tokeniser's class rejects and the table leaves as it
    is. *)
Definition inert (c : N) : bool :=
  negb (class_member_ci c)
  && match toLowerCase_cu c with
     | [c'] => c' =? c
     | _ => false
     end.

(** Two units that are the same once the tokeniser has looked at them. *)
Definition alike (a b : N) : Prop := a = b \/ (inert a = true /\ inert b = true).

(** [extractWords] with the lower case taken by code points. *)
Definition extractWords_by_code_points (text : jsstring) : list jsstring :=
  filter (fun word => 2 <=? N.of_nat (length word))
         (split_ws (replace_non_word (Unicode.toLowerCase text))).

(** What is asked of the table at a unit [c] of the Basic Multilingual
    Plane whose lower case is the code point [u]: the lower case is one
    unit again, and it is the table's, or else the unit, left by the
    table, and its lower case are both inert. *)
Definition table_right_at (c u : N) : bool :=
  (c =? 0x3A3) || (c =? 0x130)
  || ((u <? 0x10000)
      && match toLowerCase_cu c with
         | [t] => (t =? u) || ((t =? c) && inert c && inert u)
         | _ => false
         end).

(** [p] at the [n] pairs [(c, u)], [(c + step, u + step)], ... *)
Fixpoint run_checked (p : N -> N -> bool) (c u step : N) (n : nat) : bool :=
  match n with
  | O => true
  | S n' => p c u && run_checked p (c + step) (u + step) step n'
  end.

(** The table is right along a run below U+10000. *)
Definition run_right (e : N * N * N * N) : bool :=
  let '(first, last, step, to) := e in
  (0x10000 <=? first)
  || ((1 <=? step)
      && run_checked table_right_at first to step (N.to_nat ((last - first) / step + 1))).

(** [p] at the [n] numbers from [from] on. *)
Fixpoint holds_from (p : N -> bool) (from : N) (n : nat) : bool :=
  match n with
  | O => true
  | S n' => p from && holds_from p (from + 1) n'
  end.

(** The code point has a lower-case mapping in the table of runs. *)
Definition in_some_run (c : N) : bool :=
  match find (Unicode.in_run c) Unicode.lower_runs with
  | Some _ => true
  | None => false
  end.

(** A run of the lower-case table lies on one side of U+10000, with its
    images. *)
Definition run_keeps_plane (e : N * N * N * N) : bool :=
  let '(first, last, _, to) := e in
  ((last <? 0x10000) && (to + (last - first) <? 0x10000))
  || ((0x10000 <=? first) && (0x10000 <=? to) && (to + (last - first) <=? 0x10FFFF)).

(** * Properties *)

(** ** The model at work *)

Example extractWords_mixed :
  extractWords (js "Hello,  World! a  Привет-мир Ёж №5") =
  [js "hello"; js "world"; js "привет"; js "мир"; js "ёж"].
Proof. vm_compute. reflexivity. Qed.

Example split_ws_edges :
  split_ws (js " a  b ") = [js ""; js "a"; js "b"; js ""] /\
  split_ws (js "") = [js ""].
Proof. vm_compute. split; reflexivity. Qed.

Example strip_tags_unclosed :
  strip_tags (js "<p>Hi <b>you</b></p> 1 < 2") = js "Hi you 1 < 2".
Proof. vm_compute. reflexivity. Qed.

Example category_label_resolved :
  category_label rally_report = js "Новости".
Proof. vm_compute. reflexivity. Qed.

(** The rally scenario: the report (title and tag) before the weather
    note (body only), both present, total 2, scores 8 and 1. *)
Example rally_scenario :
  map (fun r => (id (result r), score r))
      (articles (searchInIndex rally_index (js "митинг"))) =
  [(js "article-a", 16); (js "article-b", 2)] /\
  authors (searchInIndex rally_index (js "митинг")) = [] /\
  total (searchInIndex rally_index (js "митинг")) = 2%nat.
Proof. vm_compute. repeat split. Qed.

(** ** Strings *)

Lemma jsstring_eqb_eq (a b : jsstring) : jsstring_eqb a b = true <-> a = b.
Proof.
  revert b; induction a as [|x a IH]; intros [|y b]; simpl; split;
    try congruence; try reflexivity.
  - rewrite andb_true_iff, N.eqb_eq, IH. intros [-> ->]; reflexivity.
  - intros H; injection H as -> ->. rewrite N.eqb_refl. apply IH; reflexivity.
Qed.

Lemma jsstring_eqb_refl (a : jsstring) : jsstring_eqb a a = true.
Proof. apply jsstring_eqb_eq; reflexivity. Qed.

Lemma jsstring_eqb_neq (a b : jsstring) : jsstring_eqb a b = false <-> a <> b.
Proof.
  rewrite <- jsstring_eqb_eq. destruct (jsstring_eqb a b); split; congruence.
Qed.

Lemma jsstring_eqb_sym (a b : jsstring) : jsstring_eqb a b = jsstring_eqb b a.
Proof.
  destruct (jsstring_eqb a b) eqn:E; symmetry.
  - apply jsstring_eqb_eq. apply jsstring_eqb_eq in E. congruence.
  - apply jsstring_eqb_neq. apply jsstring_eqb_neq in E. congruence.
Qed.

Lemma jsstring_eq_dec (a b : jsstring) : {a = b} + {a <> b}.
Proof. apply (list_eq_dec N.eq_dec). Defined.

Ltac eqb_cases a b :=
  let E := fresh "E" in
  destruct (jsstring_eqb a b) eqn:E;
  [ apply jsstring_eqb_eq in E | apply jsstring_eqb_neq in E ].

(** ** Maps *)

Module JsMapFacts.
Import JsMap.

Section Facts.
Context {V : Type}.
Implicit Types (m : t V) (k : jsstring) (v : V).

Lemma get_set_same k v m : get k (set k v m) = Some v.
Proof.
  induction m as [|[k' v'] m IH]; simpl.
  - rewrite jsstring_eqb_refl; reflexivity.
  - destruct (jsstring_eqb k k') eqn:E; simpl; rewrite E; auto.
Qed.

Lemma get_set_other k k' v m : k' <> k -> get k' (set k v m) = get k' m.
Proof.
  intros Hne. induction m as [|[k0 v0] m IH]; simpl.
  - apply jsstring_eqb_neq in Hne. rewrite Hne; reflexivity.
  - eqb_cases k k0; simpl.
    + subst k0. apply jsstring_eqb_neq in Hne. rewrite Hne. reflexivity.
    + rewrite IH. reflexivity.
Qed.

Lemma get_set k k' v m :
  get k' (set k v m) = if jsstring_eqb k' k then Some v else get k' m.
Proof.
  eqb_cases k' k.
  - subst. apply get_set_same.
  - apply get_set_other; assumption.
Qed.

Lemma has_get k m : has k m = true <-> exists v, get k m = Some v.
Proof.
  unfold has. destruct (get k m).
  - split; eauto.
  - split; [discriminate | intros [v Hv]; discriminate].
Qed.

Lemma get_None_keys k m : get k m = None <-> ~ In k (keys m).
Proof.
  induction m as [|[k' v'] m IH]; simpl.
  - tauto.
  - eqb_cases k k'.
    + subst. split; [discriminate | intros H; exfalso; apply H; auto].
    + rewrite IH. split; intros H; [intros [?|?]; [congruence | tauto] | tauto].
Qed.

Lemma get_Some_In k v m : get k m = Some v -> In (k, v) m.
Proof.
  induction m as [|[k' v'] m IH]; simpl; [discriminate|].
  eqb_cases k k'.
  - intros [= ->]. subst. auto.
  - auto.
Qed.

Lemma In_get k v m : NoDup (keys m) -> In (k, v) m -> get k m = Some v.
Proof.
  induction m as [|[k' v'] m IH]; simpl; [tauto|].
  intros Hnd [Heq | Hin].
  - injection Heq as -> ->. rewrite jsstring_eqb_refl; reflexivity.
  - inversion Hnd as [|? ? Hni Hnd']; subst.
    eqb_cases k k'.
    + subst. exfalso. apply Hni. unfold keys. apply (in_map fst) in Hin. exact Hin.
    + auto.
Qed.

Lemma keys_set k v m :
  keys (set k v m) = if has k m then keys m else keys m ++ [k].
Proof.
  unfold has. induction m as [|[k' v'] m IH]; simpl; [reflexivity|].
  eqb_cases k k'; simpl.
  - reflexivity.
  - rewrite IH. destruct (get k m); reflexivity.
Qed.

Lemma NoDup_keys_set k v m : NoDup (keys m) -> NoDup (keys (set k v m)).
Proof.
  intros Hnd. rewrite keys_set. destruct (has k m) eqn:E; [assumption|].
  apply NoDup_app; [assumption | repeat constructor; simpl; tauto |].
  intros x Hx. simpl. intros [Hk | []]. subst x.
  assert (Hg : get k m = None).
  { unfold has in E. destruct (get k m); [discriminate | reflexivity]. }
  apply get_None_keys in Hg. contradiction.
Qed.

End Facts.
End JsMapFacts.

(** ** Sorting *)

Section ArraySortFacts.
Context {A : Type} (cmp : A -> A -> Z) (key : A -> Z).
Hypothesis cmp_key : forall x y, (cmp x y <= 0)%Z <-> (key y <= key x)%Z.

Lemma sort_insert_perm x l : Permutation (sort_insert cmp x l) (x :: l).
Proof.
  induction l as [|y l IH]; simpl; [reflexivity|].
  destruct (cmp x y <=? 0)%Z; [reflexivity|].
  rewrite IH. apply perm_swap.
Qed.

Lemma array_sort_perm l : Permutation (array_sort cmp l) l.
Proof.
  induction l as [|x l IH]; simpl; [reflexivity|].
  rewrite sort_insert_perm. constructor. exact IH.
Qed.

Lemma sort_insert_sorted x l :
  StronglySorted (descending key) l -> StronglySorted (descending key) (sort_insert cmp x l).
Proof.
  induction 1 as [|y l Hs IH Hall]; simpl.
  - repeat constructor.
  - destruct (Z.leb_spec (cmp x y) 0) as [Hle | Hgt].
    + apply cmp_key in Hle. constructor.
      * constructor; assumption.
      * constructor; [exact Hle|].
        eapply Forall_impl; [|exact Hall]. unfold descending in *. intros z Hz. lia.
    + constructor; [exact IH|].
      assert (Hyx : descending key y x).
      { unfold descending. destruct (Z.le_gt_cases (key x) (key y)) as [H|H]; [exact H|].
        exfalso. assert (cmp x y <= 0)%Z by (apply cmp_key; lia). lia. }
      eapply Permutation_Forall; [symmetry; apply sort_insert_perm|].
      constructor; assumption.
Qed.

Lemma array_sort_sorted l : StronglySorted (descending key) (array_sort cmp l).
Proof.
  induction l as [|x l IH]; simpl; [constructor|].
  apply sort_insert_sorted; exact IH.
Qed.

Lemma array_sort_In x l : In x (array_sort cmp l) <-> In x l.
Proof.
  split; apply Permutation_in; [|symmetry]; apply array_sort_perm.
Qed.

Lemma array_sort_length l : List.length (array_sort cmp l) = List.length l.
Proof. apply Permutation_length, array_sort_perm. Qed.
End ArraySortFacts.

Lemma StronglySorted_filter {A} (R : A -> A -> Prop) (f : A -> bool) l :
  StronglySorted R l -> StronglySorted R (filter f l).
Proof.
  induction 1 as [|x l Hs IH Hall]; simpl; [constructor|].
  destruct (f x); [|exact IH].
  constructor; [exact IH|].
  rewrite Forall_forall in *. intros y Hy. apply filter_In in Hy. apply Hall, Hy.
Qed.

Lemma StronglySorted_firstn {A} (R : A -> A -> Prop) n l :
  StronglySorted R l -> StronglySorted R (firstn n l).
Proof.
  intros Hs. revert n. induction Hs as [|x l Hs IH Hall]; intros [|n]; simpl;
    try constructor.
  - apply IH.
  - rewrite Forall_forall in *. intros y Hy. apply Hall.
    rewrite <- (firstn_skipn n l). apply in_or_app; left; exact Hy.
Qed.

Lemma In_firstn {A} n (x : A) l : In x (firstn n l) -> In x l.
Proof.
  intros H. rewrite <- (firstn_skipn n l). apply in_or_app; left; exact H.
Qed.

(** ** Tokenisation *)

Ltac units_to_prop :=
  unfold class_member_ci, class_member, is_word_char, is_space, token_unit,
    latin_or_cyrillic_alnum, in_range in *;
  repeat match goal with
    | H : _ = true |- _ =>
        progress rewrite ?orb_true_iff, ?andb_true_iff, ?N.leb_le, ?N.eqb_eq in H
    | H : _ = false |- _ =>
        progress rewrite ?orb_false_iff, ?andb_false_iff, ?N.leb_gt, ?N.eqb_neq in H
    end;
  rewrite ?orb_true_iff, ?andb_true_iff, ?orb_false_iff, ?andb_false_iff,
    ?N.leb_le, ?N.leb_gt, ?N.eqb_eq, ?N.eqb_neq.

Lemma toLowerCase_cu_kept (c0 c : N) :
  In c (toLowerCase_cu c0) -> class_member_ci c = true ->
  is_space c = true \/ token_unit c = true.
Proof.
  unfold toLowerCase_cu. intros Hin Hk.
  destruct (in_range 65 90 c0) eqn:E1;
    [|destruct (in_range 1040 1071 c0) eqn:E2;
      [|destruct (in_range 1024 1039 c0) eqn:E3;
        [|destruct (c0 =? 304) eqn:E4; [|destruct (c0 =? 8490) eqn:E5]]]];
    simpl in Hin;
    repeat match goal with
      | H : _ \/ _ |- _ => destruct H
      | H : False |- _ => destruct H
      end; subst; units_to_prop; lia.
Qed.

Lemma toLowerCase_In (c : N) (s : jsstring) :
  In c (toLowerCase s) -> exists c0, In c0 s /\ In c (toLowerCase_cu c0).
Proof. unfold toLowerCase. rewrite in_flat_map. auto. Qed.

Lemma replace_non_word_In (c : N) (s : jsstring) :
  In c (replace_non_word s) -> c = 0x20 \/ (In c s /\ class_member_ci c = true).
Proof.
  unfold replace_non_word. rewrite in_map_iff. intros [c0 [Heq Hin]].
  destruct (class_member_ci c0) eqn:E; subst; auto.
Qed.

Lemma split_ws_units (s w : jsstring) :
  In w (split_ws s) -> Forall (fun c => In c s /\ is_space c = false) w.
Proof.
  revert w. induction s as [|c r IH]; simpl; intros w Hin.
  - destruct Hin as [<-|[]]. constructor.
  - assert (Hrest : forall w', In w' (split_ws r) ->
                               Forall (fun x => (c = x \/ In x r) /\ is_space x = false) w').
    { intros w' Hw'. eapply Forall_impl; [|apply IH, Hw']. simpl. tauto. }
    destruct (is_space c) eqn:Ec.
    + assert (Hcases : In w (split_ws r) \/ w = []).
      { destruct r as [|c' r']; [|destruct (is_space c')];
          simpl in Hin |- *; intuition auto. }
      destruct Hcases as [H| ->]; [apply Hrest, H | constructor].
    + destruct (split_ws r) as [|h t] eqn:Es.
      * destruct Hin as [<-|[]]. repeat constructor. exact Ec.
      * destruct Hin as [<-|Hin].
        -- constructor; [auto|]. apply Hrest. left; reflexivity.
        -- apply Hrest. right; exact Hin.
Qed.

Lemma token_unit_lower (c : N) : token_unit c = true -> toLowerCase_cu c = [c].
Proof.
  intros H. unfold toLowerCase_cu.
  destruct (in_range 65 90 c) eqn:E1;
    [|destruct (in_range 1040 1071 c) eqn:E2;
      [|destruct (in_range 1024 1039 c) eqn:E3;
        [|destruct (c =? 304) eqn:E4; [|destruct (c =? 8490) eqn:E5]]]];
    try reflexivity; exfalso; units_to_prop; lia.
Qed.

Lemma extractWords_In (text w : jsstring) :
  In w (extractWords text) <->
  In w (split_ws (replace_non_word (toLowerCase text))) /\ (2 <= List.length w)%nat.
Proof.
  unfold extractWords. rewrite filter_In, N.leb_le.
  split; intros [H1 H2]; (split; [exact H1 | lia]).
Qed.

Lemma extractWords_token_units (text w : jsstring) :
  In w (extractWords text) -> Forall (fun c => token_unit c = true) w.
Proof.
  rewrite extractWords_In. intros [Hin _].
  apply split_ws_units in Hin. eapply Forall_impl; [|exact Hin].
  intros c [Hc Hsp]. simpl in *.
  apply replace_non_word_In in Hc. destruct Hc as [-> | [Hc Hk]].
  - discriminate Hsp.
  - apply toLowerCase_In in Hc. destruct Hc as [c0 [_ Hc0]].
    destruct (toLowerCase_cu_kept c0 c Hc0 Hk) as [H|H]; [congruence | exact H].
Qed.

(** ** Index construction *)

Import JsMapFacts.

Lemma postings_at_push (w' w : jsstring) (p : Posting) (idx : SearchIndex) :
  postings_at w' (index_push w p idx) =
  if jsstring_eqb w' w then postings_at w' idx ++ [p] else postings_at w' idx.
Proof.
  unfold index_push, postings_at.
  destruct (JsMap.has w idx) eqn:Hh.
  - apply has_get in Hh. destruct Hh as [ps Hps]. rewrite Hps, get_set.
    eqb_cases w' w; [subst; rewrite Hps|]; reflexivity.
  - assert (Hn : JsMap.get w idx = None).
    { unfold JsMap.has in Hh. destruct (JsMap.get w idx); [discriminate|reflexivity]. }
    rewrite get_set_same, get_set.
    eqb_cases w' w.
    + subst. rewrite Hn. reflexivity.
    + rewrite get_set_other by assumption. reflexivity.
Qed.

Lemma keys_push (w : jsstring) (p : Posting) (idx : SearchIndex) :
  JsMap.keys (index_push w p idx) =
  if JsMap.has w idx then JsMap.keys idx else JsMap.keys idx ++ [w].
Proof.
  unfold index_push.
  destruct (JsMap.has w idx) eqn:Hh.
  - pose proof Hh as Hh'. apply has_get in Hh'. destruct Hh' as [ps Hps].
    rewrite Hps, keys_set, Hh. reflexivity.
  - rewrite get_set_same, keys_set.
    assert (Hs : JsMap.has w (JsMap.set w [] idx) = true).
    { apply has_get. eexists. apply get_set_same. }
    rewrite Hs, keys_set, Hh. reflexivity.
Qed.

Lemma NoDup_keys_push (w : jsstring) (p : Posting) (idx : SearchIndex) :
  NoDup (JsMap.keys idx) -> NoDup (JsMap.keys (index_push w p idx)).
Proof.
  intros Hnd. rewrite keys_push, <- (keys_set w []).
  apply NoDup_keys_set, Hnd.
Qed.

Section IndexWords.
Variable posting_for : jsstring -> Posting.

Lemma postings_at_index_words (w : jsstring) (words : list jsstring) (idx : SearchIndex) :
  postings_at w (fold_left (fun idx word => index_push word (posting_for word) idx) words idx) =
  postings_at w idx ++ repeat (posting_for w) (occurrences w words).
Proof.
  unfold occurrences. revert idx.
  induction words as [|x words IH]; intros idx; simpl.
  - rewrite app_nil_r. reflexivity.
  - rewrite IH, postings_at_push.
    eqb_cases w x; simpl.
    + subst. rewrite <- app_assoc. reflexivity.
    + reflexivity.
Qed.

Lemma NoDup_keys_index_words (words : list jsstring) (idx : SearchIndex) :
  NoDup (JsMap.keys idx) -> NoDup (JsMap.keys (fold_left (fun idx word => index_push word (posting_for word) idx) words idx)).
Proof.
  revert idx.
  induction words as [|x words IH]; intros idx Hnd; simpl; [assumption|].
  apply IH, NoDup_keys_push, Hnd.
Qed.
End IndexWords.

Lemma postings_at_indexArticle (w : jsstring) (a : Article.t) (idx : SearchIndex) :
  postings_at w (indexArticle a idx) =
  postings_at w idx ++ repeat (article_posting w a) (occurrences w (article_words a)).
Proof.
  unfold indexArticle.
  apply (postings_at_index_words (fun word => article_posting word a)).
Qed.

Lemma postings_at_indexUser (w : jsstring) (u : User.t) (idx : SearchIndex) :
  postings_at w (indexUser u idx) =
  postings_at w idx ++ repeat (user_posting u) (occurrences w (user_words u)).
Proof.
  unfold indexUser.
  apply (postings_at_index_words (fun _ => user_posting u)).
Qed.

Lemma NoDup_keys_indexArticle (a : Article.t) (idx : SearchIndex) :
  NoDup (JsMap.keys idx) -> NoDup (JsMap.keys (indexArticle a idx)).
Proof. apply (NoDup_keys_index_words (fun word => article_posting word a)). Qed.

Lemma NoDup_keys_indexUser (u : User.t) (idx : SearchIndex) :
  NoDup (JsMap.keys idx) -> NoDup (JsMap.keys (indexUser u idx)).
Proof. apply (NoDup_keys_index_words (fun _ => user_posting u)). Qed.

(** The [forEach] over the articles skips what is not published: it is
    the loop over the published ones. *)
Lemma fold_left_filter {A B} (f : B -> A -> B) (keep : A -> bool) (l : list A) (b : B) :
  fold_left (fun acc x => if keep x then f acc x else acc) l b =
  fold_left f (filter keep l) b.
Proof.
  revert b. induction l as [|x l IH]; intros b; simpl; [reflexivity|].
  destruct (keep x); simpl; apply IH.
Qed.

Lemma searchIndex_build (w : Managers) (s : SearchManager) :
  searchIndex (buildSearchIndex w s) =
  index_users (users_of w)
    (index_articles (filter is_published (articles_of w)) JsMap.empty).
Proof.
  unfold buildSearchIndex, index_users, index_articles. simpl.
  rewrite (fold_left_filter (fun idx a => indexArticle a idx)). reflexivity.
Qed.

Lemma postings_at_index_articles (w : jsstring) (arts : list Article.t) (idx : SearchIndex) :
  postings_at w (index_articles arts idx) =
  postings_at w idx
  ++ flat_map (fun a => repeat (article_posting w a) (occurrences w (article_words a))) arts.
Proof.
  unfold index_articles. revert idx.
  induction arts as [|a arts IH]; intros idx; simpl.
  - rewrite app_nil_r; reflexivity.
  - rewrite IH, postings_at_indexArticle, <- app_assoc. reflexivity.
Qed.

Lemma postings_at_index_users (w : jsstring) (us : list User.t) (idx : SearchIndex) :
  postings_at w (index_users us idx) =
  postings_at w idx
  ++ flat_map (fun u => repeat (user_posting u) (occurrences w (user_words u))) us.
Proof.
  unfold index_users. revert idx.
  induction us as [|u us IH]; intros idx; simpl.
  - rewrite app_nil_r; reflexivity.
  - rewrite IH, postings_at_indexUser, <- app_assoc. reflexivity.
Qed.

(** The content of a built index, token by token. *)
Lemma postings_at_build (word : jsstring) (w : Managers) (s : SearchManager) :
  postings_at word (searchIndex (buildSearchIndex w s)) =
  flat_map (fun a => repeat (article_posting word a) (occurrences word (article_words a)))
           (filter is_published (articles_of w))
  ++ flat_map (fun u => repeat (user_posting u) (occurrences word (user_words u)))
              (users_of w).
Proof.
  rewrite searchIndex_build, postings_at_index_users, postings_at_index_articles.
  reflexivity.
Qed.

Lemma NoDup_keys_build (w : Managers) (s : SearchManager) :
  NoDup (JsMap.keys (searchIndex (buildSearchIndex w s))).
Proof.
  rewrite searchIndex_build. unfold index_users, index_articles.
  generalize (filter is_published (articles_of w)) as arts.
  generalize (users_of w) as us.
  assert (Ha : forall arts idx, NoDup (JsMap.keys idx) ->
                 NoDup (JsMap.keys (fold_left (fun idx a => indexArticle a idx) arts idx))).
  { induction arts as [|a arts IH]; intros idx H; simpl; [exact H|].
    apply IH, NoDup_keys_indexArticle, H. }
  assert (Hu : forall us idx, NoDup (JsMap.keys idx) ->
                 NoDup (JsMap.keys (fold_left (fun idx u => indexUser u idx) us idx))).
  { induction us as [|u us IH]; intros idx H; simpl; [exact H|].
    apply IH, NoDup_keys_indexUser, H. }
  intros us arts. apply Hu, Ha. constructor.
Qed.

Lemma In_index_postings (word : jsstring) (ps : list Posting) (idx : SearchIndex) :
  NoDup (JsMap.keys idx) -> In (word, ps) idx -> postings_at word idx = ps.
Proof.
  intros Hnd Hin. unfold postings_at. rewrite (In_get _ _ _ Hnd Hin). reflexivity.
Qed.

(** ** The result map *)

Lemma N_sum_app (a b : list N) : N_sum (a ++ b) = N_sum a + N_sum b.
Proof. induction a as [|x a IH]; simpl; [reflexivity | rewrite IH; lia]. Qed.

Lemma get_accumulate (k : jsstring) (p : Posting) (w : N) (rm : JsMap.t ScoredResult) :
  JsMap.get k (accumulate p w rm) =
  if jsstring_eqb k (result_key p)
  then Some {| result := match JsMap.get (result_key p) rm with
                         | Some r => result r
                         | None => p
                         end;
               score := score_at (result_key p) rm + w |}
  else JsMap.get k rm.
Proof.
  unfold accumulate, score_at.
  destruct (JsMap.has (result_key p) rm) eqn:Hh.
  - apply has_get in Hh. destruct Hh as [r Hr]. rewrite Hr, get_set.
    destruct (jsstring_eqb k (result_key p)); reflexivity.
  - assert (Hn : JsMap.get (result_key p) rm = None).
    { unfold JsMap.has in Hh. destruct (JsMap.get (result_key p) rm);
        [discriminate|reflexivity]. }
    rewrite Hn, get_set_same, get_set. simpl.
    eqb_cases k (result_key p); [reflexivity|].
    apply get_set_other; assumption.
Qed.

Lemma score_at_accumulate (k : jsstring) (p : Posting) (w : N) (rm : JsMap.t ScoredResult) :
  score_at k (accumulate p w rm) =
  score_at k rm + (if jsstring_eqb (result_key p) k then w else 0).
Proof.
  unfold score_at at 1. rewrite get_accumulate, (jsstring_eqb_sym (result_key p) k).
  eqb_cases k (result_key p).
  - subst. reflexivity.
  - fold (score_at k rm). lia.
Qed.

Lemma keys_accumulate (p : Posting) (w : N) (rm : JsMap.t ScoredResult) :
  JsMap.keys (accumulate p w rm) =
  if JsMap.has (result_key p) rm then JsMap.keys rm else JsMap.keys rm ++ [result_key p].
Proof.
  unfold accumulate.
  destruct (JsMap.has (result_key p) rm) eqn:Hh.
  - pose proof Hh as Hh'. apply has_get in Hh'. destruct Hh' as [r Hr].
    rewrite Hr, keys_set, Hh. reflexivity.
  - rewrite get_set_same, keys_set.
    assert (Hs : JsMap.has (result_key p)
                   (JsMap.set (result_key p) {| result := p; score := 0 |} rm) = true).
    { apply has_get. eexists. apply get_set_same. }
    rewrite Hs, keys_set, Hh. reflexivity.
Qed.

Lemma has_keys {V} (k : jsstring) (m : JsMap.t V) :
  JsMap.has k m = true <-> In k (JsMap.keys m).
Proof.
  unfold JsMap.has. pose proof (get_None_keys k m) as H.
  destruct (JsMap.get k m).
  - split; [intros _|reflexivity].
    destruct (in_dec jsstring_eq_dec k (JsMap.keys m)) as [Hi|Hn]; [exact Hi|].
    apply H in Hn. discriminate.
  - split; [discriminate|]. intros Hi. exfalso. apply (proj1 H); auto.
Qed.

Lemma In_keys_accumulate (k : jsstring) (p : Posting) (w : N) (rm : JsMap.t ScoredResult) :
  In k (JsMap.keys (accumulate p w rm)) <-> In k (JsMap.keys rm) \/ k = result_key p.
Proof.
  rewrite keys_accumulate.
  destruct (JsMap.has (result_key p) rm) eqn:Hh.
  - apply has_keys in Hh. split; [auto|]. intros [H| ->]; assumption.
  - rewrite in_app_iff. simpl. split; intros [H|H]; auto.
    + destruct H as [<-|[]]; auto.
Qed.

Lemma NoDup_keys_accumulate (p : Posting) (w : N) (rm : JsMap.t ScoredResult) :
  NoDup (JsMap.keys rm) -> NoDup (JsMap.keys (accumulate p w rm)).
Proof.
  intros Hnd. rewrite keys_accumulate, <- (keys_set _ {| result := p; score := 0 |}).
  apply NoDup_keys_set, Hnd.
Qed.

Lemma well_keyed_accumulate (p : Posting) (w : N) (rm : JsMap.t ScoredResult) :
  well_keyed rm -> well_keyed (accumulate p w rm).
Proof.
  intros Hwk k r. rewrite get_accumulate.
  eqb_cases k (result_key p).
  - intros [= <-]. simpl. subst k.
    destruct (JsMap.get (result_key p) rm) as [r0|] eqn:Hr; [|reflexivity].
    apply Hwk in Hr. exact Hr.
  - apply Hwk.
Qed.

Section AccumulateAll.
Variable weight : Posting -> N.

Lemma score_at_accumulate_all k ps rm :
  score_at k (fold_left (fun rm p => accumulate p (weight p) rm) ps rm) = score_at k rm + doc_weight k weight ps.
Proof.
  unfold doc_weight. revert rm.
  induction ps as [|p ps IH]; intros rm; simpl; [lia|].
  rewrite IH, score_at_accumulate. lia.
Qed.

Lemma In_keys_accumulate_all k ps rm :
  In k (JsMap.keys (fold_left (fun rm p => accumulate p (weight p) rm) ps rm)) <->
  In k (JsMap.keys rm) \/ exists p, In p ps /\ result_key p = k.
Proof.
  revert rm.
  induction ps as [|p ps IH]; intros rm; simpl.
  - split; [auto | intros [H|[p [[] _]]]; exact H].
  - rewrite IH, In_keys_accumulate. split.
    + intros [[H| ->]|[p' [Hp' Hk]]]; eauto 6.
    + intros [H|[p' [[<-|Hp'] Hk]]]; eauto 6.
Qed.

Lemma NoDup_keys_accumulate_all ps rm :
  NoDup (JsMap.keys rm) -> NoDup (JsMap.keys (fold_left (fun rm p => accumulate p (weight p) rm) ps rm)).
Proof.
  revert rm.
  induction ps as [|p ps IH]; intros rm H; simpl; [exact H|].
  apply IH, NoDup_keys_accumulate, H.
Qed.

Lemma well_keyed_accumulate_all ps rm :
  well_keyed rm -> well_keyed (fold_left (fun rm p => accumulate p (weight p) rm) ps rm).
Proof.
  revert rm.
  induction ps as [|p ps IH]; intros rm H; simpl; [exact H|].
  apply IH, well_keyed_accumulate, H.
Qed.
End AccumulateAll.

(** ** The two phases of a query token *)

Lemma startsWith_refl (a : jsstring) : startsWith a a = true.
Proof. induction a as [|x a IH]; simpl; [reflexivity|]. rewrite N.eqb_refl; exact IH. Qed.

Lemma includes_refl (a : jsstring) : includes a a = true.
Proof. destruct a; simpl; [reflexivity|]. rewrite N.eqb_refl, startsWith_refl. reflexivity. Qed.

Lemma postings_at_In (word : jsstring) (idx : SearchIndex) (p : Posting) :
  NoDup (JsMap.keys idx) ->
  (In p (postings_at word idx) <-> exists ps, In (word, ps) idx /\ In p ps).
Proof.
  intros Hnd. unfold postings_at. split.
  - destruct (JsMap.get word idx) as [ps|] eqn:Hg; [|intros []].
    intros Hp. exists ps. split; [apply get_Some_In, Hg | exact Hp].
  - intros [ps [Hin Hp]]. rewrite (In_get _ _ _ Hnd Hin). exact Hp.
Qed.

Section Phases.
Variables (idx : SearchIndex) (word : jsstring).

Lemma exact_phase_fold rm :
  exact_phase idx word rm =
  fold_left (fun rm p => accumulate p (2 * relevance p) rm) (postings_at word idx) rm.
Proof.
  unfold exact_phase, postings_at, JsMap.has.
  destruct (JsMap.get word idx); reflexivity.
Qed.

Lemma score_at_exact_phase k rm :
  score_at k (exact_phase idx word rm) =
  score_at k rm + doc_weight k (fun p => 2 * relevance p) (postings_at word idx).
Proof. rewrite exact_phase_fold. apply score_at_accumulate_all. Qed.

Lemma In_keys_exact_phase k rm :
  In k (JsMap.keys (exact_phase idx word rm)) <->
  In k (JsMap.keys rm) \/ exists p, In p (postings_at word idx) /\ result_key p = k.
Proof. rewrite exact_phase_fold. apply In_keys_accumulate_all. Qed.

Lemma NoDup_keys_exact_phase rm :
  NoDup (JsMap.keys rm) -> NoDup (JsMap.keys (exact_phase idx word rm)).
Proof. rewrite exact_phase_fold. apply NoDup_keys_accumulate_all. Qed.

Lemma well_keyed_exact_phase rm : well_keyed rm -> well_keyed (exact_phase idx word rm).
Proof. rewrite exact_phase_fold. apply well_keyed_accumulate_all. Qed.

Lemma score_at_partial_phase k rm :
  score_at k (partial_phase idx word rm) =
  score_at k rm
  + N_sum (map (fun '(indexWord, ps) =>
                  if partial_match word indexWord then doc_weight k relevance ps else 0)
               idx).
Proof.
  unfold partial_phase, partial_match. revert rm.
  induction idx as [|[iw ps] idx' IH]; intros rm; simpl; [lia|].
  rewrite IH.
  destruct (includes iw word && negb (jsstring_eqb iw word)).
  - rewrite score_at_accumulate_all. lia.
  - lia.
Qed.

Lemma In_keys_partial_phase k rm :
  In k (JsMap.keys (partial_phase idx word rm)) <->
  In k (JsMap.keys rm) \/
  exists indexWord ps p,
    In (indexWord, ps) idx /\ partial_match word indexWord = true /\
    In p ps /\ result_key p = k.
Proof.
  unfold partial_phase, partial_match. revert rm.
  induction idx as [|[iw ps] idx' IH]; intros rm; simpl.
  - split; [auto|]. intros [H|[? [? [? [[] _]]]]]. exact H.
  - rewrite IH. destruct (includes iw word && negb (jsstring_eqb iw word)) eqn:Em.
    + rewrite In_keys_accumulate_all. split.
      * intros [[H|[p [Hp Hk]]]|[iw' [ps' [p [Hin H]]]]]; [auto| |].
        -- right. exists iw, ps, p. auto.
        -- right. exists iw', ps', p. auto.
      * intros [H|[iw' [ps' [p [[Heq|Hin] [Hm [Hp Hk]]]]]]]; [auto| |].
        -- injection Heq as <- <-. left; right. eauto.
        -- right. exists iw', ps', p. auto.
    + split.
      * intros [H|[iw' [ps' [p [Hin H]]]]]; [auto|].
        right. exists iw', ps', p. auto.
      * intros [H|[iw' [ps' [p [[Heq|Hin] [Hm [Hp Hk]]]]]]]; [auto| |].
        -- injection Heq as <- <-. congruence.
        -- right. exists iw', ps', p. auto.
Qed.

Lemma NoDup_keys_partial_phase rm :
  NoDup (JsMap.keys rm) -> NoDup (JsMap.keys (partial_phase idx word rm)).
Proof.
  unfold partial_phase. revert rm.
  induction idx as [|[iw ps] idx' IH]; intros rm H; simpl; [exact H|].
  apply IH. destruct (includes iw word && negb (jsstring_eqb iw word)); [|exact H].
  apply NoDup_keys_accumulate_all, H.
Qed.

Lemma well_keyed_partial_phase rm : well_keyed rm -> well_keyed (partial_phase idx word rm).
Proof.
  unfold partial_phase. revert rm.
  induction idx as [|[iw ps] idx' IH]; intros rm H; simpl; [exact H|].
  apply IH. destruct (includes iw word && negb (jsstring_eqb iw word)); [|exact H].
  apply well_keyed_accumulate_all, H.
Qed.
End Phases.

Lemma N_sum_map_add {A} (f g : A -> N) (l : list A) :
  N_sum (map (fun x => f x + g x) l) = N_sum (map f l) + N_sum (map g l).
Proof. induction l as [|x l IH]; simpl; [reflexivity | rewrite IH; lia]. Qed.

Lemma N_sum_map_zero {A} (f : A -> N) (l : list A) :
  (forall x, In x l -> f x = 0) -> N_sum (map f l) = 0.
Proof.
  induction l as [|x l IH]; simpl; intros H; [reflexivity|].
  rewrite H, IH by auto. reflexivity.
Qed.

(** With one entry per token, the sum over the entries under the query
    token itself is the weight of the postings stored under it. *)
Lemma exact_entries_sum (F : list Posting -> N) (word : jsstring) (idx : SearchIndex) :
  F [] = 0 -> NoDup (JsMap.keys idx) ->
  N_sum (map (fun '(indexWord, ps) => if jsstring_eqb indexWord word then F ps else 0) idx)
  = F (postings_at word idx).
Proof.
  intros HF. unfold postings_at.
  induction idx as [|[iw ps] idx' IH]; simpl; intros Hnd; [auto|].
  inversion Hnd as [|? ? Hni Hnd']; subst.
  rewrite (jsstring_eqb_sym word iw).
  eqb_cases iw word.
  - subst. rewrite N_sum_map_zero; [lia|].
    intros [iw' ps'] Hin. eqb_cases iw' word; [|reflexivity].
    subst. exfalso. apply Hni. apply (in_map fst) in Hin. exact Hin.
  - rewrite IH by assumption. reflexivity.
Qed.

Lemma doc_weight_nil k f : doc_weight k f [] = 0.
Proof. reflexivity. Qed.

Lemma token_contribution_split (idx : SearchIndex) (word k : jsstring) :
  NoDup (JsMap.keys idx) ->
  token_contribution idx word k =
  doc_weight k (fun p => 2 * relevance p) (postings_at word idx)
  + N_sum (map (fun '(indexWord, ps) =>
                  if partial_match word indexWord then doc_weight k relevance ps else 0)
               idx).
Proof.
  intros Hnd.
  rewrite <- (exact_entries_sum (doc_weight k (fun p => 2 * relevance p)) word idx
                (doc_weight_nil _ _) Hnd).
  rewrite <- N_sum_map_add. unfold token_contribution. f_equal.
  apply map_ext. intros [iw ps]. unfold partial_match.
  destruct (jsstring_eqb iw word), (includes iw word); simpl; lia.
Qed.

Lemma score_at_score_word idx rm word k :
  NoDup (JsMap.keys idx) ->
  score_at k (score_word idx rm word) = score_at k rm + token_contribution idx word k.
Proof.
  intros Hnd. unfold score_word.
  rewrite score_at_partial_phase, score_at_exact_phase, token_contribution_split by exact Hnd.
  lia.
Qed.

Lemma In_keys_score_word idx rm word k :
  NoDup (JsMap.keys idx) ->
  In k (JsMap.keys (score_word idx rm word)) <->
  In k (JsMap.keys rm) \/
  exists indexWord ps p,
    In (indexWord, ps) idx /\ includes indexWord word = true /\
    In p ps /\ result_key p = k.
Proof.
  intros Hnd. unfold score_word.
  rewrite In_keys_partial_phase, In_keys_exact_phase. split.
  - intros [[H|[p [Hp Hk]]]|[iw [ps [p [Hin [Hm H]]]]]]; [auto| |].
    + apply postings_at_In in Hp; [|exact Hnd]. destruct Hp as [ps [Hin Hp]].
      right. exists word, ps, p. rewrite includes_refl. auto.
    + right. exists iw, ps, p. unfold partial_match in Hm.
      apply andb_true_iff in Hm. tauto.
  - intros [H|[iw [ps [p [Hin [Hm [Hp Hk]]]]]]]; [auto|].
    eqb_cases iw word.
    + subst iw. left; right. exists p. split; [|exact Hk].
      apply postings_at_In; eauto.
    + right. exists iw, ps, p. unfold partial_match.
      apply jsstring_eqb_neq in E. rewrite Hm, E. auto.
Qed.

Lemma score_words_fold idx words :
  score_words idx words = fold_left (score_word idx) words JsMap.empty.
Proof. reflexivity. Qed.

Section ScoreWords.
Variable idx : SearchIndex.
Hypothesis idx_keys : NoDup (JsMap.keys idx).

Lemma score_at_fold_words k words rm :
  score_at k (fold_left (score_word idx) words rm) =
  score_at k rm + N_sum (map (fun word => token_contribution idx word k) words).
Proof.
  revert rm. induction words as [|w words IH]; intros rm; simpl; [lia|].
  rewrite IH, score_at_score_word by exact idx_keys. lia.
Qed.

Lemma In_keys_fold_words k words rm :
  In k (JsMap.keys (fold_left (score_word idx) words rm)) <->
  In k (JsMap.keys rm) \/
  exists word indexWord ps p,
    In word words /\ In (indexWord, ps) idx /\ includes indexWord word = true /\
    In p ps /\ result_key p = k.
Proof.
  revert rm. induction words as [|w words IH]; intros rm; simpl.
  - split; [auto|]. intros [H|[? [? [? [? [[] _]]]]]]. exact H.
  - rewrite IH, In_keys_score_word by exact idx_keys. split.
    + intros [[H|[iw [ps [p H]]]]|[w' [iw [ps [p [Hw H]]]]]]; [auto| |].
      * right. exists w, iw, ps, p. tauto.
      * right. exists w', iw, ps, p. tauto.
    + intros [H|[w' [iw [ps [p [[<-|Hw] H]]]]]]; [auto| |].
      * left; right. exists iw, ps, p. exact H.
      * right. exists w', iw, ps, p. tauto.
Qed.

Lemma NoDup_keys_fold_words words rm :
  NoDup (JsMap.keys rm) -> NoDup (JsMap.keys (fold_left (score_word idx) words rm)).
Proof.
  revert rm. induction words as [|w words IH]; intros rm H; simpl; [exact H|].
  apply IH, NoDup_keys_partial_phase, NoDup_keys_exact_phase, H.
Qed.

Lemma well_keyed_fold_words words rm :
  well_keyed rm -> well_keyed (fold_left (score_word idx) words rm).
Proof.
  revert rm. induction words as [|w words IH]; intros rm H; simpl; [exact H|].
  apply IH, well_keyed_partial_phase, well_keyed_exact_phase, H.
Qed.

Lemma score_at_score_words k q :
  score_at k (score_words idx (extractWords q)) = expected_score idx q k.
Proof. rewrite score_words_fold, score_at_fold_words. reflexivity. Qed.

Lemma In_keys_score_words k q :
  In k (JsMap.keys (score_words idx (extractWords q))) <->
  exists p, In p (matched_postings idx q) /\ result_key p = k.
Proof.
  rewrite score_words_fold, In_keys_fold_words. unfold matched_postings. split.
  - intros [[]|[w [iw [ps [p [Hw [Hin [Hm [Hp Hk]]]]]]]]].
    exists p. split; [|exact Hk].
    apply in_flat_map. exists w. split; [exact Hw|].
    apply in_flat_map. exists (iw, ps). rewrite Hm. auto.
  - intros [p [Hp Hk]]. right.
    apply in_flat_map in Hp. destruct Hp as [w [Hw Hp]].
    apply in_flat_map in Hp. destruct Hp as [[iw ps] [Hin Hp]].
    destruct (includes iw w) eqn:Hm; [|destruct Hp].
    exists w, iw, ps, p. auto.
Qed.

Lemma NoDup_keys_score_words words : NoDup (JsMap.keys (score_words idx words)).
Proof. rewrite score_words_fold. apply NoDup_keys_fold_words. constructor. Qed.

Lemma well_keyed_score_words words : well_keyed (score_words idx words).
Proof.
  rewrite score_words_fold. apply well_keyed_fold_words.
  intros k r H. discriminate H.
Qed.

(** A result listed by the map carries the expected score of its document. *)
Lemma score_of_listed_result q r :
  In r (JsMap.values (score_words idx (extractWords q))) ->
  score r = expected_score idx q (result_key (result r)).
Proof.
  intros Hin. unfold JsMap.values in Hin. apply in_map_iff in Hin.
  destruct Hin as [[k r'] [Heq Hin]]. simpl in Heq. subst r'.
  apply In_get in Hin; [|apply NoDup_keys_score_words].
  pose proof (well_keyed_score_words _ _ _ Hin) as Hk. subst k.
  rewrite <- score_at_score_words. unfold score_at. rewrite Hin. reflexivity.
Qed.
End ScoreWords.

(** ** Documents and keys *)

Lemma result_key_ref (p : Posting) : result_key p = key_of_ref (doc_ref p).
Proof. reflexivity. Qed.

Lemma key_of_ref_inj (d d' : DocType * jsstring) :
  key_of_ref d = key_of_ref d' -> d = d'.
Proof.
  destruct d as [t i], d' as [t' i']. unfold key_of_ref. simpl.
  destruct t, t'; simpl; intros H; try discriminate H;
    injection H as ->; reflexivity.
Qed.

Lemma result_key_inj (p p' : Posting) :
  result_key p = result_key p' <-> type p = type p' /\ id p = id p'.
Proof.
  rewrite !result_key_ref. split.
  - intros H. apply key_of_ref_inj in H. unfold doc_ref in H.
    injection H as H1 H2. auto.
  - intros [H1 H2]. unfold doc_ref. rewrite H1, H2. reflexivity.
Qed.

Lemma keys_of_well_keyed (rm : JsMap.t ScoredResult) :
  NoDup (JsMap.keys rm) -> well_keyed rm ->
  JsMap.keys rm = map (fun r => result_key (result r)) (JsMap.values rm).
Proof.
  intros Hnd Hwk.
  assert (Hall : Forall (fun e => fst e = result_key (result (snd e))) rm).
  { apply Forall_forall. intros [k r] Hin. simpl.
    apply Hwk. apply In_get; assumption. }
  clear Hnd Hwk. unfold JsMap.keys, JsMap.values.
  induction Hall as [|e rm' He _ IH]; simpl; [reflexivity|].
  rewrite He, IH. reflexivity.
Qed.

Lemma In_distinct_docs d ps : In d (distinct_docs ps) <-> exists p, In p ps /\ doc_ref p = d.
Proof.
  unfold distinct_docs. rewrite nodup_In, in_map_iff.
  split; intros [p [H1 H2]]; exists p; auto.
Qed.

(** The documents of the result map are the distinct documents the
    query reaches, each once. *)
Lemma result_docs_perm (idx : SearchIndex) (q : jsstring) :
  NoDup (JsMap.keys idx) ->
  Permutation
    (map (fun r => doc_ref (result r)) (JsMap.values (score_words idx (extractWords q))))
    (distinct_docs (matched_postings idx q)).
Proof.
  intros Hnd.
  pose proof (NoDup_keys_score_words idx (extractWords q)) as Hk.
  pose proof (well_keyed_score_words idx (extractWords q)) as Hwk.
  pose proof (keys_of_well_keyed _ Hk Hwk) as Hkeys.
  set (rm := score_words idx (extractWords q)) in *.
  assert (Hmap : JsMap.keys rm =
                 map key_of_ref (map (fun r => doc_ref (result r)) (JsMap.values rm))).
  { rewrite Hkeys, map_map. reflexivity. }
  apply NoDup_Permutation.
  - rewrite Hmap in Hk. apply NoDup_map_inv in Hk. exact Hk.
  - apply NoDup_nodup.
  - intros d. rewrite In_distinct_docs.
    pose proof (In_keys_score_words idx Hnd (key_of_ref d) q) as Hiff.
    fold rm in Hiff. rewrite Hmap in Hiff. split.
    + intros Hd. apply (in_map key_of_ref) in Hd. apply Hiff in Hd.
      destruct Hd as [p [Hp Hkp]]. exists p. split; [exact Hp|].
      rewrite result_key_ref in Hkp. apply key_of_ref_inj, Hkp.
    + intros [p [Hp Hd]].
      assert (Hin : In (key_of_ref d)
                       (map key_of_ref (map (fun r => doc_ref (result r)) (JsMap.values rm)))).
      { apply Hiff. exists p. rewrite result_key_ref, Hd. auto. }
      apply in_map_iff in Hin. destruct Hin as [d' [Heq Hd']].
      apply key_of_ref_inj in Heq. subst d'. exact Hd'.
Qed.

Lemma is_type_article r : is_type article r = true <-> type (result r) = article.
Proof. unfold is_type. destruct (type (result r)); split; congruence. Qed.

Lemma is_type_author r : is_type author r = true <-> type (result r) = author.
Proof. unfold is_type. destruct (type (result r)); split; congruence. Qed.

Lemma filter_types_perm (l : list ScoredResult) :
  Permutation l (filter (is_type article) l ++ filter (is_type author) l).
Proof.
  induction l as [|r l IH]; simpl; [reflexivity|].
  assert (Hr : (is_type article r = true /\ is_type author r = false) \/
               (is_type article r = false /\ is_type author r = true)).
  { unfold is_type. destruct (type (result r)); auto. }
  destruct Hr as [[-> ->]|[-> ->]]; simpl.
  - constructor. exact IH.
  - rewrite IH at 1. apply Permutation_middle.
Qed.

Lemma by_score_desc_key (x y : ScoredResult) :
  (by_score_desc x y <= 0)%Z <-> (Z.of_N (score y) <= Z.of_N (score x))%Z.
Proof. unfold by_score_desc. lia. Qed.

Lemma StronglySorted_impl {A} (R R' : A -> A -> Prop) (l : list A) :
  (forall x y, R x y -> R' x y) -> StronglySorted R l -> StronglySorted R' l.
Proof.
  intros HR. induction 1 as [|x l Hs IH Hall]; constructor; [exact IH|].
  eapply Forall_impl; [|exact Hall]. auto.
Qed.

Lemma ranked_sorted (idx : SearchIndex) (q : jsstring) :
  StronglySorted (fun a b => score b <= score a) (ranked idx q).
Proof.
  unfold ranked.
  eapply StronglySorted_impl;
    [|apply (array_sort_sorted by_score_desc (fun r => Z.of_N (score r)) by_score_desc_key)].
  unfold descending. intros x y H. lia.
Qed.

Lemma ranked_perm (idx : SearchIndex) (q : jsstring) :
  Permutation (ranked idx q) (JsMap.values (score_words idx (extractWords q))).
Proof. apply array_sort_perm. Qed.

Lemma searchInIndex_fields (idx : SearchIndex) (q : jsstring) :
  articles (searchInIndex idx q) = slice0 20 (filter (is_type article) (ranked idx q)) /\
  authors (searchInIndex idx q) = slice0 10 (filter (is_type author) (ranked idx q)) /\
  total (searchInIndex idx q) =
    (List.length (filter (is_type article) (ranked idx q))
     + List.length (filter (is_type author) (ranked idx q)))%nat /\
  query (searchInIndex idx q) = Some q.
Proof. repeat split. Qed.

Lemma In_results_ranked idx q r :
  In r (articles (searchInIndex idx q) ++ authors (searchInIndex idx q)) ->
  In r (JsMap.values (score_words idx (extractWords q))).
Proof.
  intros H. apply (Permutation_in _ (ranked_perm idx q)).
  destruct (searchInIndex_fields idx q) as [Ha [Hb _]]. rewrite Ha, Hb in H.
  apply in_app_iff in H. unfold slice0 in H.
  destruct H as [H|H]; apply In_firstn in H; apply filter_In in H; tauto.
Qed.

(** ** Scoring and ranking of a query *)

(** C1: for a built index and any query, the score a document has
    accumulated (counted in halves) is the sum, over the query tokens, of
    the full weight of every posting of that document stored under the
    token itself plus half the weight of every posting of that document
    stored under any other index token containing the token; this holds
    for the result map and for every result returned, and two postings
    share a key exactly when they agree on type and id. *)
Theorem searchInIndex_accumulates_scores (w : Managers) (s : SearchManager) (q : jsstring) :
  let idx := searchIndex (buildSearchIndex w s) in
  (forall k, score_at k (score_words idx (extractWords q)) = expected_score idx q k) /\
  (forall r, In r (articles (searchInIndex idx q) ++ authors (searchInIndex idx q)) ->
             score r = expected_score idx q (result_key (result r))) /\
  (forall p p', result_key p = result_key p' <-> type p = type p' /\ id p = id p').
Proof.
  intros idx. pose proof (NoDup_keys_build w s) as Hnd. fold idx in Hnd.
  split; [|split].
  - intros k. apply score_at_score_words, Hnd.
  - intros r Hr. apply score_of_listed_result; [exact Hnd|].
    apply In_results_ranked, Hr.
  - apply result_key_inj.
Qed.

Lemma searchInIndex_accumulates_scores_witness :
  let r := {| result := article_posting (js "митинг") rally_report; score := 16 |} in
  In r (articles (searchInIndex rally_index (js "митинг"))
        ++ authors (searchInIndex rally_index (js "митинг"))) /\
  score r = expected_score rally_index (js "митинг") (result_key (result r)).
Proof.
  intros r.
  assert (Hin : In r (articles (searchInIndex rally_index (js "митинг"))
                      ++ authors (searchInIndex rally_index (js "митинг")))).
  { vm_compute. left. reflexivity. }
  split; [exact Hin|].
  exact (proj1 (proj2 (searchInIndex_accumulates_scores
                         rally_managers new_SearchManager (js "митинг"))) r Hin).
Defined.

Lemma thirty_articles_truncated :
  let res := searchInIndex (searchIndex (buildSearchIndex thirty_managers new_SearchManager))
                           (js "газеты") in
  List.length (articles res) = 20%nat /\ List.length (authors res) = 0%nat /\
  total res = 30%nat.
Proof. vm_compute. auto. Qed.

(** C2: for a built index and any query, the ranked documents are the
    distinct matched documents, each once, split by type into articles
    and authors; the returned slices are the first 20 articles and the
    first 10 authors, each in descending order of score; and the total is
    the number of distinct matched documents, that is the full article
    count plus the full author count, before truncation. *)
Theorem searchInIndex_partitions_and_truncates
        (w : Managers) (s : SearchManager) (q : jsstring) :
  let idx := searchIndex (buildSearchIndex w s) in
  let res := searchInIndex idx q in
  let all_articles := filter (is_type article) (ranked idx q) in
  let all_authors := filter (is_type author) (ranked idx q) in
  Permutation (map (fun r => doc_ref (result r)) (ranked idx q))
              (distinct_docs (matched_postings idx q)) /\
  Permutation (ranked idx q) (all_articles ++ all_authors) /\
  Forall (fun r => type (result r) = article) all_articles /\
  Forall (fun r => type (result r) = author) all_authors /\
  articles res = firstn 20 all_articles /\
  authors res = firstn 10 all_authors /\
  StronglySorted (fun a b => score b <= score a) (articles res) /\
  StronglySorted (fun a b => score b <= score a) (authors res) /\
  (List.length (articles res) <= 20)%nat /\
  (List.length (authors res) <= 10)%nat /\
  total res = List.length (distinct_docs (matched_postings idx q)) /\
  total res = (List.length all_articles + List.length all_authors)%nat.
Proof.
  intros idx res all_articles all_authors.
  pose proof (NoDup_keys_build w s) as Hnd. fold idx in Hnd.
  assert (Hdocs : Permutation (map (fun r => doc_ref (result r)) (ranked idx q))
                              (distinct_docs (matched_postings idx q))).
  { rewrite (ranked_perm idx q). apply result_docs_perm, Hnd. }
  assert (Hparts : Permutation (ranked idx q) (all_articles ++ all_authors)).
  { apply filter_types_perm. }
  destruct (searchInIndex_fields idx q) as [Ha [Hb [Ht _]]].
  fold res all_articles in Ha. fold res all_authors in Hb.
  fold res all_articles all_authors in Ht.
  split; [exact Hdocs|]. split; [exact Hparts|].
  split.
  { apply Forall_forall. intros r Hr. apply filter_In in Hr. apply is_type_article, Hr. }
  split.
  { apply Forall_forall. intros r Hr. apply filter_In in Hr. apply is_type_author, Hr. }
  split; [exact Ha|]. split; [exact Hb|].
  split.
  { rewrite Ha. apply StronglySorted_firstn, StronglySorted_filter, ranked_sorted. }
  split.
  { rewrite Hb. apply StronglySorted_firstn, StronglySorted_filter, ranked_sorted. }
  split; [rewrite Ha; apply firstn_le_length|].
  split; [rewrite Hb; apply firstn_le_length|].
  split; [|exact Ht].
  rewrite Ht, <- length_app, <- (Permutation_length Hparts),
    <- (Permutation_length Hdocs), length_map. reflexivity.
Qed.

(** ** Token properties *)

(** C5 (as stated, refuted): the underscore is kept by the character
    class, so a token need not consist of Latin or Cyrillic letters and
    digits only. *)
Lemma extractWords_keeps_underscore :
  ~ (forall text word,
        In word (extractWords text) ->
        (2 <= List.length word)%nat /\
        Forall (fun c => latin_or_cyrillic_alnum c = true) word).
Proof.
  intros H.
  destruct (H (js "snake_case") (js "snake_case")) as [_ Hall].
  - vm_compute. left. reflexivity.
  - rewrite Forall_forall in Hall.
    specialize (Hall 0x5F). vm_compute in Hall.
    assert (Hf : false = true) by (apply Hall; do 5 right; left; reflexivity).
    discriminate Hf.
Qed.

(** Cyrillic letters outside а..я and ё are separators, too. *)
Lemma extractWords_splits_at_other_cyrillic :
  extractWords (js "Київ") = [js "ки"].
Proof. vm_compute. reflexivity. Qed.

(** C5 (amended): every token produced from any text has at least two
    code units, each of them one of [a-z], [0-9], [_], а..я, ё or
    U+1C80..U+1C86, none of them white space, and lower-casing leaves
    the token unchanged. *)
Theorem extractWords_tokens (text word : jsstring) :
  In word (extractWords text) ->
  (2 <= List.length word)%nat /\
  Forall (fun c => token_unit c = true /\ is_space c = false) word /\
  toLowerCase word = word.
Proof.
  intros Hin. pose proof (extractWords_token_units text word Hin) as Hunits.
  pose proof Hin as Hin'. apply extractWords_In in Hin'. destruct Hin' as [Hsplit Hlen].
  split; [exact Hlen|]. split.
  - apply split_ws_units in Hsplit. rewrite Forall_forall in *.
    intros c Hc. split; [apply Hunits, Hc | apply Hsplit, Hc].
  - clear Hin Hsplit Hlen. unfold toLowerCase.
    induction Hunits as [|c word' Hc _ IH]; simpl; [reflexivity|].
    rewrite (token_unit_lower c Hc), IH. reflexivity.
Qed.

Lemma extractWords_tokens_witness :
  In (js "мир_2") (extractWords (js "Привет, Мир_2!")) /\
  ((2 <= List.length (js "мир_2"))%nat /\
   Forall (fun c => token_unit c = true /\ is_space c = false) (js "мир_2") /\
   toLowerCase (js "мир_2") = js "мир_2").
Proof.
  assert (Hin : In (js "мир_2") (extractWords (js "Привет, Мир_2!"))).
  { vm_compute. right. left. reflexivity. }
  split; [exact Hin|].
  exact (extractWords_tokens (js "Привет, Мир_2!") (js "мир_2") Hin).
Defined.

(** ** Posting weights *)

Lemma calculateWordRelevance_rule (word : jsstring) (a : Article.t) :
  calculateWordRelevance word a =
  weight_rule word (Article.title a) (Article.lead a) (Article.tags a).
Proof.
  unfold calculateWordRelevance, weight_rule.
  destruct (includes (toLowerCase (Article.title a)) word),
    (includes (toLowerCase (Article.lead a)) word),
    (existsb (fun tag => includes (toLowerCase tag) word) (Article.tags a));
    reflexivity.
Qed.

(** C3 (as stated, refuted): an author whose bio holds the token still
    gets weight 1, where the rule applied through the bio gives 3. *)
Lemma indexUser_weight_ignores_bio :
  In (js "поэт") (user_words poet) /\
  postings_at (js "поэт") (indexUser poet JsMap.empty) = [user_posting poet] /\
  relevance (user_posting poet) = 1 /\
  weight_rule (js "поэт") [] (bio_or_empty poet) [] = 3.
Proof. vm_compute. repeat split. right. right. left. reflexivity. Qed.

(** C3 (amended): in a built index every posting of an article stored
    under a token is that of a published article of the snapshot and
    weighs 1, plus 3 if the token occurs in the lower-cased title, plus 2
    if it occurs in the lower-cased lead, plus 2 if it occurs in some
    lower-cased tag, the bonuses adding up; every posting of an author
    weighs 1, whatever the bio holds. *)
Theorem posting_weights (w : Managers) (s : SearchManager)
        (word : jsstring) (ps : list Posting) (p : Posting) :
  In (word, ps) (searchIndex (buildSearchIndex w s)) -> In p ps ->
  (exists a, In a (articles_of w) /\ is_published a = true /\
             p = article_posting word a /\ type p = article /\
             relevance p =
             weight_rule word (Article.title a) (Article.lead a) (Article.tags a))
  \/
  (exists u, In u (users_of w) /\ p = user_posting u /\ type p = author /\
             relevance p = 1).
Proof.
  intros Hin Hp.
  apply (In_index_postings _ _ _ (NoDup_keys_build w s)) in Hin.
  rewrite <- Hin, postings_at_build in Hp.
  apply in_app_iff in Hp. destruct Hp as [Hp|Hp];
    apply in_flat_map in Hp; destruct Hp as [d [Hd Hp]];
    apply repeat_spec in Hp; subst p.
  - left. exists d. apply filter_In in Hd. destruct Hd as [Hd Hpub].
    repeat split; try assumption. simpl. apply calculateWordRelevance_rule.
  - right. exists d. repeat split. exact Hd.
Qed.

Lemma posting_weights_witness :
  In (js "митинг", postings_at (js "митинг") rally_index) rally_index /\
  In (article_posting (js "митинг") rally_report) (postings_at (js "митинг") rally_index) /\
  ((exists a, In a (articles_of rally_managers) /\ is_published a = true /\
              article_posting (js "митинг") rally_report = article_posting (js "митинг") a /\
              type (article_posting (js "митинг") rally_report) = article /\
              relevance (article_posting (js "митинг") rally_report) =
              weight_rule (js "митинг") (Article.title a) (Article.lead a) (Article.tags a))
   \/
   (exists u, In u (users_of rally_managers) /\
              article_posting (js "митинг") rally_report = user_posting u /\
              type (article_posting (js "митинг") rally_report) = author /\
              relevance (article_posting (js "митинг") rally_report) = 1)).
Proof.
  assert (H1 : In (js "митинг", postings_at (js "митинг") rally_index) rally_index).
  { vm_compute. do 2 right. left. reflexivity. }
  assert (H2 : In (article_posting (js "митинг") rally_report)
                  (postings_at (js "митинг") rally_index)).
  { vm_compute. left. reflexivity. }
  split; [exact H1|]. split; [exact H2|].
  exact (posting_weights rally_managers new_SearchManager (js "митинг")
           (postings_at (js "митинг") rally_index)
           (article_posting (js "митинг") rally_report) H1 H2).
Defined.

(** ** One posting per occurrence *)

Lemma doc_weight_repeat (p : Posting) (f : Posting -> N) (n : nat) :
  doc_weight (result_key p) f (repeat p n) = N.of_nat n * f p.
Proof.
  unfold doc_weight. induction n as [|n IH]; [reflexivity|].
  cbn [repeat map N_sum fold_right]. fold (N_sum (map
    (fun p0 => if jsstring_eqb (result_key p0) (result_key p) then f p0 else 0)
    (repeat p n))).
  rewrite IH, jsstring_eqb_refl. lia.
Qed.

(** C4 (as stated, refuted): the demo article of utils.js holds the
    token three times (title, body and tag), and the index holds three
    postings for that one (token, document) pair; the query score is
    three times the weight. *)
Lemma demo_article_repeated_token :
  occurrences (js "добро") (article_words demo_article) = 3%nat /\
  postings_at (js "добро") demo_index =
    [article_posting (js "добро") demo_article;
     article_posting (js "добро") demo_article;
     article_posting (js "добро") demo_article] /\
  relevance (article_posting (js "добро") demo_article) = 6 /\
  map score (articles (searchInIndex demo_index (js "добро"))) = [3 * (2 * 6)].
Proof. vm_compute. repeat split. Qed.

(** C4 (amended): indexing a document appends, under each token, one
    posting per occurrence of the token in the document's token
    sequence, all with the same weight, and none under a token the
    document does not produce; a built index holds exactly these
    postings, published articles first, then users; and a token
    occurring [n] times in an article contributes [n] times its full
    weight to that article's score for the token. *)
Theorem indexing_pushes_per_occurrence
        (word : jsstring) (a : Article.t) (u : User.t) (idx : SearchIndex)
        (w : Managers) (s : SearchManager) :
  postings_at word (indexArticle a idx) =
    postings_at word idx
    ++ repeat (article_posting word a) (occurrences word (article_words a)) /\
  postings_at word (indexUser u idx) =
    postings_at word idx
    ++ repeat (user_posting u) (occurrences word (user_words u)) /\
  postings_at word (searchIndex (buildSearchIndex w s)) =
    flat_map (fun a => repeat (article_posting word a)
                              (occurrences word (article_words a)))
             (filter is_published (articles_of w))
    ++ flat_map (fun u => repeat (user_posting u) (occurrences word (user_words u)))
                (users_of w) /\
  score_at (result_key (article_posting word a))
           (exact_phase (indexArticle a JsMap.empty) word JsMap.empty) =
    N.of_nat (occurrences word (article_words a)) * (2 * calculateWordRelevance word a).
Proof.
  split; [apply postings_at_indexArticle|].
  split; [apply postings_at_indexUser|].
  split; [apply postings_at_build|].
  rewrite score_at_exact_phase, postings_at_indexArticle. simpl.
  rewrite (doc_weight_repeat (article_posting word a) (fun p => 2 * relevance p)).
  reflexivity.
Qed.

(** ** Counting maps *)

Lemma count_at_count_up (k k' : jsstring) (counts : JsMap.t N) :
  count_at k (count_up k' counts) =
  count_at k counts + (if jsstring_eqb k k' then 1 else 0).
Proof.
  unfold count_at, count_up. rewrite get_set.
  eqb_cases k k'; [subst; reflexivity | lia].
Qed.

Lemma keys_count_up (k : jsstring) (counts : JsMap.t N) :
  JsMap.keys (count_up k counts) =
  if JsMap.has k counts then JsMap.keys counts else JsMap.keys counts ++ [k].
Proof. unfold count_up. apply keys_set. Qed.

Section CountFold.
Lemma count_at_fold k l counts :
  count_at k (fold_left (fun counts k => count_up k counts) l counts) = count_at k counts + N.of_nat (occurrences k l).
Proof.
  unfold occurrences. revert counts.
  induction l as [|x l IH]; intros counts; simpl; [lia|].
  rewrite IH, count_at_count_up. destruct (jsstring_eqb k x); simpl; lia.
Qed.

Lemma In_keys_count_fold k l counts :
  In k (JsMap.keys (fold_left (fun counts k => count_up k counts) l counts)) <-> In k (JsMap.keys counts) \/ In k l.
Proof.
  revert counts.
  induction l as [|x l IH]; intros counts; simpl; [tauto|].
  rewrite IH, keys_count_up.
  destruct (JsMap.has x counts) eqn:Hh.
  - apply has_keys in Hh. split; [tauto|]. intros [H|[<-|H]]; auto.
  - rewrite in_app_iff. simpl. tauto.
Qed.

Lemma NoDup_keys_count_fold l counts :
  NoDup (JsMap.keys counts) -> NoDup (JsMap.keys (fold_left (fun counts k => count_up k counts) l counts)).
Proof.
  revert counts.
  induction l as [|x l IH]; intros counts H; simpl; [exact H|].
  apply IH. unfold count_up. apply NoDup_keys_set, H.
Qed.
End CountFold.

Lemma count_at_count_all k l : count_at k (count_all l) = N.of_nat (occurrences k l).
Proof. unfold count_all. rewrite count_at_fold. reflexivity. Qed.

Lemma In_keys_count_all k l : In k (JsMap.keys (count_all l)) <-> In k l.
Proof. unfold count_all. rewrite In_keys_count_fold. simpl. tauto. Qed.

Lemma NoDup_keys_count_all l : NoDup (JsMap.keys (count_all l)).
Proof. unfold count_all. apply NoDup_keys_count_fold. constructor. Qed.

Lemma In_count_all k n l :
  In (k, n) (count_all l) <-> In k l /\ n = N.of_nat (occurrences k l).
Proof.
  split.
  - intros Hin. split.
    + apply In_keys_count_all. apply (in_map fst) in Hin. exact Hin.
    + apply In_get in Hin; [|apply NoDup_keys_count_all].
      rewrite <- count_at_count_all. unfold count_at. rewrite Hin. reflexivity.
  - intros [Hk ->]. apply In_keys_count_all in Hk.
    destruct (JsMap.get k (count_all l)) as [n|] eqn:Hg.
    + pose proof (count_at_count_all k l) as Hc. unfold count_at in Hc.
      rewrite Hg in Hc. subst n. apply get_Some_In, Hg.
    + apply get_None_keys in Hg. contradiction.
Qed.

Lemma fold_left_flat_map {A B C} (f : C -> B -> C) (g : A -> list B) (l : list A) (c : C) :
  fold_left (fun acc a => fold_left f (g a) acc) l c = fold_left f (flat_map g l) c.
Proof.
  revert c. induction l as [|a l IH]; intros c; simpl; [reflexivity|].
  rewrite fold_left_app. apply IH.
Qed.

Lemma fold_left_map {A B C} (f : C -> B -> C) (g : A -> B) (l : list A) (c : C) :
  fold_left (fun acc a => f acc (g a)) l c = fold_left f (map g l) c.
Proof. revert c. induction l as [|a l IH]; intros c; simpl; auto. Qed.

Lemma fold_left_pointwise {A B} (f g : B -> A -> B) (l : list A) (b : B) :
  (forall acc x, f acc x = g acc x) -> fold_left f l b = fold_left g l b.
Proof.
  intros H. revert b. induction l as [|a l IH]; intros b; simpl; [reflexivity|].
  rewrite H. apply IH.
Qed.

Lemma getPopularTags_counts (w : Managers) :
  getPopularTags w = map fst (slice0 5 (array_sort by_count_desc (tagCounts w))).
Proof.
  unfold getPopularTags, tagCounts, count_all, published_tags.
  do 3 f_equal.
  rewrite (fold_left_filter
             (fun counts a => fold_left (fun counts tag =>
                                           count_up (Unicode.toLowerCase tag) counts)
                                        (Article.tags a) counts)).
  rewrite <- fold_left_flat_map. apply fold_left_pointwise. intros counts a.
  apply (fold_left_map (fun counts k => count_up k counts) Unicode.toLowerCase).
Qed.

Lemma getPopularSearchTerms_counts (history : list HistoryItem) :
  getPopularSearchTerms history =
  map (fun '(t, n) =>
         {| sg_type := term; text := t; icon := js "fas fa-search"; count := Some n |})
      (slice0 10 (array_sort by_count_desc (termCounts history))).
Proof.
  unfold getPopularSearchTerms, termCounts, count_all, history_terms.
  do 3 f_equal.
  apply (fold_left_flat_map (fun counts word => count_up word counts)
                            (fun item => extractWords (h_query item))).
Qed.

(** ** Where the postings of a built index come from *)

Lemma built_posting_origin (w : Managers) (s : SearchManager)
      (word : jsstring) (ps : list Posting) (p : Posting) :
  In (word, ps) (searchIndex (buildSearchIndex w s)) -> In p ps ->
  (exists a, In a (articles_of w) /\ is_published a = true /\ p = article_posting word a)
  \/ (exists u, In u (users_of w) /\ p = user_posting u).
Proof.
  intros Hin Hp.
  apply (In_index_postings _ _ _ (NoDup_keys_build w s)) in Hin.
  rewrite <- Hin, postings_at_build in Hp.
  apply in_app_iff in Hp. destruct Hp as [Hp|Hp];
    apply in_flat_map in Hp; destruct Hp as [d [Hd Hp]];
    apply repeat_spec in Hp; subst p.
  - left. exists d. apply filter_In in Hd. tauto.
  - right. exists d. auto.
Qed.

Lemma is_published_status (a : Article.t) :
  is_published a = true <-> Article.status a = ARTICLE_STATUS.PUBLISHED.
Proof. apply jsstring_eqb_eq. Qed.

Lemma filter_idem {A} (f : A -> bool) (l : list A) : filter f (filter f l) = filter f l.
Proof.
  induction l as [|x l IH]; simpl; [reflexivity|].
  destruct (f x) eqn:E; simpl; [rewrite E, IH|]; auto.
Qed.

Lemma articles_of_published_only (w : Managers) :
  filter is_published (articles_of (published_only w)) =
  filter is_published (articles_of w).
Proof. unfold published_only, articles_of at 1. simpl. apply filter_idem. Qed.

Lemma build_published_only (w : Managers) (s : SearchManager) :
  buildSearchIndex w s = buildSearchIndex (published_only w) s.
Proof.
  assert (Hidx : searchIndex (buildSearchIndex w s) =
                 searchIndex (buildSearchIndex (published_only w) s)).
  { rewrite !searchIndex_build, articles_of_published_only. reflexivity. }
  assert (Htags : getPopularTags w = getPopularTags (published_only w)).
  { rewrite !getPopularTags_counts. unfold tagCounts, published_tags.
    rewrite articles_of_published_only. reflexivity. }
  unfold buildSearchIndex in *. simpl in Hidx. unfold buildSuggestions.
  rewrite Hidx, Htags. reflexivity.
Qed.

Lemma In_getPopularTags (w : Managers) (t : jsstring) :
  In t (getPopularTags w) -> In t (published_tags w).
Proof.
  rewrite getPopularTags_counts. intros Hin.
  apply in_map_iff in Hin. destruct Hin as [[t' n] [Heq Hin]]. simpl in Heq. subst t'.
  apply In_firstn, array_sort_In in Hin.
  apply In_keys_count_all. apply (in_map fst) in Hin. exact Hin.
Qed.

(** C8: in a built index every article posting is that of an article of
    the snapshot whose status is 'published'; the tag counts behind the
    popular tags count exactly the lower-cased tags of published
    articles, and every popular tag is one of them; and building from
    the whole snapshot gives the same manager state as building from its
    published articles alone, so that every query result and every
    suggestion list is the same with or without the unpublished ones. *)
Theorem unpublished_articles_have_no_influence (w : Managers) (s : SearchManager) :
  (forall word ps p,
      In (word, ps) (searchIndex (buildSearchIndex w s)) -> In p ps ->
      type p = article ->
      exists a, In a (articles_of w) /\
                Article.status a = ARTICLE_STATUS.PUBLISHED /\
                p = article_posting word a /\ id p = Article.id a) /\
  (forall t, count_at t (tagCounts w) = N.of_nat (occurrences t (published_tags w))) /\
  (forall t, In t (getPopularTags w) ->
             exists a tag, In a (articles_of w) /\
                           Article.status a = ARTICLE_STATUS.PUBLISHED /\
                           In tag (Article.tags a) /\ t = Unicode.toLowerCase tag) /\
  buildSearchIndex w s = buildSearchIndex (published_only w) s /\
  (forall q,
      searchInIndex (searchIndex (buildSearchIndex w s)) q =
      searchInIndex (searchIndex (buildSearchIndex (published_only w) s)) q /\
      getSuggestions (buildSearchIndex w s) q =
      getSuggestions (buildSearchIndex (published_only w) s) q).
Proof.
  split; [|split; [|split; [|split]]].
  - intros word ps p Hin Hp Hty.
    destruct (built_posting_origin w s word ps p Hin Hp) as [[a [Ha [Hpub Heq]]]|[u [_ Heq]]].
    + exists a. rewrite <- is_published_status. subst p. auto.
    + subst p. discriminate Hty.
  - intros t. apply count_at_count_all.
  - intros t Ht. apply In_getPopularTags in Ht. unfold published_tags in Ht.
    apply in_flat_map in Ht. destruct Ht as [a [Ha Ht]].
    apply filter_In in Ha. destruct Ha as [Ha Hpub].
    apply in_map_iff in Ht. destruct Ht as [tag [Heq Htag]].
    exists a, tag. rewrite <- is_published_status. auto.
  - apply build_published_only.
  - intros q. rewrite <- build_published_only. auto.
Qed.

Lemma unpublished_articles_have_no_influence_witness :
  In (js "митинг", postings_at (js "митинг") rally_index) rally_index /\
  In (article_posting (js "митинг") rally_report) (postings_at (js "митинг") rally_index) /\
  type (article_posting (js "митинг") rally_report) = article /\
  exists a, In a (articles_of rally_managers) /\
            Article.status a = ARTICLE_STATUS.PUBLISHED /\
            article_posting (js "митинг") rally_report = article_posting (js "митинг") a /\
            id (article_posting (js "митинг") rally_report) = Article.id a.
Proof.
  assert (H1 : In (js "митинг", postings_at (js "митинг") rally_index) rally_index).
  { vm_compute. do 2 right. left. reflexivity. }
  assert (H2 : In (article_posting (js "митинг") rally_report)
                  (postings_at (js "митинг") rally_index)).
  { vm_compute. left. reflexivity. }
  split; [exact H1|]. split; [exact H2|]. split; [reflexivity|].
  exact (proj1 (unpublished_articles_have_no_influence rally_managers new_SearchManager)
           (js "митинг") (postings_at (js "митинг") rally_index)
           (article_posting (js "митинг") rally_report) H1 H2 eq_refl).
Defined.

(** The draft of the rally scenario matches the query word in title and
    tag, and is absent from the result. *)
Lemma rally_draft_not_returned :
  map (fun r => id (result r)) (articles (searchInIndex rally_index (js "митинг"))) =
  [js "article-a"; js "article-b"].
Proof. vm_compute. reflexivity. Qed.

(** ** performSearch *)

Lemma saveSearchHistory_index s : searchIndex (saveSearchHistory s) = searchIndex s.
Proof. reflexivity. Qed.

Lemma addToSearchHistory_index q n now s :
  searchIndex (addToSearchHistory q n now s) = searchIndex s.
Proof. reflexivity. Qed.

Lemma showSearchResults_index pg q r s :
  searchIndex (showSearchResults pg q r s) = searchIndex s.
Proof. unfold showSearchResults. destruct (search_modal pg); reflexivity. Qed.

Lemma performSearch_result (pg : Page) (q : jsstring) (h : bool) (s : SearchManager) :
  fst (performSearch pg q h s) =
  if too_short q then empty_results else searchInIndex (searchIndex s) q.
Proof.
  unfold performSearch, too_short.
  destruct (match q with [] => true | _ :: _ => false end || (N.of_nat (List.length q) <? 2));
    [reflexivity|].
  destruct h; reflexivity.
Qed.

Lemma performSearch_index (pg : Page) (q : jsstring) (h : bool) (s : SearchManager) :
  searchIndex (snd (performSearch pg q h s)) = searchIndex s.
Proof.
  unfold performSearch.
  destruct (match q with [] => true | _ :: _ => false end || (N.of_nat (List.length q) <? 2));
    [reflexivity|].
  destruct h; [|reflexivity].
  cbn [snd]. rewrite showSearchResults_index, addToSearchHistory_index. reflexivity.
Qed.

Lemma searchIndex_build_any (w : Managers) (s s' : SearchManager) :
  searchIndex (buildSearchIndex w s) = searchIndex (buildSearchIndex w s').
Proof. rewrite !searchIndex_build. reflexivity. Qed.

(** ** The object store *)

Lemma store_put_length (st : Store) (l : nat) (o : Object) :
  List.length (store_put st l o) = List.length st.
Proof.
  revert l. induction st as [|x st IH]; intros [|l]; simpl; auto.
Qed.

Lemma store_get_put_same (st : Store) (l : nat) (o : Object) :
  (l < List.length st)%nat -> store_get (store_put st l o) l = Some o.
Proof.
  unfold store_get. revert l. induction st as [|x st IH]; intros [|l]; simpl; intros H;
    try lia; [reflexivity|]. apply IH. lia.
Qed.

Lemma store_get_put_other (st : Store) (l l' : nat) (o : Object) :
  l <> l' -> store_get (store_put st l o) l' = store_get st l'.
Proof.
  unfold store_get. revert l l'.
  induction st as [|x st IH]; intros [|l] [|l'] H; simpl; try reflexivity; try congruence.
  apply IH. congruence.
Qed.

Lemma firstn_store_put (st : Store) (n l : nat) (o : Object) :
  (n <= l)%nat -> firstn n (store_put st l o) = firstn n st.
Proof.
  revert n l. induction st as [|x st IH]; intros [|n] [|l] H; simpl; try reflexivity; try lia.
  f_equal. apply IH. lia.
Qed.

Lemma store_get_app_old (st : Store) (o : Object) (l : nat) :
  (l < List.length st)%nat -> store_get (st ++ [o]) l = store_get st l.
Proof. intros H. unfold store_get. apply nth_error_app1, H. Qed.

Lemma store_get_app_new (st : Store) (o : Object) :
  store_get (st ++ [o]) (List.length st) = Some o.
Proof.
  unfold store_get. rewrite nth_error_app2, Nat.sub_diag by lia. reflexivity.
Qed.

Lemma store_get_firstn (st : Store) (n l : nat) :
  (l < n)%nat -> store_get (firstn n st) l = store_get st l.
Proof.
  intros H. unfold store_get. rewrite nth_error_firstn.
  destruct (Nat.ltb_spec l n); [reflexivity | lia].
Qed.

Lemma firstn_app_old {A} (n : nat) (l l' : list A) :
  (n <= List.length l)%nat -> firstn n (l ++ l') = firstn n l.
Proof.
  intros H. rewrite firstn_app.
  replace (n - List.length l)%nat with 0%nat by lia. simpl. apply app_nil_r.
Qed.

(** ** Maps of locations *)

Lemma get_read_results (st : Store) (k : jsstring) (rm : ResultRefs) :
  JsMap.get k (read_results st rm) = option_map (result_at st) (JsMap.get k rm).
Proof.
  unfold read_results. induction rm as [|[k' l] rm IH]; simpl; [reflexivity|].
  destruct (jsstring_eqb k k'); [reflexivity | exact IH].
Qed.

Lemma has_read_results (st : Store) (k : jsstring) (rm : ResultRefs) :
  JsMap.has k (read_results st rm) = JsMap.has k rm.
Proof. unfold JsMap.has. rewrite get_read_results. destruct (JsMap.get k rm); reflexivity. Qed.

Lemma read_results_set (st : Store) (k : jsstring) (l : nat) (rm : ResultRefs) :
  read_results st (JsMap.set k l rm) = JsMap.set k (result_at st l) (read_results st rm).
Proof.
  unfold read_results. induction rm as [|[k' l'] rm IH]; simpl; [reflexivity|].
  destruct (jsstring_eqb k k'); simpl; [reflexivity | rewrite IH; reflexivity].
Qed.

Lemma set_set {V} (k : jsstring) (v v' : V) (m : JsMap.t V) :
  JsMap.set k v' (JsMap.set k v m) = JsMap.set k v' m.
Proof.
  induction m as [|[k' v0] m IH]; simpl.
  - rewrite jsstring_eqb_refl. reflexivity.
  - destruct (jsstring_eqb k k') eqn:E; simpl; rewrite E; [reflexivity|].
    rewrite IH. reflexivity.
Qed.

Lemma read_results_ext (st st' : Store) (rm : ResultRefs) :
  (forall e, In e rm -> store_get st' (snd e) = store_get st (snd e)) ->
  read_results st' rm = read_results st rm.
Proof.
  intros H. unfold read_results. apply map_ext_in. intros e He.
  unfold result_at. rewrite (H e He). reflexivity.
Qed.

Lemma get_In_snd {V} (k : jsstring) (v : V) (m : JsMap.t V) :
  JsMap.get k m = Some v -> In v (map snd m).
Proof. intros H. apply get_Some_In in H. apply (in_map snd) in H. exact H. Qed.

Lemma read_results_put (st : Store) (k : jsstring) (l : nat) (o : Object) (rm : ResultRefs) :
  NoDup (map snd rm) -> JsMap.get k rm = Some l -> (l < List.length st)%nat ->
  read_results (store_put st l o) rm =
  JsMap.set k {| result := fields o; score := score_of o |} (read_results st rm).
Proof.
  intros Hnd Hget Hl.
  induction rm as [|[k' l'] rm IH]; simpl in *; [discriminate|].
  inversion Hnd as [|? ? Hni Hnd']; subst.
  destruct (jsstring_eqb k k') eqn:E.
  - injection Hget as ->. unfold result_at at 1. rewrite store_get_put_same by exact Hl.
    f_equal. apply read_results_ext. intros e He.
    apply store_get_put_other. intros Heq. apply Hni. rewrite Heq. apply in_map, He.
  - unfold result_at at 1. rewrite store_get_put_other.
    + fold (result_at st l'). f_equal. apply IH; assumption.
    + intros Heq. apply Hni. rewrite <- Heq. eapply get_In_snd, Hget.
Qed.

(** ** The callback on the store refines the callback on values *)

Lemma store_extends_length (st0 st : Store) :
  store_extends st0 st -> (List.length st0 <= List.length st)%nat.
Proof.
  unfold store_extends. intros H.
  pose proof (firstn_le_length (List.length st0) st) as Hle.
  rewrite H in Hle. pose proof (length_firstn (List.length st0) st) as Hlen.
  rewrite H in Hlen. lia.
Qed.

Lemma store_extends_get (st0 st : Store) (l : nat) :
  store_extends st0 st -> (l < List.length st0)%nat -> store_get st l = store_get st0 l.
Proof.
  intros H Hl. rewrite <- (store_get_firstn st (List.length st0) l Hl).
  rewrite H. reflexivity.
Qed.

Lemma store_get_Some_lt (st : Store) (l : nat) (o : Object) :
  store_get st l = Some o -> (l < List.length st)%nat.
Proof. intros H. apply nth_error_Some. unfold store_get in H. congruence. Qed.

Lemma Forall_set {V} (P : jsstring * V -> Prop) (k : jsstring) (v : V) (m : JsMap.t V) :
  Forall P m -> (forall k', P (k', v)) -> Forall P (JsMap.set k v m).
Proof.
  intros Hall Hv. induction Hall as [|[k' v'] m Hx Hm IH]; simpl.
  - constructor; [apply Hv | constructor].
  - destruct (jsstring_eqb k k'); constructor; try assumption; apply Hv.
Qed.

Lemma values_set_absent {V} (k : jsstring) (v : V) (m : JsMap.t V) :
  JsMap.has k m = false -> map snd (JsMap.set k v m) = map snd m ++ [v].
Proof.
  unfold JsMap.has. induction m as [|[k' v'] m IH]; simpl; [reflexivity|].
  destruct (jsstring_eqb k k'); [discriminate|]. intros H. simpl. rewrite IH by exact H.
  reflexivity.
Qed.

Lemma accumulate_obj_refines (st0 : Store) (weight : Posting -> N)
      (st : Store) (rm : ResultRefs) (l : nat) (o : Object) :
  store_extends st0 st -> refs_fresh (List.length st0) st rm ->
  store_get st0 l = Some o ->
  store_extends st0 (fst (accumulate_obj weight (st, rm) l)) /\
  refs_fresh (List.length st0) (fst (accumulate_obj weight (st, rm) l))
             (snd (accumulate_obj weight (st, rm) l)) /\
  read_results (fst (accumulate_obj weight (st, rm) l))
               (snd (accumulate_obj weight (st, rm) l)) =
  accumulate (fields o) (weight (fields o)) (read_results st rm).
Proof.
  intros Hext [Hbound Hnd] Hget0.
  pose proof (store_get_Some_lt _ _ _ Hget0) as Hl.
  pose proof (store_extends_length _ _ Hext) as Hlen.
  assert (Hget : store_get st l = Some o).
  { rewrite (store_extends_get st0 st l Hext Hl). exact Hget0. }
  unfold accumulate_obj, accumulate. cbn [fst snd]. rewrite Hget, has_read_results.
  set (key := result_key (fields o)).
  destruct (JsMap.has key rm) eqn:Hh; cbn [fst snd].
  - pose proof Hh as Hh'. apply has_get in Hh'. destruct Hh' as [l' Hl'].
    rewrite Hl', get_read_results, Hl'. cbn [option_map].
    assert (Hb : (List.length st0 <= l' < List.length st)%nat).
    { rewrite Forall_forall in Hbound. apply (Hbound (key, l')). apply get_Some_In, Hl'. }
    destruct (store_get st l') as [r|] eqn:Hr.
    + cbn [fst snd]. split; [|split].
      * unfold store_extends. rewrite firstn_store_put by lia. exact Hext.
      * split; [|exact Hnd]. rewrite store_put_length. exact Hbound.
      * rewrite (read_results_put st key l' _ rm Hnd Hl') by lia.
        unfold result_at. rewrite Hr. reflexivity.
    + exfalso. unfold store_get in Hr. apply nth_error_None in Hr. lia.
  - rewrite get_set_same, store_get_app_new. cbn [fst snd].
    assert (Hold : forall e, In e rm -> (snd e < List.length st)%nat).
    { rewrite Forall_forall in Hbound. intros e He. apply Hbound in He. lia. }
    assert (Hnd1 : NoDup (map snd (JsMap.set key (List.length st) rm))).
    { rewrite values_set_absent by exact Hh. apply NoDup_app; [exact Hnd | repeat constructor; simpl; tauto |].
      intros x Hx [<-|[]]. apply in_map_iff in Hx. destruct Hx as [e [Heq He]].
      apply Hold in He. lia. }
    split; [|split].
    + unfold store_extends. rewrite firstn_store_put by lia.
      rewrite firstn_app_old by lia. exact Hext.
    + split; [|exact Hnd1]. rewrite store_put_length, length_app. simpl.
      apply Forall_set.
      * eapply Forall_impl; [|exact Hbound]. simpl. intros e He. lia.
      * intros k'. simpl. lia.
    + rewrite (read_results_put (st ++ [_]) key (List.length st) _ _ Hnd1 (get_set_same _ _ _))
        by (rewrite length_app; simpl; lia).
      rewrite read_results_set. unfold result_at at 1. rewrite store_get_app_new.
      rewrite (read_results_ext st (st ++ [_]) rm)
        by (intros e He; apply store_get_app_old, Hold, He).
      rewrite set_set, get_set_same. cbn [fields score_of score_prop result score].
      rewrite set_set. reflexivity.
Qed.

Lemma loop_invariant_start (st0 : Store) : loop_invariant st0 (st0, JsMap.empty).
Proof.
  split; [apply firstn_all | split; constructor].
Qed.

Section StoreLoop.
Variable st0 : Store.

Lemma accumulate_locs_refines (weight : Posting -> N) (locs : list nat)
      (stm : Store * ResultRefs) :
  loop_invariant st0 stm ->
  Forall (fun l => (l < List.length st0)%nat) locs ->
  loop_invariant st0 (fold_left (accumulate_obj weight) locs stm) /\
  read_results (fst (fold_left (accumulate_obj weight) locs stm))
               (snd (fold_left (accumulate_obj weight) locs stm)) =
  fold_left (fun rm p => accumulate p (weight p) rm) (postings_at_locs st0 locs)
            (read_results (fst stm) (snd stm)).
Proof.
  intros Hinv Hlocs. revert stm Hinv.
  induction Hlocs as [|l locs Hl _ IH]; intros stm Hinv; simpl; [auto|].
  destruct (store_get st0 l) as [o|] eqn:Hget.
  - destruct stm as [st rm]. destruct Hinv as [Hext Hfresh].
    destruct (accumulate_obj_refines st0 weight st rm l o Hext Hfresh Hget)
      as [Hext' [Hfresh' Hread]].
    destruct (IH (accumulate_obj weight (st, rm) l) (conj Hext' Hfresh')) as [Hinv' Hread'].
    split; [exact Hinv'|]. rewrite Hread', Hread. reflexivity.
  - exfalso. unfold store_get in Hget. apply nth_error_None in Hget. lia.
Qed.

Lemma get_read_index (word : jsstring) (idx : IndexRefs) :
  JsMap.get word (read_index st0 idx) =
  option_map (postings_at_locs st0) (JsMap.get word idx).
Proof.
  unfold read_index. induction idx as [|[k locs] idx IH]; simpl; [reflexivity|].
  destruct (jsstring_eqb word k); [reflexivity | exact IH].
Qed.

Lemma exact_phase_obj_refines (idx : IndexRefs) (word : jsstring)
      (stm : Store * ResultRefs) :
  index_in_store st0 idx -> loop_invariant st0 stm ->
  loop_invariant st0 (exact_phase_obj idx word stm) /\
  read_results (fst (exact_phase_obj idx word stm)) (snd (exact_phase_obj idx word stm)) =
  exact_phase (read_index st0 idx) word (read_results (fst stm) (snd stm)).
Proof.
  intros Hidx Hinv. unfold exact_phase_obj, exact_phase, JsMap.has.
  rewrite get_read_index.
  destruct (JsMap.get word idx) as [locs|] eqn:Hg; cbn [option_map]; [|auto].
  apply accumulate_locs_refines; [exact Hinv|].
  apply Forall_forall. intros l Hl. apply (Hidx word locs l); [|exact Hl].
  apply get_Some_In, Hg.
Qed.

Lemma partial_phase_obj_refines (idx : IndexRefs) (word : jsstring)
      (stm : Store * ResultRefs) :
  index_in_store st0 idx -> loop_invariant st0 stm ->
  loop_invariant st0 (partial_phase_obj idx word stm) /\
  read_results (fst (partial_phase_obj idx word stm))
               (snd (partial_phase_obj idx word stm)) =
  partial_phase (read_index st0 idx) word (read_results (fst stm) (snd stm)).
Proof.
  unfold partial_phase_obj, partial_phase, read_index, index_in_store.
  revert stm. induction idx as [|[k locs] idx IH]; intros stm Hidx Hinv; simpl; [auto|].
  assert (Hidx' : forall w ls l, In (w, ls) idx -> In l ls -> (l < List.length st0)%nat).
  { intros w ls l Hin. apply (Hidx w ls l). right. exact Hin. }
  destruct (includes k word && negb (jsstring_eqb k word)).
  - assert (Hlocs : Forall (fun l => (l < List.length st0)%nat) locs).
    { apply Forall_forall. intros l Hl. apply (Hidx k locs l); [left; reflexivity | exact Hl]. }
    destruct (accumulate_locs_refines relevance locs stm Hinv Hlocs) as [Hinv' Hread].
    destruct (IH _ Hidx' Hinv') as [Hinv'' Hread'].
    split; [exact Hinv''|]. rewrite Hread', Hread. reflexivity.
  - apply IH; assumption.
Qed.

Lemma score_words_obj_refines (idx : IndexRefs) (words : list jsstring) :
  index_in_store st0 idx ->
  loop_invariant st0 (score_words_obj idx words st0) /\
  read_results (fst (score_words_obj idx words st0)) (snd (score_words_obj idx words st0)) =
  score_words (read_index st0 idx) words.
Proof.
  intros Hidx. unfold score_words_obj, score_words.
  assert (Hgen : forall stm,
             loop_invariant st0 stm ->
             loop_invariant st0
               (fold_left (fun stm word =>
                             partial_phase_obj idx word (exact_phase_obj idx word stm))
                          words stm) /\
             read_results
               (fst (fold_left (fun stm word =>
                                  partial_phase_obj idx word (exact_phase_obj idx word stm))
                               words stm))
               (snd (fold_left (fun stm word =>
                                  partial_phase_obj idx word (exact_phase_obj idx word stm))
                               words stm)) =
             fold_left (fun rm word =>
                          partial_phase (read_index st0 idx) word
                                        (exact_phase (read_index st0 idx) word rm))
                       words (read_results (fst stm) (snd stm))).
  { induction words as [|word words IH]; intros stm Hinv; simpl; [auto|].
    destruct (exact_phase_obj_refines idx word stm Hidx Hinv) as [Hinv1 Hread1].
    destruct (partial_phase_obj_refines idx word _ Hidx Hinv1) as [Hinv2 Hread2].
    destruct (IH _ Hinv2) as [Hinv3 Hread3].
    split; [exact Hinv3|]. rewrite Hread3, Hread2, Hread1. reflexivity. }
  apply (Hgen (st0, JsMap.empty)), loop_invariant_start.
Qed.

(** The query over the store leaves every object that was there as it
    was, and returns what the query over values returns. *)
Lemma searchInIndex_obj_refines (idx : IndexRefs) (q : jsstring) :
  index_in_store st0 idx ->
  firstn (List.length st0) (fst (searchInIndex_obj st0 idx q)) = st0 /\
  snd (searchInIndex_obj st0 idx q) = searchInIndex (read_index st0 idx) q.
Proof.
  intros Hidx.
  destruct (score_words_obj_refines idx (extractWords q) Hidx) as [[Hext _] Hread].
  unfold searchInIndex_obj, searchInIndex, ranked. cbn [fst snd].
  rewrite Hread. split; [exact Hext | reflexivity].
Qed.
End StoreLoop.

(** Laying an index out in a store gives an index of its locations. *)
Lemma locations_in_store (idx : SearchIndex) (pre : Store) :
  index_in_store (pre ++ store_of_index idx) (locations_from (List.length pre) idx).
Proof.
  unfold index_in_store, store_of_index. revert pre.
  induction idx as [|[w ps] idx IH]; intros pre word locs l; simpl; [tauto|].
  intros [Heq|Hin] Hl.
  - injection Heq as <- <-. apply in_seq in Hl.
    rewrite length_app, length_map, length_app. lia.
  - rewrite map_app, app_assoc.
    apply (IH (pre ++ map (fun p => {| fields := p; score_prop := None |}) ps) word locs l);
      [|exact Hl].
    rewrite length_app, length_map. exact Hin.
Qed.

Lemma postings_at_locs_layout (pre post : Store) (ps : list Posting) :
  postings_at_locs (pre ++ map (fun p => {| fields := p; score_prop := None |}) ps ++ post)
                   (seq (List.length pre) (List.length ps)) = ps.
Proof.
  revert pre. induction ps as [|p ps IH]; intros pre; simpl; [reflexivity|].
  unfold store_get. rewrite nth_error_app2, Nat.sub_diag by lia. simpl. f_equal.
  specialize (IH (pre ++ [{| fields := p; score_prop := None |}])).
  rewrite length_app, <- app_assoc in IH. simpl in IH.
  rewrite Nat.add_1_r in IH. exact IH.
Qed.

Lemma read_index_layout (idx : SearchIndex) (pre : Store) :
  read_index (pre ++ store_of_index idx) (locations_from (List.length pre) idx) = idx.
Proof.
  unfold store_of_index. revert pre.
  induction idx as [|[w ps] idx IH]; intros pre; simpl; [reflexivity|].
  rewrite map_app, postings_at_locs_layout. f_equal.
  specialize (IH (pre ++ map (fun p => {| fields := p; score_prop := None |}) ps)).
  rewrite length_app, length_map, <- app_assoc in IH.
  unfold read_index in *.
  erewrite map_ext_in; [exact IH|]. reflexivity.
Qed.

(** C6: for a fixed snapshot and query, build, query, build again and
    query again gives equal results, whatever state the manager was in
    and whether or not the queries were recorded in the history; build
    discards the prior index; a query leaves the index as it was; a
    second identical query on the unchanged index returns the same; and
    run over a store of objects, with the index holding locations of the
    posting objects, the query leaves every object of the store
    unchanged and returns that same result. *)
Theorem rebuild_and_query_idempotent
        (w : Managers) (s : SearchManager) (q : jsstring)
        (pg1 pg2 : Page) (h1 h2 : bool) :
  let s1 := buildSearchIndex w s in
  let r1 := fst (performSearch pg1 q h1 s1) in
  let s1' := snd (performSearch pg1 q h1 s1) in
  let s2 := buildSearchIndex w s1' in
  let r2 := fst (performSearch pg2 q h2 s2) in
  r1 = r2 /\
  searchIndex s2 = searchIndex s1 /\
  searchIndex s1' = searchIndex s1 /\
  fst (performSearch pg2 q h2 s1') = r1 /\
  (forall s', searchIndex (buildSearchIndex w s') = searchIndex s1) /\
  (forall st idx,
      index_in_store st idx -> read_index st idx = searchIndex s1 ->
      firstn (List.length st) (fst (searchInIndex_obj st idx q)) = st /\
      snd (searchInIndex_obj st idx q) = searchInIndex (searchIndex s1) q).
Proof.
  intros s1 r1 s1' s2 r2.
  assert (H2 : searchIndex s2 = searchIndex s1) by apply searchIndex_build_any.
  assert (H1 : searchIndex s1' = searchIndex s1) by apply performSearch_index.
  split; [|split; [exact H2|split; [exact H1|split; [|split]]]].
  - unfold r1, r2. rewrite !performSearch_result, H2. reflexivity.
  - unfold r1. rewrite !performSearch_result, H1. reflexivity.
  - intros s'. apply searchIndex_build_any.
  - intros st idx Hidx Hread. rewrite <- Hread.
    apply searchInIndex_obj_refines, Hidx.
Qed.

Lemma rebuild_and_query_idempotent_witness :
  index_in_store (store_of_index rally_index) (locations_from 0 rally_index) /\
  read_index (store_of_index rally_index) (locations_from 0 rally_index) =
    searchIndex (buildSearchIndex rally_managers new_SearchManager) /\
  firstn (List.length (store_of_index rally_index))
         (fst (searchInIndex_obj (store_of_index rally_index)
                                 (locations_from 0 rally_index) (js "митинг"))) =
    store_of_index rally_index /\
  snd (searchInIndex_obj (store_of_index rally_index)
                         (locations_from 0 rally_index) (js "митинг")) =
    searchInIndex (searchIndex (buildSearchIndex rally_managers new_SearchManager))
                  (js "митинг").
Proof.
  assert (H1 : index_in_store (store_of_index rally_index) (locations_from 0 rally_index)).
  { apply (locations_in_store rally_index []). }
  assert (H2 : read_index (store_of_index rally_index) (locations_from 0 rally_index) =
               searchIndex (buildSearchIndex rally_managers new_SearchManager)).
  { apply (read_index_layout rally_index []). }
  split; [exact H1|]. split; [exact H2|].
  exact (proj2 (proj2 (proj2 (proj2 (proj2
           (rebuild_and_query_idempotent rally_managers new_SearchManager (js "митинг")
              sample_page sample_page true false)))))
           (store_of_index rally_index) (locations_from 0 rally_index) H1 H2).
Defined.



(** C9 (as stated, refuted): for the one-unit query "a" the object
    [performSearch] returns has no [query] field. *)
Lemma performSearch_one_unit_query_has_no_query_field :
  fst (performSearch_run no_open_parenthesis sample_page (js "a") false rally_state) =
    Returned {| articles := []; authors := []; total := 0%nat; query := None |} /\
  query (fst (performSearch sample_page (js "a") false rally_state)) <> Some (js "a").
Proof. split; [reflexivity | discriminate]. Qed.

Section QueryField.
Variable RegExp_accepts : jsstring -> bool.

Lemma performSearch_run_short (pg : Page) (q : jsstring) (h : bool) (s : SearchManager) :
  too_short q = true -> performSearch_run RegExp_accepts pg q h s = (Returned empty_results, s).
Proof. unfold performSearch_run. fold (too_short q). intros ->. reflexivity. Qed.

Lemma performSearch_run_recorded (pg : Page) (q : jsstring) (s : SearchManager) :
  too_short q = false ->
  performSearch_run RegExp_accepts pg q true s =
  if search_modal pg
  then if (total (searchInIndex (searchIndex s) q) =? 0)%nat || RegExp_accepts q
       then (Returned (searchInIndex (searchIndex s) q),
             addToSearchHistory q (total (searchInIndex (searchIndex s) q)) (now_second pg)
               (addToSearchHistory q (total (searchInIndex (searchIndex s) q))
                                   (now_first pg) s))
       else (Thrown,
             addToSearchHistory q (total (searchInIndex (searchIndex s) q)) (now_first pg) s)
  else (Returned (searchInIndex (searchIndex s) q),
        addToSearchHistory q (total (searchInIndex (searchIndex s) q)) (now_first pg) s).
Proof.
  unfold performSearch_run, showSearchResults_run. fold (too_short q). intros ->.
  destruct (search_modal pg); [|reflexivity].
  destruct ((total (searchInIndex (searchIndex s) q) =? 0)%nat || RegExp_accepts q);
    reflexivity.
Qed.

(** A call that returns returns what [performSearch] has, and leaves the
    state [performSearch] has. *)
Lemma performSearch_run_returned (pg : Page) (q : jsstring) (h : bool) (s : SearchManager)
      (r : SearchResults) :
  fst (performSearch_run RegExp_accepts pg q h s) = Returned r ->
  performSearch_run RegExp_accepts pg q h s =
  (Returned (fst (performSearch pg q h s)), snd (performSearch pg q h s)).
Proof.
  unfold performSearch. fold (too_short q).
  destruct (too_short q) eqn:Eq.
  - rewrite performSearch_run_short by exact Eq. reflexivity.
  - destruct h.
    + rewrite performSearch_run_recorded by exact Eq. unfold showSearchResults.
      destruct (search_modal pg); [|reflexivity].
      destruct ((total (searchInIndex (searchIndex s) q) =? 0)%nat || RegExp_accepts q);
        [reflexivity | discriminate].
    + unfold performSearch_run. fold (too_short q). rewrite Eq. reflexivity.
Qed.

(** C9 (amended): for a query of fewer than two code units
    [performSearch] returns the object with no articles, no authors,
    total 0 and no [query] field, and leaves the manager as it was; for
    every longer query the object it returns is that of [searchInIndex]
    and carries the query string in its [query] field.  It returns
    unless the search is recorded, the result modal is present, the
    result is not empty and [new RegExp] turns the query down: then
    [highlightMatch] throws and nothing is returned. *)
Theorem performSearch_query_field (pg : Page) (q : jsstring) (h : bool) (s : SearchManager) :
  ((List.length q < 2)%nat ->
   performSearch_run RegExp_accepts pg q h s =
     (Returned {| articles := []; authors := []; total := 0%nat; query := None |}, s)) /\
  ((2 <= List.length q)%nat ->
   (h = true /\ search_modal pg = true /\
    total (searchInIndex (searchIndex s) q) <> 0%nat /\ RegExp_accepts q = false ->
    fst (performSearch_run RegExp_accepts pg q h s) = Thrown) /\
   (h = false \/ search_modal pg = false \/
    total (searchInIndex (searchIndex s) q) = 0%nat \/ RegExp_accepts q = true ->
    fst (performSearch_run RegExp_accepts pg q h s) =
      Returned (searchInIndex (searchIndex s) q) /\
    query (searchInIndex (searchIndex s) q) = Some q)).
Proof.
  assert (Hshort : (List.length q < 2)%nat <-> too_short q = true).
  { unfold too_short. destruct q as [|c q']; [simpl; split; [reflexivity | lia]|].
    cbv beta iota. cbn [orb].
    destruct (N.ltb_spec (N.of_nat (List.length (c :: q'))) 2) as [H|H];
      split; intros H'; try reflexivity; try discriminate H'; lia. }
  split.
  - intros Hlen. apply performSearch_run_short, Hshort, Hlen.
  - intros Hlen.
    assert (Hlong : too_short q = false).
    { apply not_true_is_false. intros E. apply Hshort in E. lia. }
    split.
    + intros [-> [Hm [Ht Hr]]]. rewrite performSearch_run_recorded by exact Hlong.
      rewrite Hm, Hr. destruct (Nat.eqb_spec (total (searchInIndex (searchIndex s) q)) 0);
        [contradiction | reflexivity].
    + intros Hret. split; [|reflexivity].
      destruct h.
      * rewrite performSearch_run_recorded by exact Hlong.
        destruct (search_modal pg); [|reflexivity].
        destruct Hret as [Hf | [Hf | [Ht | Hr]]]; try discriminate Hf.
        -- rewrite Ht. reflexivity.
        -- rewrite Hr, orb_true_r. reflexivity.
      * unfold performSearch_run. fold (too_short q). rewrite Hlong. reflexivity.
Qed.
End QueryField.

Lemma performSearch_query_field_witness :
  ((List.length (js "a") < 2)%nat /\
   performSearch_run no_open_parenthesis sample_page (js "a") true rally_state =
     (Returned {| articles := []; authors := []; total := 0%nat; query := None |},
      rally_state)) /\
  ((2 <= List.length (js "ми"))%nat /\
   (true = false \/ search_modal sample_page = false \/
    total (searchInIndex (searchIndex rally_state) (js "ми")) = 0%nat \/
    no_open_parenthesis (js "ми") = true) /\
   fst (performSearch_run no_open_parenthesis sample_page (js "ми") true rally_state) =
     Returned (searchInIndex (searchIndex rally_state) (js "ми")) /\
   query (searchInIndex (searchIndex rally_state) (js "ми")) = Some (js "ми")).
Proof.
  assert (H1 : (List.length (js "a") < 2)%nat) by (vm_compute; lia).
  assert (H2 : (2 <= List.length (js "ми"))%nat) by (vm_compute; lia).
  assert (H3 : true = false \/ search_modal sample_page = false \/
               total (searchInIndex (searchIndex rally_state) (js "ми")) = 0%nat \/
               no_open_parenthesis (js "ми") = true)
    by (right; right; right; reflexivity).
  split.
  - split; [exact H1|].
    exact (proj1 (performSearch_query_field no_open_parenthesis sample_page (js "a") true
                    rally_state) H1).
  - split; [exact H2|]. split; [exact H3|].
    exact (proj2 (proj2 (performSearch_query_field no_open_parenthesis sample_page (js "ми")
                           true rally_state) H2) H3).
Defined.

(** ** Suggestions *)

Lemma getSuggestions_unfold (s : SearchManager) (q : jsstring) :
  getSuggestions s q =
  array_sort (suggestion_order (Unicode.toLowerCase q))
             (slice0 8 (filter (matches_prefix q) (searchSuggestions s))).
Proof. reflexivity. Qed.

Lemma suggestion_order_key (q : jsstring) (a b : Suggestion) :
  (suggestion_order (Unicode.toLowerCase q) a b <= 0)%Z <-> (sg_rank q b <= sg_rank q a)%Z.
Proof.
  unfold suggestion_order, sg_rank, starts_with_prefix.
  destruct (startsWith (Unicode.toLowerCase (text a)) (Unicode.toLowerCase q)),
    (startsWith (Unicode.toLowerCase (text b)) (Unicode.toLowerCase q)),
    (sg_type a), (sg_type b); simpl; lia.
Qed.

Lemma sg_rank_goes_before (q : jsstring) (a b : Suggestion) :
  (sg_rank q b <= sg_rank q a)%Z -> goes_before q a b.
Proof.
  unfold sg_rank, goes_before, pool_not_below.
  destruct (starts_with_prefix q a), (starts_with_prefix q b),
    (sg_type a), (sg_type b); simpl; intros H; split; intros;
    try lia; try congruence; auto.
Qed.

Lemma In_firstn_filter {A} (f : A -> bool) (n : nat) (x : A) (pre post : list A) :
  f x = true -> (List.length (filter f pre) < n)%nat ->
  In x (firstn n (filter f (pre ++ x :: post))).
Proof.
  intros Hx Hlen. rewrite filter_app. simpl. rewrite Hx, firstn_app.
  apply in_or_app. right.
  destruct (n - List.length (filter f pre))%nat as [|m] eqn:E; [lia|].
  simpl. left. reflexivity.
Qed.

Lemma StronglySorted_before {A} (R : A -> A -> Prop) (l1 l2 : list A) (x : A) :
  StronglySorted R (l1 ++ x :: l2) -> Forall (fun y => R y x) l1.
Proof.
  induction l1 as [|y l1 IH]; simpl; intros H; [constructor|].
  inversion H as [|? ? Hs Hall]; subst. constructor.
  - rewrite Forall_forall in Hall. apply Hall. apply in_or_app. right. left. reflexivity.
  - apply IH, Hs.
Qed.

Lemma by_count_desc_key (x y : jsstring * N) :
  (by_count_desc x y <= 0)%Z <-> (Z.of_N (snd y) <= Z.of_N (snd x))%Z.
Proof. unfold by_count_desc. lia. Qed.

(** An entry with fewer than [top] rivals is among the first [top] of
    the counts sorted by descending count. *)
Lemma few_rivals_in_top (counts : JsMap.t N) (t : jsstring) (n : N) (top : nat) :
  NoDup (JsMap.keys counts) -> In (t, n) counts ->
  (List.length (filter (rival t n) counts) < top)%nat ->
  In (t, n) (slice0 top (array_sort by_count_desc counts)).
Proof.
  intros Hnd Hin Hriv.
  pose proof (array_sort_perm by_count_desc counts) as Hperm.
  pose proof (array_sort_sorted by_count_desc (fun e => Z.of_N (snd e))
                by_count_desc_key counts) as Hsorted.
  assert (Hin' : In (t, n) (array_sort by_count_desc counts)).
  { apply (Permutation_in _ (Permutation_sym Hperm)), Hin. }
  apply in_split in Hin'. destruct Hin' as [l1 [l2 Hsplit]].
  rewrite Hsplit in Hperm, Hsorted |- *.
  apply StronglySorted_before in Hsorted. unfold descending in Hsorted. simpl in Hsorted.
  assert (Hnd' : NoDup (map fst (l1 ++ (t, n) :: l2))).
  { eapply Permutation_NoDup; [|exact Hnd].
    apply Permutation_map, Permutation_sym, Hperm. }
  rewrite map_app in Hnd'. simpl in Hnd'.
  pose proof (NoDup_remove_2 _ _ _ Hnd') as Hnot.
  apply NoDup_remove_1, NoDup_app_remove_r, NoDup_map_inv in Hnd'.
  assert (Hincl : incl l1 (filter (rival t n) counts)).
  { intros e He. apply filter_In. split.
    - apply (Permutation_in _ Hperm). apply in_or_app. left. exact He.
    - unfold rival. apply andb_true_iff. split.
      + apply negb_true_iff, jsstring_eqb_neq. intros Heq. apply Hnot.
        apply in_or_app. left. rewrite <- Heq. apply in_map, He.
      + rewrite Forall_forall in Hsorted. apply Hsorted in He. apply N.leb_le. lia. }
  pose proof (NoDup_incl_length Hnd' Hincl) as Hlen.
  unfold slice0. rewrite firstn_app. apply in_or_app. right.
  destruct (top - List.length l1)%nat as [|m] eqn:E; [lia|].
  simpl. left. reflexivity.
Qed.

Lemma In_buildSuggestions_tag (w : Managers) (history : list HistoryItem) (t : jsstring) :
  In t (getPopularTags w) -> In (tag_suggestion t) (buildSuggestions w history).
Proof.
  intros Ht. unfold buildSuggestions. apply in_or_app. right. apply in_or_app. right.
  apply (in_map tag_suggestion) in Ht. exact Ht.
Qed.

Lemma not_In_by_eqb (x : jsstring) (l : list jsstring) :
  existsb (jsstring_eqb x) l = false -> ~ In x l.
Proof.
  intros Hex Hin.
  assert (Ht : existsb (jsstring_eqb x) l = true).
  { apply existsb_exists. exists x. split; [exact Hin | apply jsstring_eqb_refl]. }
  congruence.
Qed.

(** C10 (as stated, refuted): with the tag "наука" on five published
    articles and no tag more frequent, [getSuggestions] for "на" leaves
    it out when eight search terms containing "на" stand before it in
    the pool, and also when five other tags, met earlier, are as
    frequent. *)
Lemma suggestions_can_miss_most_frequent_tag :
  (count_at (js "наука") (tagCounts science_managers) = 5 /\
   forallb (fun e => snd e <=? 5) (tagCounts science_managers) = true /\
   ~ In (js "наука") (map text (getSuggestions flooded_state (js "на")))) /\
  (count_at (js "наука") (tagCounts tied_managers) = 5 /\
   forallb (fun e => snd e <=? 5) (tagCounts tied_managers) = true /\
   ~ In (js "наука") (map text (getSuggestions tied_state (js "на")))).
Proof.
  split; (split; [vm_compute; reflexivity|]); (split; [vm_compute; reflexivity|]);
    apply not_In_by_eqb; vm_compute; reflexivity.
Qed.

Lemma science_tag_suggested :
  map text (getSuggestions science_state (js "на")) = [js "наука"].
Proof. vm_compute. reflexivity. Qed.

(** For the typed text "Нов" the three suggestions that start with it
    come first, as term, category, tag; the term and the tag that merely
    contain it follow, the term again first. *)
Lemma news_suggestions_ordered :
  map (fun sg => (sg_type sg, text sg)) (getSuggestions news_state (js "Нов")) =
  [ (term, js "новый"); (category, js "Новости"); (tag, js "новинки");
    (term, js "обновить"); (tag, js "обновление") ].
Proof. vm_compute. reflexivity. Qed.

(** C10 (amended): for any pool and any typed text, [getSuggestions]
    returns at most 8 suggestions, each from the pool and each containing
    the typed text case-insensitively (the lower case of the one holds
    the lower case of the other); in the returned order a suggestion
    that starts with the typed text goes before any that does not, and
    among suggestions alike in that respect a term goes before a
    category and a category before a tag; a pool entry containing the typed text is
    returned whenever fewer than 8 entries containing it stand before it
    in the pool; and a tag of the published articles that has fewer than
    five rivals (other tags at least as frequent) is in the pool after a
    build. *)
Theorem getSuggestions_contract (s : SearchManager) (q : jsstring) :
  (List.length (getSuggestions s q) <= 8)%nat /\
  (forall sg, In sg (getSuggestions s q) ->
              In sg (searchSuggestions s) /\
              includes (Unicode.toLowerCase (text sg)) (Unicode.toLowerCase q) = true) /\
  StronglySorted (goes_before q) (getSuggestions s q) /\
  (forall sg pre post,
      searchSuggestions s = pre ++ sg :: post ->
      matches_prefix q sg = true ->
      (List.length (filter (matches_prefix q) pre) < 8)%nat ->
      In sg (getSuggestions s q)) /\
  (forall w s0 t n,
      In (t, n) (tagCounts w) ->
      (List.length (filter (rival t n) (tagCounts w)) < 5)%nat ->
      In (tag_suggestion t) (searchSuggestions (buildSearchIndex w s0))).
Proof.
  rewrite getSuggestions_unfold.
  split; [|split; [|split; [|split]]].
  - rewrite array_sort_length. apply firstn_le_length.
  - intros sg Hsg. apply array_sort_In, In_firstn, filter_In in Hsg. exact Hsg.
  - eapply StronglySorted_impl; [unfold descending; apply sg_rank_goes_before|].
    apply (array_sort_sorted (suggestion_order (Unicode.toLowerCase q)) (sg_rank q)
                             (suggestion_order_key q)).
  - intros sg pre post Hpool Hm Hlen. apply array_sort_In. rewrite Hpool.
    apply In_firstn_filter; assumption.
  - intros w s0 t n Hin Hriv. simpl.
    apply In_buildSuggestions_tag. rewrite getPopularTags_counts.
    apply (in_map fst) in Hin as Hk.
    apply (few_rivals_in_top _ _ _ 5 (NoDup_keys_count_all _)) in Hin; [|exact Hriv].
    apply (in_map fst) in Hin. exact Hin.
Qed.

Lemma getSuggestions_contract_witness :
  (map (fun sg => (sg_type sg, text sg)) (getSuggestions news_state (js "Нов")) =
     [ (term, js "новый"); (category, js "Новости"); (tag, js "новинки");
       (term, js "обновить"); (tag, js "обновление") ] /\
   StronglySorted (goes_before (js "Нов")) (getSuggestions news_state (js "Нов"))) /\
  (searchSuggestions science_state =
     firstn 6 (searchSuggestions science_state) ++ tag_suggestion (js "наука") :: [] /\
   matches_prefix (js "на") (tag_suggestion (js "наука")) = true /\
   (List.length (filter (matches_prefix (js "на"))
                        (firstn 6 (searchSuggestions science_state))) < 8)%nat /\
   In (tag_suggestion (js "наука")) (getSuggestions science_state (js "на"))) /\
  (In (js "наука", 5) (tagCounts science_managers) /\
   (List.length (filter (rival (js "наука") 5) (tagCounts science_managers)) < 5)%nat /\
   In (tag_suggestion (js "наука"))
      (searchSuggestions (buildSearchIndex science_managers new_SearchManager))).
Proof.
  assert (H1 : searchSuggestions science_state =
               firstn 6 (searchSuggestions science_state)
               ++ tag_suggestion (js "наука") :: []) by (vm_compute; reflexivity).
  assert (H2 : matches_prefix (js "на") (tag_suggestion (js "наука")) = true)
    by (vm_compute; reflexivity).
  assert (H3 : (List.length (filter (matches_prefix (js "на"))
                                    (firstn 6 (searchSuggestions science_state))) < 8)%nat)
    by (vm_compute; lia).
  assert (H4 : In (js "наука", 5) (tagCounts science_managers))
    by (vm_compute; left; reflexivity).
  assert (H5 : (List.length (filter (rival (js "наука") 5)
                                    (tagCounts science_managers)) < 5)%nat)
    by (vm_compute; lia).
  pose proof (getSuggestions_contract science_state (js "на")) as [_ [_ [_ [Hd He]]]].
  pose proof (getSuggestions_contract news_state (js "Нов")) as [_ [_ [Hs _]]].
  split; [|split].
  - split; [vm_compute; reflexivity | exact Hs].
  - split; [exact H1|]. split; [exact H2|]. split; [exact H3|].
    exact (Hd _ _ _ H1 H2 H3).
  - split; [exact H4|]. split; [exact H5|].
    exact (He science_managers new_SearchManager _ _ H4 H5).
Defined.

(** * Further properties *)

(** ** Trimming and splitting *)

Lemma trimStart_split (s : jsstring) :
  exists lead, s = lead ++ trimStart s /\ Forall (fun c => is_space c = true) lead.
Proof.
  induction s as [|c r [lead [Heq Hall]]]; simpl.
  - exists []. split; [reflexivity | constructor].
  - destruct (is_space c) eqn:Ec.
    + exists (c :: lead). split; [simpl; f_equal; exact Heq | constructor; assumption].
    + exists []. split; [reflexivity | constructor].
Qed.

Lemma trimStart_head (s : jsstring) (c : N) (r : jsstring) :
  trimStart s = c :: r -> is_space c = false.
Proof.
  induction s as [|x s IH]; simpl; [discriminate|].
  destruct (is_space x) eqn:Ex; [exact IH|]. intros [= <- <-]. exact Ex.
Qed.

Lemma trimStart_fixed (s : jsstring) :
  (forall c r, s = c :: r -> is_space c = false) -> trimStart s = s.
Proof.
  destruct s as [|c r]; simpl; [reflexivity|]. intros H.
  rewrite (H c r eq_refl). reflexivity.
Qed.

Lemma trimStart_keeps_last (s : jsstring) (c : N) (r : jsstring) :
  trimStart s = r ++ [c] -> exists r', s = r' ++ [c].
Proof.
  intros H. destruct (trimStart_split s) as [lead [Heq _]].
  exists (lead ++ r). rewrite Heq at 1. rewrite H, app_assoc. reflexivity.
Qed.

Lemma trim_no_edge_space (s : jsstring) : no_edge_space (trim s).
Proof.
  unfold trim. split.
  - intros c r Heq.
    assert (Hrev : trimStart (rev (trimStart s)) = rev r ++ [c]).
    { rewrite <- (rev_involutive (trimStart (rev (trimStart s)))), Heq. reflexivity. }
    apply trimStart_keeps_last in Hrev. destruct Hrev as [r' Hr'].
    assert (Hs : trimStart s = c :: rev r').
    { rewrite <- (rev_involutive (trimStart s)), Hr', rev_app_distr. reflexivity. }
    apply trimStart_head in Hs. exact Hs.
  - intros c r Heq.
    assert (Hrev : trimStart (rev (trimStart s)) = c :: rev r).
    { rewrite <- (rev_involutive (trimStart (rev (trimStart s)))), Heq, rev_app_distr.
      reflexivity. }
    apply trimStart_head in Hrev. exact Hrev.
Qed.

Lemma trim_split (s : jsstring) :
  exists lead trail,
    s = lead ++ trim s ++ trail /\
    Forall (fun c => is_space c = true) lead /\
    Forall (fun c => is_space c = true) trail.
Proof.
  destruct (trimStart_split s) as [lead [Hs Hlead]].
  destruct (trimStart_split (rev (trimStart s))) as [trail [Hr Htrail]].
  exists lead, (rev trail). split; [|split].
  - unfold trim. rewrite Hs at 1. f_equal.
    rewrite <- rev_app_distr, <- Hr, rev_involutive. reflexivity.
  - exact Hlead.
  - apply Forall_rev. exact Htrail.
Qed.

Lemma trim_fixed (t : jsstring) : no_edge_space t -> trim t = t.
Proof.
  intros [Hfirst Hlast]. unfold trim.
  rewrite (trimStart_fixed t Hfirst).
  rewrite trimStart_fixed; [apply rev_involutive|].
  intros c r Heq. apply (Hlast c (rev r)).
  rewrite <- (rev_involutive t), Heq. reflexivity.
Qed.

Lemma trim_after_space (t : jsstring) :
  t <> [] -> no_edge_space t -> trim (0x20 :: t) = t.
Proof.
  intros Hne Hclean. unfold trim. simpl trimStart.
  destruct t as [|c r]; [congruence|].
  fold (trim (c :: r)). apply trim_fixed, Hclean.
Qed.

Lemma trim_length (s : jsstring) : (List.length (trim s) <= List.length s)%nat.
Proof.
  destruct (trim_split s) as [lead [trail [Heq _]]].
  rewrite Heq at 2. rewrite !length_app. lia.
Qed.

Lemma trim_In (s : jsstring) (c : N) : In c (trim s) -> In c s.
Proof.
  destruct (trim_split s) as [lead [trail [Heq _]]]. intros H.
  rewrite Heq. apply in_or_app. right. apply in_or_app. left. exact H.
Qed.

Lemma split_on_pieces (sep : N) (s piece : jsstring) :
  In piece (split_on sep s) -> ~ In sep piece.
Proof.
  revert piece. induction s as [|c r IH]; simpl; intros piece Hin.
  - destruct Hin as [<-|[]]. simpl. tauto.
  - destruct (N.eqb_spec c sep) as [->|Hne].
    + destruct Hin as [<-|Hin]; [simpl; tauto | apply IH, Hin].
    + destruct (split_on sep r) as [|h t] eqn:Es.
      * destruct Hin as [<-|[]]. simpl. intros [H|[]]. congruence.
      * destruct Hin as [<-|Hin].
        -- simpl. intros [H|H]; [congruence|]. apply (IH h); [left; reflexivity | exact H].
        -- apply IH. right. exact Hin.
Qed.

Lemma split_on_whole (sep : N) (a : jsstring) : ~ In sep a -> split_on sep a = [a].
Proof.
  induction a as [|c r IH]; simpl; intros H; [reflexivity|].
  destruct (N.eqb_spec c sep) as [->|Hne]; [tauto|].
  rewrite IH by tauto. reflexivity.
Qed.

Lemma split_on_app (sep : N) (a b : jsstring) :
  ~ In sep a -> split_on sep (a ++ sep :: b) = a :: split_on sep b.
Proof.
  induction a as [|c r IH]; simpl; intros H.
  - rewrite N.eqb_refl. reflexivity.
  - destruct (N.eqb_spec c sep) as [->|Hne]; [tauto|].
    rewrite IH by tauto. reflexivity.
Qed.

(** ** parseTags *)

Lemma join_comma_cons (t t2 : jsstring) (rest : list jsstring) :
  join (js ", ") (t :: t2 :: rest) = t ++ 0x2C :: 0x20 :: join (js ", ") (t2 :: rest).
Proof. reflexivity. Qed.

Lemma split_joined_tags (tags : list jsstring) (lead : jsstring) :
  tags <> [] -> Forall clean_tag tags -> lead = [] \/ lead = [0x20] ->
  map trim (split_on 0x2C (lead ++ join (js ", ") tags)) = tags.
Proof.
  intros Hne Hall. revert lead.
  induction Hall as [|t rest [Ht [Hcomma Hedge]] Hrest IH]; [congruence|].
  intros lead Hlead.
  assert (Hlc : ~ In 0x2C (lead ++ t)).
  { intros H. apply in_app_iff in H. destruct H as [H|H]; [|tauto].
    destruct Hlead as [-> | ->]; simpl in H; [tauto|].
    destruct H as [H|[]]. discriminate H. }
  assert (Htrim : trim (lead ++ t) = t).
  { destruct Hlead as [-> | ->]; simpl app.
    - apply trim_fixed, Hedge.
    - apply trim_after_space; assumption. }
  destruct rest as [|t2 rest].
  - simpl join. rewrite split_on_whole by exact Hlc. simpl. rewrite Htrim. reflexivity.
  - rewrite join_comma_cons, app_assoc, split_on_app by exact Hlc.
    simpl map. rewrite Htrim. f_equal.
    apply (IH ltac:(discriminate) [0x20]). right. reflexivity.
Qed.

(** X8: every tag [parseTags] returns is non-empty, holds no comma and
    has no white space at either end; and parsing the tags of an article
    joined with ", " (the way the edit form shows them) gives the tags
    back, whenever they are such tags. *)
Theorem parseTags_round_trip (tagsString : jsstring) (tags : list jsstring) :
  Forall clean_tag (parseTags tagsString) /\
  (Forall clean_tag tags -> parseTags (join (js ", ") tags) = tags).
Proof.
  split.
  - unfold parseTags. destruct tagsString as [|c r]; [constructor|].
    apply Forall_forall. intros tag Htag. apply filter_In in Htag.
    destruct Htag as [Hin Hlen]. apply in_map_iff in Hin.
    destruct Hin as [piece [<- Hpiece]]. split; [|split].
    + intros Heq. rewrite Heq in Hlen. discriminate Hlen.
    + intros Hc. apply trim_In in Hc. apply (split_on_pieces _ _ _ Hpiece Hc).
    + apply trim_no_edge_space.
  - intros Hall. destruct tags as [|t rest]; [reflexivity|].
    pose proof (split_joined_tags (t :: rest) [] ltac:(discriminate) Hall
                  (or_introl eq_refl)) as Hsplit.
    rewrite app_nil_l in Hsplit. unfold parseTags.
    destruct (join (js ", ") (t :: rest)) as [|c r] eqn:Ej.
    + exfalso. destruct rest as [|t2 rest].
      * simpl in Ej. inversion Hall as [|? ? [Ht _] _]; subst. congruence.
      * rewrite join_comma_cons in Ej. destruct t; discriminate Ej.
    + rewrite Hsplit. apply forallb_filter_id. apply forallb_forall.
      intros x Hx. rewrite Forall_forall in Hall. destruct (Hall x Hx) as [Hx0 _].
      destruct x; [congruence | reflexivity].
Qed.

Lemma parseTags_round_trip_witness :
  Forall clean_tag (parseTags (js " наука ,, добро пожаловать,")) /\
  parseTags (join (js ", ") (parseTags (js " наука ,, добро пожаловать,"))) =
  parseTags (js " наука ,, добро пожаловать,").
Proof.
  assert (H : Forall clean_tag (parseTags (js " наука ,, добро пожаловать,"))).
  { apply (proj1 (parseTags_round_trip (js " наука ,, добро пожаловать,") [])). }
  split; [exact H|].
  exact (proj2 (parseTags_round_trip [] (parseTags (js " наука ,, добро пожаловать,"))) H).
Defined.

(** ** Formatter.truncate *)

(** X7: [truncate] returns a text of at most [length] code units as it
    is; a longer text is cut to its first [length] units, trimmed of
    white space at both ends, and followed by the suffix, so that the
    result never has more than [length] plus the suffix's units. *)
Theorem truncate_bounds (text : jsstring) (n : nat) (suffix : jsstring) :
  ((List.length text <= n)%nat -> truncate text n suffix = text) /\
  ((n < List.length text)%nat ->
   exists lead body trail,
     firstn n text = lead ++ body ++ trail /\
     Forall (fun c => is_space c = true) lead /\
     Forall (fun c => is_space c = true) trail /\
     no_edge_space body /\
     truncate text n suffix = body ++ suffix /\
     (List.length (truncate text n suffix) <= n + List.length suffix)%nat).
Proof.
  unfold truncate. split.
  - intros Hle. apply Nat.leb_le in Hle. rewrite Hle, orb_true_r. reflexivity.
  - intros Hlt.
    assert (Hnle : (List.length text <=? n)%nat = false) by (apply Nat.leb_gt; exact Hlt).
    destruct text as [|c r]; [simpl in Hlt; lia|].
    rewrite Hnle. cbn [orb].
    destruct (trim_split (firstn n (c :: r))) as [lead [trail [Heq [Hl Ht]]]].
    exists lead, (trim (firstn n (c :: r))), trail.
    repeat split; try assumption; try apply trim_no_edge_space.
    rewrite length_app. pose proof (trim_length (firstn n (c :: r))) as Htl.
    pose proof (firstn_le_length n (c :: r)) as Hfl. lia.
Qed.

Lemma truncate_bounds_witness :
  (List.length (js "Погода") <= 120)%nat /\
  truncate (js "Погода") 120 (js "...") = js "Погода".
Proof.
  assert (H : (List.length (js "Погода") <= 120)%nat) by (vm_compute; lia).
  split; [exact H|].
  exact (proj1 (truncate_bounds (js "Погода") 120 (js "...")) H).
Defined.

(** ** Stripping tags *)

Lemma strip_pending_open (p s : jsstring) :
  ~ In 0x3E s -> strip_tags_from (Some p) s = rev p ++ s.
Proof.
  revert p. induction s as [|c r IH]; intros p H; simpl.
  - rewrite app_nil_r. reflexivity.
  - destruct (N.eqb_spec c 0x3E) as [->|Hne]; [exfalso; apply H; left; reflexivity|].
    rewrite IH by (intros Hin; apply H; right; exact Hin).
    simpl. rewrite <- app_assoc. reflexivity.
Qed.

Lemma strip_pending_closed (p a b : jsstring) :
  ~ In 0x3E a ->
  strip_tags_from (Some p) (a ++ 0x3E :: b) = strip_tags_from None b.
Proof.
  revert p. induction a as [|c r IH]; intros p H; simpl.
  - reflexivity.
  - destruct (N.eqb_spec c 0x3E) as [->|Hne]; [exfalso; apply H; left; reflexivity|].
    apply IH. intros Hin; apply H; right; exact Hin.
Qed.

Lemma first_close (s : jsstring) :
  ~ In 0x3E s \/ exists a b, s = a ++ 0x3E :: b /\ ~ In 0x3E a.
Proof.
  induction s as [|c r [IH|[a [b [Heq Ha]]]]].
  - left. simpl. tauto.
  - destruct (N.eq_dec c 0x3E) as [->|Hne].
    + right. exists [], r. split; [reflexivity | simpl; tauto].
    + left. simpl. tauto.
  - destruct (N.eq_dec c 0x3E) as [->|Hne].
    + right. exists [], r. split; [reflexivity | simpl; tauto].
    + right. exists (c :: a), b. split; [simpl; f_equal; exact Heq | simpl; tauto].
Qed.

Lemma no_tag_cons (c : N) (s : jsstring) : c <> 0x3C -> no_tag s -> no_tag (c :: s).
Proof.
  intros Hc Hs pre post Heq. destruct pre as [|x pre]; simpl in Heq.
  - injection Heq as -> _. congruence.
  - injection Heq as _ Heq. apply (Hs pre post Heq).
Qed.

Lemma no_tag_tail (c : N) (s : jsstring) : no_tag (c :: s) -> no_tag s.
Proof. intros H pre post Heq. apply (H (c :: pre) post). simpl. f_equal. exact Heq. Qed.

Lemma no_tag_without_close (s : jsstring) : ~ In 0x3E s -> no_tag s.
Proof.
  intros H pre post Heq Hin. apply H. rewrite Heq.
  apply in_or_app. right. right. exact Hin.
Qed.

Lemma strip_tags_no_tag_bounded (n : nat) (s : jsstring) :
  (List.length s <= n)%nat -> no_tag (strip_tags_from None s).
Proof.
  revert s. induction n as [|n IH]; intros s Hlen.
  - destruct s; [|simpl in Hlen; lia]. intros pre post Heq. destruct pre; discriminate Heq.
  - destruct s as [|c r]; [intros pre post Heq; destruct pre; discriminate Heq|].
    simpl in Hlen. simpl. destruct (N.eqb_spec c 0x3C) as [->|Hne].
    + destruct (first_close r) as [Hopen|[a [b [Heq Ha]]]].
      * rewrite strip_pending_open by exact Hopen. simpl.
        apply no_tag_without_close. simpl. intros [H|H]; [discriminate H | tauto].
      * subst r. rewrite strip_pending_closed by exact Ha. apply IH.
        rewrite length_app in Hlen. simpl in Hlen. lia.
    + apply no_tag_cons; [exact Hne|]. apply IH. lia.
Qed.

Lemma strip_tags_fixed (s : jsstring) : no_tag s -> strip_tags_from None s = s.
Proof.
  induction s as [|c r IH]; intros H; simpl; [reflexivity|].
  destruct (N.eqb_spec c 0x3C) as [->|Hne].
  - rewrite strip_pending_open; [reflexivity|]. apply (H [] r). reflexivity.
  - f_equal. apply IH. eapply no_tag_tail, H.
Qed.

Lemma strip_tags_from_In (pending : option jsstring) (s : jsstring) (c : N) :
  In c (strip_tags_from pending s) ->
  In c s \/ match pending with Some p => In c p | None => False end.
Proof.
  revert pending. induction s as [|x r IH]; intros pending; simpl.
  - destruct pending as [p|]; [|tauto]. intros H. right. apply in_rev. exact H.
  - destruct pending as [p|].
    + destruct (x =? 0x3E).
      * intros H. apply IH in H. tauto.
      * intros H. apply IH in H. simpl in H. tauto.
    + destruct (x =? 0x3C).
      * intros H. apply IH in H. simpl in H. tauto.
      * intros [H|H]; [tauto|]. apply IH in H. tauto.
Qed.

(** X6: the text that [indexArticle] tokenises after removing the tags
    of the body holds no [<] with a [>] anywhere after it; a text that
    holds none to begin with is left as it is, so stripping twice is
    stripping once; and every unit kept is a unit of the body. *)
Theorem strip_tags_leaves_no_tag (s : jsstring) :
  no_tag (strip_tags s) /\
  (no_tag s -> strip_tags s = s) /\
  strip_tags (strip_tags s) = strip_tags s /\
  (forall c, In c (strip_tags s) -> In c s).
Proof.
  unfold strip_tags.
  assert (Hnt : no_tag (strip_tags_from None s)).
  { apply (strip_tags_no_tag_bounded (List.length s)). lia. }
  split; [exact Hnt|]. split; [apply strip_tags_fixed|]. split.
  - apply strip_tags_fixed, Hnt.
  - intros c Hc. apply strip_tags_from_In in Hc. tauto.
Qed.

Lemma strip_tags_leaves_no_tag_witness :
  no_tag (js "a > b < c") /\ strip_tags (js "a > b < c") = js "a > b < c".
Proof.
  assert (H : no_tag (js "a > b < c")).
  { apply (proj1 (strip_tags_leaves_no_tag (js "a > b < c"))). }
  split; [exact H|].
  exact (proj1 (proj2 (strip_tags_leaves_no_tag (js "a > b < c"))) H).
Defined.

(** ** Tokens of a joined text *)

Section SplitAppend.
Variable keep : jsstring -> bool.
Hypothesis keep_nil : keep [] = false.

Lemma split_ws_cons (c : N) (r : jsstring) :
  split_ws (c :: r) =
  if is_space c then
    match r with
    | c' :: _ => if is_space c' then split_ws r else [] :: split_ws r
    | [] => [] :: split_ws r
    end
  else
    match split_ws r with
    | h :: t => (c :: h) :: t
    | [] => [[c]]
    end.
Proof. reflexivity. Qed.

Lemma split_ws_space_head (c : N) (r : jsstring) :
  is_space c = true -> exists t, split_ws (c :: r) = [] :: t.
Proof.
  revert c. induction r as [|c' r IH]; intros c Hc.
  - simpl. rewrite Hc. eauto.
  - rewrite split_ws_cons, Hc. destruct (is_space c') eqn:Ec'.
    + apply IH, Ec'.
    + eauto.
Qed.

Lemma split_ws_space_skip (c : N) (r : jsstring) :
  is_space c = true -> filter keep (split_ws (c :: r)) = filter keep (split_ws r).
Proof.
  intros Hc. rewrite split_ws_cons, Hc. destruct r as [|c' r'].
  - simpl. rewrite keep_nil. reflexivity.
  - destruct (is_space c'); [reflexivity|].
    cbn [filter]. rewrite keep_nil. reflexivity.
Qed.

Lemma split_ws_nonempty (s : jsstring) : exists h t, split_ws s = h :: t.
Proof.
  induction s as [|c r [h [t IH]]]; [simpl; eauto|].
  rewrite split_ws_cons. destruct (is_space c).
  - destruct r as [|c' r']; [eauto|]. destruct (is_space c'); eauto.
  - rewrite IH. eauto.
Qed.

Lemma split_ws_append (sp : N) (x y : jsstring) :
  is_space sp = true ->
  exists h t t',
    split_ws x = h :: t /\
    split_ws (x ++ sp :: y) = h :: t' /\
    filter keep t' = filter keep t ++ filter keep (split_ws y).
Proof.
  intros Hsp. induction x as [|c x' [h [t [t' [Hx [Hxy Hf]]]]]].
  - destruct (split_ws_space_head sp y Hsp) as [t' Ht'].
    exists [], [], t'. split; [reflexivity|]. split; [exact Ht'|].
    pose proof (split_ws_space_skip sp y Hsp) as Hskip.
    rewrite Ht' in Hskip. cbn [filter] in Hskip. rewrite keep_nil in Hskip.
    simpl. exact Hskip.
  - destruct (is_space c) eqn:Ec.
    + destruct (split_ws_space_head c x' Ec) as [u Hu].
      destruct (split_ws_space_head c (x' ++ sp :: y) Ec) as [u' Hu'].
      exists [], u, u'. split; [exact Hu|]. split; [exact Hu'|].
      pose proof (split_ws_space_skip c x' Ec) as H1.
      pose proof (split_ws_space_skip c (x' ++ sp :: y) Ec) as H2.
      rewrite Hu, Hx in H1. rewrite Hu', Hxy in H2.
      cbn [filter] in H1, H2. rewrite keep_nil in H1, H2.
      rewrite H2, H1. destruct (keep h); simpl; rewrite Hf; reflexivity.
    + exists (c :: h), t, t'. simpl app.
      rewrite (split_ws_cons c x'), (split_ws_cons c (x' ++ sp :: y)), Ec, Hx, Hxy. auto.
Qed.

Lemma filter_split_ws_append (sp : N) (x y : jsstring) :
  is_space sp = true ->
  filter keep (split_ws (x ++ sp :: y)) =
  filter keep (split_ws x) ++ filter keep (split_ws y).
Proof.
  intros Hsp. destruct (split_ws_append sp x y Hsp) as [h [t [t' [Hx [Hxy Hf]]]]].
  rewrite Hx, Hxy. cbn [filter]. destruct (keep h); simpl; rewrite Hf; reflexivity.
Qed.
End SplitAppend.

Lemma toLowerCase_app (a b : jsstring) :
  toLowerCase (a ++ b) = toLowerCase a ++ toLowerCase b.
Proof. unfold toLowerCase. apply flat_map_app. Qed.

Lemma toLowerCase_cu_idem (c c' : N) :
  In c' (toLowerCase_cu c) -> toLowerCase_cu c' = [c'].
Proof.
  unfold toLowerCase_cu. intros Hin.
  destruct (in_range 65 90 c) eqn:E1;
    [|destruct (in_range 1040 1071 c) eqn:E2;
      [|destruct (in_range 1024 1039 c) eqn:E3;
        [|destruct (c =? 304) eqn:E4; [|destruct (c =? 8490) eqn:E5]]]];
    simpl in Hin;
    repeat match goal with
      | H : _ \/ _ |- _ => destruct H
      | H : False |- _ => destruct H
      end; subst;
    unfold in_range in *;
    repeat match goal with
      | H : _ = true |- _ =>
          progress rewrite ?andb_true_iff, ?N.leb_le, ?N.eqb_eq in H
      | H : _ = false |- _ =>
          progress rewrite ?andb_false_iff, ?N.leb_gt, ?N.eqb_neq in H
      end;
    repeat match goal with
      | |- context [(?a <=? ?b) && (?x <=? ?y)] =>
          let E := fresh in
          destruct ((a <=? b) && (x <=? y)) eqn:E;
          [apply andb_true_iff in E; rewrite !N.leb_le in E; exfalso; lia|]
      | |- context [?a =? ?b] =>
          let E := fresh in
          destruct (a =? b) eqn:E; [apply N.eqb_eq in E; exfalso; lia|]
      end; reflexivity.
Qed.

Lemma toLowerCase_idem (s : jsstring) : toLowerCase (toLowerCase s) = toLowerCase s.
Proof.
  unfold toLowerCase. induction s as [|c r IH]; [reflexivity|].
  cbn [flat_map]. rewrite flat_map_app, IH. f_equal.
  assert (H : forall l, (forall c', In c' l -> toLowerCase_cu c' = [c']) ->
                        flat_map toLowerCase_cu l = l).
  { induction l as [|x l IHl]; intros Hl; [reflexivity|].
    cbn [flat_map]. rewrite (Hl x (or_introl eq_refl)), IHl;
      [reflexivity | intros c' Hc'; apply Hl; right; exact Hc']. }
  apply H. intros c'. apply toLowerCase_cu_idem.
Qed.

Lemma extractWords_lower (s : jsstring) : extractWords (toLowerCase s) = extractWords s.
Proof. unfold extractWords. rewrite toLowerCase_idem. reflexivity. Qed.

Lemma extractWords_space (x y : jsstring) :
  extractWords (x ++ 0x20 :: y) = extractWords x ++ extractWords y.
Proof.
  unfold extractWords, replace_non_word.
  rewrite toLowerCase_app. cbn [toLowerCase flat_map].
  change (toLowerCase_cu 32) with [32]. cbn [app].
  fold (toLowerCase y). rewrite map_app. cbn [map].
  change (if class_member_ci 32 then 32 else 32) with 32.
  apply filter_split_ws_append; reflexivity.
Qed.

Lemma extractWords_join (parts : list jsstring) :
  extractWords (join (js " ") parts) = flat_map extractWords parts.
Proof.
  induction parts as [|p rest IH]; [reflexivity|].
  destruct rest as [|p2 rest].
  - simpl. rewrite app_nil_r. reflexivity.
  - change (join (js " ") (p :: p2 :: rest))
      with (p ++ 0x20 :: join (js " ") (p2 :: rest)).
    rewrite extractWords_space, IH. reflexivity.
Qed.

(** X12: the tokens of an article are the tokens of its title, of its
    lead, of its body without tags, of each tag and of its category
    label, in that order and nothing else; those of a user are the
    tokens of the first name, the last name and the bio. *)
Theorem searchable_words_by_field (a : Article.t) (u : User.t) :
  article_words a =
    extractWords (Article.title a) ++ extractWords (Article.lead a)
    ++ extractWords (strip_tags (Article.content a))
    ++ flat_map extractWords (Article.tags a)
    ++ extractWords (category_label a) /\
  user_words u =
    extractWords (User.firstName u) ++ extractWords (User.lastName u)
    ++ extractWords (bio_or_empty u).
Proof.
  unfold article_words, article_searchableText, user_words, user_searchableText.
  rewrite !extractWords_lower, !extractWords_join. split.
  - cbn [flat_map app]. rewrite flat_map_app. cbn [flat_map].
    rewrite app_nil_r. reflexivity.
  - cbn [flat_map]. rewrite app_nil_r. reflexivity.
Qed.

(** ** Which documents a query finds *)

Lemma occurrences_In (w : jsstring) (words : list jsstring) :
  (0 < occurrences w words)%nat <-> In w words.
Proof.
  unfold occurrences. induction words as [|x words IH]; simpl; [split; [lia|tauto]|].
  eqb_cases w x; simpl.
  - subst. split; [auto | lia].
  - rewrite IH. split; [auto|]. intros [H|H]; [congruence | exact H].
Qed.

Lemma In_repeat_iff {A} (x y : A) (n : nat) : In y (repeat x n) <-> y = x /\ (0 < n)%nat.
Proof.
  split.
  - intros H. split; [apply (repeat_spec _ _ _ H)|]. destruct n; [destruct H | lia].
  - intros [-> Hn]. destruct n; [lia | left; reflexivity].
Qed.

Lemma In_postings_at_build (word : jsstring) (w : Managers) (s : SearchManager) (p : Posting) :
  In p (postings_at word (searchIndex (buildSearchIndex w s))) <->
  (exists a, In a (articles_of w) /\ is_published a = true /\
             In word (article_words a) /\ p = article_posting word a) \/
  (exists u, In u (users_of w) /\ In word (user_words u) /\ p = user_posting u).
Proof.
  rewrite postings_at_build, in_app_iff, !in_flat_map. split.
  - intros [[a [Ha Hp]]|[u [Hu Hp]]]; apply In_repeat_iff in Hp; destruct Hp as [-> Hn];
      apply occurrences_In in Hn.
    + left. exists a. apply filter_In in Ha. tauto.
    + right. exists u. tauto.
  - intros [[a [Ha [Hpub [Hw ->]]]]|[u [Hu [Hw ->]]]].
    + left. exists a. split; [apply filter_In; auto|].
      apply In_repeat_iff. split; [reflexivity | apply occurrences_In, Hw].
    + right. exists u. split; [exact Hu|].
      apply In_repeat_iff. split; [reflexivity | apply occurrences_In, Hw].
Qed.

Lemma In_matched_postings (idx : SearchIndex) (q : jsstring) (p : Posting) :
  NoDup (JsMap.keys idx) ->
  In p (matched_postings idx q) <->
  exists word t, In word (extractWords q) /\ includes t word = true /\
                 In p (postings_at t idx).
Proof.
  intros Hnd. unfold matched_postings. rewrite in_flat_map. split.
  - intros [word [Hw Hp]]. apply in_flat_map in Hp. destruct Hp as [[t ps] [Hin Hp]].
    destruct (includes t word) eqn:Hi; [|destruct Hp].
    exists word, t. repeat split; try assumption.
    apply postings_at_In; eauto.
  - intros [word [t [Hw [Hi Hp]]]]. exists word. split; [exact Hw|].
    apply postings_at_In in Hp; [|exact Hnd]. destruct Hp as [ps [Hin Hp]].
    apply in_flat_map. exists (t, ps). rewrite Hi. auto.
Qed.

(** X10: the documents a query ranks, before truncation, are exactly
    the published articles and the users of the snapshot one of whose
    tokens contains a token of the query: nothing else is found, and
    nothing of these is missed. *)
Theorem query_finds_exactly_the_hits
        (w : Managers) (s : SearchManager) (q : jsstring) (d : DocType * jsstring) :
  In d (map (fun r => doc_ref (result r))
            (ranked (searchIndex (buildSearchIndex w s)) q)) <->
  (exists a, In a (articles_of w) /\ is_published a = true /\
             d = (article, Article.id a) /\ token_hit q (article_words a)) \/
  (exists u, In u (users_of w) /\ d = (author, User.id u) /\
             token_hit q (user_words u)).
Proof.
  pose proof (NoDup_keys_build w s) as Hnd.
  set (idx := searchIndex (buildSearchIndex w s)) in *.
  assert (Hperm : Permutation (map (fun r => doc_ref (result r)) (ranked idx q))
                              (distinct_docs (matched_postings idx q))).
  { rewrite (ranked_perm idx q). apply result_docs_perm, Hnd. }
  split.
  - intros Hd. apply (Permutation_in _ Hperm) in Hd. apply In_distinct_docs in Hd.
    destruct Hd as [p [Hp Hdoc]]. apply (In_matched_postings idx q p Hnd) in Hp.
    destruct Hp as [word [t [Hw [Hi Hp]]]]. apply In_postings_at_build in Hp.
    destruct Hp as [[a [Ha [Hpub [Ht ->]]]]|[u [Hu [Ht ->]]]].
    + left. exists a. repeat split; try assumption; [symmetry; exact Hdoc|].
      exists word, t. auto.
    + right. exists u. repeat split; try assumption; [symmetry; exact Hdoc|].
      exists word, t. auto.
  - intros Hhit. apply (Permutation_in _ (Permutation_sym Hperm)).
    apply In_distinct_docs.
    destruct Hhit as [[a [Ha [Hpub [-> [word [t [Hw [Ht Hi]]]]]]]]
                     |[u [Hu [-> [word [t [Hw [Ht Hi]]]]]]]].
    + exists (article_posting t a). split; [|reflexivity].
      apply (In_matched_postings idx q _ Hnd). exists word, t.
      repeat split; try assumption. apply In_postings_at_build. left. exists a. auto.
    + exists (user_posting u). split; [|reflexivity].
      apply (In_matched_postings idx q _ Hnd). exists word, t.
      repeat split; try assumption. apply In_postings_at_build. right. exists u. auto.
Qed.

Lemma query_finds_exactly_the_hits_witness :
  ((exists a, In a (articles_of rally_managers) /\ is_published a = true /\
              (article, js "article-b") = (article, Article.id a) /\
              token_hit (js "Митинг!") (article_words a)) \/
   (exists u, In u (users_of rally_managers) /\
              (article, js "article-b") = (author, User.id u) /\
              token_hit (js "Митинг!") (user_words u))) /\
  In (article, js "article-b")
     (map (fun r => doc_ref (result r))
          (ranked (searchIndex (buildSearchIndex rally_managers new_SearchManager))
                  (js "Митинг!"))).
Proof.
  assert (H : (exists a, In a (articles_of rally_managers) /\ is_published a = true /\
                         (article, js "article-b") = (article, Article.id a) /\
                         token_hit (js "Митинг!") (article_words a)) \/
              (exists u, In u (users_of rally_managers) /\
                         (article, js "article-b") = (author, User.id u) /\
                         token_hit (js "Митинг!") (user_words u))).
  { left. exists weather_week. split; [right; left; reflexivity|].
    split; [reflexivity|]. split; [reflexivity|].
    exists (js "митинг"), (js "митинг"). split; [left; reflexivity|].
    split; [|reflexivity]. vm_compute. auto 20. }
  split; [exact H|].
  exact (proj2 (query_finds_exactly_the_hits rally_managers new_SearchManager
                  (js "Митинг!") (article, js "article-b")) H).
Defined.

(** ** Scores are positive *)

Lemma N_sum_In {A} (f : A -> N) (x : A) (l : list A) : In x l -> f x <= N_sum (map f l).
Proof.
  induction l as [|y l IH]; simpl; [tauto|].
  intros [->|H]; [lia|]. apply IH in H. lia.
Qed.

Lemma doc_weight_In (f : Posting -> N) (p : Posting) (ps : list Posting) :
  In p ps -> f p <= doc_weight (result_key p) f ps.
Proof.
  intros Hin. unfold doc_weight.
  pose proof (N_sum_In (fun p0 => if jsstring_eqb (result_key p0) (result_key p)
                                  then f p0 else 0) p ps Hin) as H.
  cbv beta in H. rewrite jsstring_eqb_refl in H. exact H.
Qed.

Lemma doc_weight_mono (k : jsstring) (f g : Posting -> N) (ps : list Posting) :
  (forall p, f p <= g p) -> doc_weight k f ps <= doc_weight k g ps.
Proof.
  intros Hfg. unfold doc_weight. induction ps as [|p ps IH]; simpl; [lia|].
  destruct (jsstring_eqb (result_key p) k); [specialize (Hfg p)|]; lia.
Qed.

Lemma token_contribution_lower (idx : SearchIndex) (word t : jsstring)
      (ps : list Posting) (p : Posting) :
  In (t, ps) idx -> includes t word = true -> In p ps ->
  relevance p <= token_contribution idx word (result_key p).
Proof.
  intros Hin Hi Hp. unfold token_contribution.
  etransitivity;
    [|apply (N_sum_In (fun e : jsstring * list Posting =>
                let '(indexWord, ps0) := e in
                if jsstring_eqb indexWord word
                then doc_weight (result_key p) (fun p0 => 2 * relevance p0) ps0
                else if includes indexWord word
                     then doc_weight (result_key p) relevance ps0 else 0)
              (t, ps) idx Hin)].
  cbv beta iota. rewrite Hi.
  pose proof (doc_weight_In relevance p ps Hp) as H1.
  pose proof (doc_weight_mono (result_key p) relevance (fun p0 => 2 * relevance p0) ps
                ltac:(intros; cbv beta; lia)) as H2. cbv beta in H2.
  destruct (jsstring_eqb t word); lia.
Qed.

Lemma built_relevance_positive (w : Managers) (s : SearchManager)
      (word : jsstring) (ps : list Posting) (p : Posting) :
  In (word, ps) (searchIndex (buildSearchIndex w s)) -> In p ps -> 1 <= relevance p.
Proof.
  intros Hin Hp.
  destruct (built_posting_origin w s word ps p Hin Hp) as [[a [_ [_ ->]]]|[u [_ ->]]].
  - simpl. unfold calculateWordRelevance.
    destruct (includes (toLowerCase (Article.title a)) word),
      (includes (toLowerCase (Article.lead a)) word),
      (existsb (fun tag => includes (toLowerCase tag) word) (Article.tags a)); lia.
  - simpl. lia.
Qed.

(** X11: every result a query over a built index returns has a score
    of at least one half (the unit of [score] here): no document with
    score zero is ever returned, though the code has no step that drops
    them. *)
Theorem returned_scores_are_positive
        (w : Managers) (s : SearchManager) (q : jsstring) (r : ScoredResult) :
  In r (articles (searchInIndex (searchIndex (buildSearchIndex w s)) q)
        ++ authors (searchInIndex (searchIndex (buildSearchIndex w s)) q)) ->
  1 <= score r.
Proof.
  intros Hr. pose proof (NoDup_keys_build w s) as Hnd.
  set (idx := searchIndex (buildSearchIndex w s)) in *.
  apply In_results_ranked in Hr.
  rewrite (score_of_listed_result idx Hnd q r Hr).
  assert (Hk : In (result_key (result r)) (JsMap.keys (score_words idx (extractWords q)))).
  { rewrite (keys_of_well_keyed _ (NoDup_keys_score_words idx (extractWords q))
               (well_keyed_score_words idx (extractWords q))).
    apply (in_map (fun r0 => result_key (result r0))), Hr. }
  apply (In_keys_score_words idx Hnd) in Hk. destruct Hk as [p [Hp Hkey]].
  unfold matched_postings in Hp. apply in_flat_map in Hp. destruct Hp as [word [Hw Hp]].
  apply in_flat_map in Hp. destruct Hp as [[t ps] [Hin Hp]].
  destruct (includes t word) eqn:Hi; [|destruct Hp].
  pose proof (built_relevance_positive w s t ps p Hin Hp) as Hpos.
  pose proof (token_contribution_lower idx word t ps p Hin Hi Hp) as Hlow.
  rewrite Hkey in Hlow. unfold expected_score.
  pose proof (N_sum_In (fun word0 => token_contribution idx word0 (result_key (result r)))
                word (extractWords q) Hw) as Hsum.
  cbv beta in Hsum. lia.
Qed.

Lemma returned_scores_are_positive_witness :
  let r := {| result := article_posting (js "митинг") rally_report; score := 16 |} in
  In r (articles (searchInIndex (searchIndex (buildSearchIndex rally_managers
                                                               new_SearchManager))
                                (js "митинг"))
        ++ authors (searchInIndex (searchIndex (buildSearchIndex rally_managers
                                                                 new_SearchManager))
                                  (js "митинг"))) /\
  1 <= score r.
Proof.
  intros r.
  assert (H : In r (articles (searchInIndex (searchIndex (buildSearchIndex rally_managers
                                                               new_SearchManager))
                                (js "митинг"))
        ++ authors (searchInIndex (searchIndex (buildSearchIndex rally_managers
                                                                 new_SearchManager))
                                  (js "митинг")))).
  { vm_compute. left. reflexivity. }
  split; [exact H|].
  exact (returned_scores_are_positive rally_managers new_SearchManager (js "митинг") r H).
Defined.

(** ** The search history *)

Lemma searchHistory_add (q : jsstring) (n : nat) (now : jsstring) (s : SearchManager) :
  searchHistory (addToSearchHistory q n now s) =
  firstn 50 ({| h_query := q; resultsCount := n; timestamp := now |}
               :: filter (fun item => negb (jsstring_eqb (h_query item) q))
                         (searchHistory s)).
Proof.
  unfold addToSearchHistory, saveSearchHistory. cbn [searchHistory].
  set (h := {| h_query := q; resultsCount := n; timestamp := now |} :: _).
  destruct (Nat.ltb_spec 50 (List.length h)); [reflexivity|].
  unfold slice0. symmetry. apply firstn_all2. lia.
Qed.

Lemma occurrences_absent (q : jsstring) (l : list jsstring) :
  ~ In q l -> occurrences q l = 0%nat.
Proof.
  intros H. destruct (Nat.eq_dec (occurrences q l) 0) as [E|E]; [exact E|].
  exfalso. apply H. apply occurrences_In. lia.
Qed.

Lemma NoDup_firstn {A} (n : nat) (l : list A) : NoDup l -> NoDup (firstn n l).
Proof.
  intros H. rewrite <- (firstn_skipn n l) in H. apply NoDup_app_remove_r in H. exact H.
Qed.

Lemma NoDup_map_filter {A B} (f : A -> B) (keep : A -> bool) (l : list A) :
  NoDup (map f l) -> NoDup (map f (filter keep l)).
Proof.
  induction l as [|x l IH]; simpl; intros H; [constructor|].
  inversion H as [|? ? Hni Hnd]; subst.
  destruct (keep x); simpl; [constructor|]; auto.
  intros Hin. apply Hni. apply in_map_iff in Hin. destruct Hin as [y [Heq Hy]].
  apply filter_In in Hy. apply in_map_iff. exists y. tauto.
Qed.

Lemma other_queries (q : jsstring) (h : list HistoryItem) :
  ~ In q (map h_query (filter (fun item => negb (jsstring_eqb (h_query item) q)) h)).
Proof.
  intros Hin. apply in_map_iff in Hin. destruct Hin as [it [Heq Hit]].
  apply filter_In in Hit. destruct Hit as [_ Hne].
  rewrite Heq, jsstring_eqb_refl in Hne. discriminate Hne.
Qed.

Lemma addToSearchHistory_head
      (q : jsstring) (n : nat) (now : jsstring) (s : SearchManager) :
  hd_error (searchHistory (addToSearchHistory q n now s)) =
    Some {| h_query := q; resultsCount := n; timestamp := now |} /\
  occurrences q (map h_query (searchHistory (addToSearchHistory q n now s))) = 1%nat /\
  searchIndex (addToSearchHistory q n now s) = searchIndex s /\
  searchSuggestions (addToSearchHistory q n now s) = searchSuggestions s.
Proof.
  rewrite searchHistory_add.
  set (rest := filter (fun item => negb (jsstring_eqb (h_query item) q)) (searchHistory s)).
  change (firstn 50 ({| h_query := q; resultsCount := n; timestamp := now |} :: rest))
    with ({| h_query := q; resultsCount := n; timestamp := now |} :: firstn 49 rest).
  cbn [hd_error map].
  split; [reflexivity|]. split; [|split; reflexivity].
  unfold occurrences. cbn [filter h_query]. rewrite jsstring_eqb_refl. cbn [List.length].
  f_equal. fold (occurrences q (map h_query (firstn 49 rest))).
  apply occurrences_absent. intros Hin. apply (other_queries q (searchHistory s)).
  apply in_map_iff in Hin. destruct Hin as [it [Heq Hit]].
  apply In_firstn in Hit. apply in_map_iff. eauto.
Qed.

(** X1: after [addToSearchHistory] the history begins with the new
    entry, holds the query exactly once and at most 50 entries, and
    every other entry is an entry of the old history for another query;
    index and suggestion pool are as they were. *)
Theorem addToSearchHistory_records
        (q : jsstring) (n : nat) (now : jsstring) (s : SearchManager) :
  hd_error (searchHistory (addToSearchHistory q n now s)) =
    Some {| h_query := q; resultsCount := n; timestamp := now |} /\
  occurrences q (map h_query (searchHistory (addToSearchHistory q n now s))) = 1%nat /\
  (List.length (searchHistory (addToSearchHistory q n now s)) <= 50)%nat /\
  (forall item,
      In item (tl (searchHistory (addToSearchHistory q n now s))) ->
      In item (searchHistory s) /\ h_query item <> q) /\
  searchIndex (addToSearchHistory q n now s) = searchIndex s /\
  searchSuggestions (addToSearchHistory q n now s) = searchSuggestions s.
Proof.
  destruct (addToSearchHistory_head q n now s) as [Hhd [Hocc [Hidx Hsug]]].
  split; [exact Hhd|]. split; [exact Hocc|].
  split; [|split; [|split; [exact Hidx | exact Hsug]]].
  - rewrite searchHistory_add. apply firstn_le_length.
  - rewrite searchHistory_add.
    set (rest := filter (fun item => negb (jsstring_eqb (h_query item) q)) (searchHistory s)).
    change (firstn 50 ({| h_query := q; resultsCount := n; timestamp := now |} :: rest))
      with ({| h_query := q; resultsCount := n; timestamp := now |} :: firstn 49 rest).
    cbn [tl]. intros item Hin. apply In_firstn, filter_In in Hin. destruct Hin as [Hin Hne].
    split; [exact Hin|]. apply negb_true_iff, jsstring_eqb_neq in Hne. exact Hne.
Qed.




(** X3: a search that is not to be recorded, or whose query is empty
    or one code unit long, returns and leaves the manager exactly as it
    was.  A recorded search of a longer query throws when the result
    modal is present, the result is not empty and [new RegExp] turns the
    query down, and returns the result of [searchInIndex] otherwise;
    either way it leaves at the head of the history the query, once,
    with the total of its result, and leaves the index and the
    suggestion pool untouched, so the popular terms do not change before
    the next build.  The time at the head is that of the second
    recording when the modal is present and the search returned, and
    that of the first recording otherwise. *)
Theorem performSearch_recording (RegExp_accepts : jsstring -> bool)
        (pg : Page) (q : jsstring) (h : bool) (s : SearchManager) :
  (h = false \/ too_short q = true ->
   snd (performSearch_run RegExp_accepts pg q h s) = s /\
   exists r, fst (performSearch_run RegExp_accepts pg q h s) = Returned r) /\
  (h = true -> too_short q = false ->
   let results := searchInIndex (searchIndex s) q in
   let throws := search_modal pg
                 && negb ((total results =? 0)%nat || RegExp_accepts q) in
   fst (performSearch_run RegExp_accepts pg q h s) =
     (if throws then Thrown else Returned results) /\
   hd_error (searchHistory (snd (performSearch_run RegExp_accepts pg q h s))) =
     Some {| h_query := q;
             resultsCount := total results;
             timestamp := if search_modal pg && negb throws
                          then now_second pg else now_first pg |} /\
   occurrences q (map h_query
                      (searchHistory (snd (performSearch_run RegExp_accepts pg q h s)))) =
     1%nat /\
   searchIndex (snd (performSearch_run RegExp_accepts pg q h s)) = searchIndex s /\
   searchSuggestions (snd (performSearch_run RegExp_accepts pg q h s)) =
     searchSuggestions s).
Proof.
  split.
  - intros [-> | Hs].
    + unfold performSearch_run. fold (too_short q).
      destruct (too_short q); (split; [reflexivity | eexists; reflexivity]).
    + rewrite performSearch_run_short by exact Hs.
      split; [reflexivity | eexists; reflexivity].
  - intros -> Hlong results throws. rewrite performSearch_run_recorded by exact Hlong.
    fold results. unfold throws.
    destruct (search_modal pg); cbn [andb negb].
    + destruct ((total results =? 0)%nat || RegExp_accepts q); cbn [negb fst snd].
      * destruct (addToSearchHistory_head q (total results) (now_second pg)
                    (addToSearchHistory q (total results) (now_first pg) s))
          as [H1 [H2 [H3 H4]]].
        destruct (addToSearchHistory_head q (total results) (now_first pg) s)
          as [_ [_ [H5 H6]]].
        repeat split; try assumption; congruence.
      * destruct (addToSearchHistory_head q (total results) (now_first pg) s)
          as [H1 [H2 [H3 H4]]].
        repeat split; assumption.
    + cbn [fst snd].
      destruct (addToSearchHistory_head q (total results) (now_first pg) s)
        as [H1 [H2 [H3 H4]]].
      repeat split; assumption.
Qed.

Lemma performSearch_recording_witness :
  (true = true /\ too_short (js "митинг(") = false) /\
  fst (performSearch_run no_open_parenthesis sample_page (js "митинг(") true rally_state) =
    Thrown /\
  hd_error (searchHistory (snd (performSearch_run no_open_parenthesis sample_page
                                                  (js "митинг(") true rally_state))) =
    Some {| h_query := js "митинг(";
            resultsCount := 2%nat;
            timestamp := now_first sample_page |}.
Proof.
  assert (H1 : true = true) by reflexivity.
  assert (H2 : too_short (js "митинг(") = false) by reflexivity.
  split; [split; [exact H1 | exact H2]|].
  pose proof (proj2 (performSearch_recording no_open_parenthesis sample_page (js "митинг(")
                       true rally_state) H1 H2) as [Ha [Hb _]].
  split; [exact Ha | exact Hb].
Defined.

Lemma addToSearchHistory_records_witness :
  In (hd {| h_query := []; resultsCount := 0; timestamp := [] |} flooded_history)
     (tl (searchHistory (addToSearchHistory (js "наука") 5 (js "2024-05-02T09:00:00.000Z")
                                            flooded_state))) /\
  In (hd {| h_query := []; resultsCount := 0; timestamp := [] |} flooded_history)
     (searchHistory flooded_state) /\
  h_query (hd {| h_query := []; resultsCount := 0; timestamp := [] |} flooded_history)
    <> js "наука".
Proof.
  assert (H : In (hd {| h_query := []; resultsCount := 0; timestamp := [] |}
                     flooded_history)
                 (tl (searchHistory (addToSearchHistory (js "наука") 5
                                       (js "2024-05-02T09:00:00.000Z") flooded_state)))).
  { vm_compute. left. reflexivity. }
  split; [exact H|].
  exact (proj1 (proj2 (proj2 (proj2
           (addToSearchHistory_records (js "наука") 5 (js "2024-05-02T09:00:00.000Z")
                                       flooded_state)))) _ H).
Defined.

(** ** The most frequent terms and tags *)

Lemma StronglySorted_app_order {A} (R : A -> A -> Prop) (l1 l2 : list A) :
  StronglySorted R (l1 ++ l2) -> forall x y, In x l1 -> In y l2 -> R x y.
Proof.
  induction l1 as [|a l1 IH]; simpl; intros Hs x y Hx Hy; [destruct Hx|].
  inversion Hs as [|? ? Hs' Hall]; subst. destruct Hx as [<-|Hx].
  - rewrite Forall_forall in Hall. apply Hall. apply in_or_app. right. exact Hy.
  - apply (IH Hs' x y Hx Hy).
Qed.

Section TopCounts.
Variables (l : list jsstring) (k : nat).

Lemma top_counts_length : (List.length (top_counts l k) <= k)%nat.
Proof. apply firstn_le_length. Qed.

Lemma top_counts_In (e : jsstring * N) :
  In e (top_counts l k) -> In (fst e) l /\ snd e = N.of_nat (occurrences (fst e) l).
Proof.
  intros H. apply In_firstn, array_sort_In in H. destruct e as [t n].
  apply In_count_all in H. exact H.
Qed.

Lemma top_counts_NoDup : NoDup (map fst (top_counts l k)).
Proof.
  unfold top_counts, slice0. rewrite <- firstn_map. apply NoDup_firstn.
  eapply Permutation_NoDup; [|apply (NoDup_keys_count_all l)].
  apply Permutation_map, Permutation_sym, array_sort_perm.
Qed.

Lemma top_counts_sorted : StronglySorted (fun a b => snd b <= snd a) (top_counts l k).
Proof.
  apply StronglySorted_firstn.
  eapply StronglySorted_impl;
    [|apply (array_sort_sorted by_count_desc (fun e => Z.of_N (snd e)) by_count_desc_key)].
  unfold descending. intros x y H. lia.
Qed.

Lemma top_counts_best (e : jsstring * N) (t : jsstring) :
  In e (top_counts l k) -> In t l -> ~ In t (map fst (top_counts l k)) ->
  N.of_nat (occurrences t l) <= snd e.
Proof.
  intros He Ht Hout.
  assert (Hin : In (t, N.of_nat (occurrences t l)) (count_all l)).
  { apply In_count_all. auto. }
  apply (array_sort_In by_count_desc) in Hin.
  rewrite <- (firstn_skipn k (array_sort by_count_desc (count_all l))) in Hin.
  apply in_app_iff in Hin. destruct Hin as [Hin|Hin].
  - exfalso. apply Hout. apply (in_map fst) in Hin. exact Hin.
  - pose proof (array_sort_sorted by_count_desc (fun e => Z.of_N (snd e))
                  by_count_desc_key (count_all l)) as Hs.
    rewrite <- (firstn_skipn k (array_sort by_count_desc (count_all l))) in Hs.
    pose proof (StronglySorted_app_order _ _ _ Hs e _ He Hin) as Hord.
    unfold descending in Hord. simpl in Hord. lia.
Qed.
End TopCounts.

(** X4: [getPopularSearchTerms] returns at most 10 suggestions, all of
    type term and with different texts; each text is a token of a
    recorded query and its count is the number of times the token occurs
    in the recorded queries; the counts do not increase along the list;
    and no token left out occurs more often than one that is listed. *)
Theorem getPopularSearchTerms_top (history : list HistoryItem) :
  (List.length (getPopularSearchTerms history) <= 10)%nat /\
  NoDup (map text (getPopularSearchTerms history)) /\
  (forall sg, In sg (getPopularSearchTerms history) ->
              sg_type sg = term /\
              In (text sg) (history_terms history) /\
              count sg = Some (N.of_nat (occurrences (text sg) (history_terms history)))) /\
  StronglySorted
    (fun a b => occurrences (text b) (history_terms history)
                <= occurrences (text a) (history_terms history))%nat
    (getPopularSearchTerms history) /\
  (forall sg t, In sg (getPopularSearchTerms history) ->
                In t (history_terms history) ->
                ~ In t (map text (getPopularSearchTerms history)) ->
                (occurrences t (history_terms history)
                 <= occurrences (text sg) (history_terms history))%nat).
Proof.
  rewrite getPopularSearchTerms_counts. unfold termCounts.
  set (l := history_terms history).
  set (top := slice0 10 (array_sort by_count_desc (count_all l))).
  set (mk := fun '(t, n) => {| sg_type := term; text := t; icon := js "fas fa-search";
                               count := Some n |}).
  assert (Htext : map text (map mk top) = map fst top).
  { rewrite map_map. apply map_ext. intros [t n]. reflexivity. }
  assert (Hocc : forall e, In e top -> snd e = N.of_nat (occurrences (fst e) l)).
  { intros e He. apply (top_counts_In l 10 e He). }
  split; [rewrite length_map; apply (top_counts_length l 10)|].
  split; [rewrite Htext; apply (top_counts_NoDup l 10)|].
  split; [|split].
  - intros sg Hsg. apply in_map_iff in Hsg. destruct Hsg as [[t n] [<- He]].
    destruct (top_counts_In l 10 (t, n) He) as [Hin Hn]. simpl in *. subst n. auto.
  - pose proof (top_counts_sorted l 10) as Hs.
    assert (Hgen : forall top', (forall e, In e top' -> In e top) ->
              StronglySorted (fun a b => snd b <= snd a) top' ->
              StronglySorted (fun a b => (occurrences (text b) l
                                          <= occurrences (text a) l)%nat) (map mk top')).
    { induction top' as [|e top' IH]; intros Hsub Hs'; [constructor|].
      inversion Hs' as [|? ? Hs'' Hall]; subst. cbn [map]. constructor.
      - apply IH; [intros e' He'; apply Hsub; right; exact He' | exact Hs''].
      - apply Forall_forall. intros sg Hsg. apply in_map_iff in Hsg.
        destruct Hsg as [e' [<- He']]. rewrite Forall_forall in Hall.
        pose proof (Hall e' He') as Hle.
        rewrite (Hocc e (Hsub e (or_introl eq_refl))) in Hle.
        rewrite (Hocc e' (Hsub e' (or_intror He'))) in Hle.
        destruct e as [t n], e' as [t' n']. simpl in *. lia. }
    apply Hgen; [auto | exact Hs].
  - intros sg t Hsg Ht Hout. rewrite Htext in Hout.
    apply in_map_iff in Hsg. destruct Hsg as [[t0 n0] [<- He]].
    pose proof (top_counts_best l 10 (t0, n0) t He Ht Hout) as Hb.
    rewrite (Hocc _ He) in Hb. simpl in *. lia.
Qed.

(** X5: [getPopularTags] returns at most 5 tags, all different, each
    the lower case of a tag of a published article; their frequencies
    among the tags of the published articles do not increase along the
    list; and no tag left out is more frequent than one that is listed. *)
Theorem getPopularTags_top (w : Managers) :
  (List.length (getPopularTags w) <= 5)%nat /\
  NoDup (getPopularTags w) /\
  (forall t, In t (getPopularTags w) -> In t (published_tags w)) /\
  StronglySorted
    (fun a b => occurrences b (published_tags w) <= occurrences a (published_tags w))%nat
    (getPopularTags w) /\
  (forall t t', In t (getPopularTags w) -> In t' (published_tags w) ->
                ~ In t' (getPopularTags w) ->
                (occurrences t' (published_tags w)
                 <= occurrences t (published_tags w))%nat).
Proof.
  rewrite getPopularTags_counts. unfold tagCounts.
  set (l := published_tags w).
  set (top := slice0 5 (array_sort by_count_desc (count_all l))).
  assert (Hocc : forall e, In e top -> snd e = N.of_nat (occurrences (fst e) l)).
  { intros e He. apply (top_counts_In l 5 e He). }
  split; [rewrite length_map; apply (top_counts_length l 5)|].
  split; [apply (top_counts_NoDup l 5)|].
  split; [|split].
  - intros t Ht. apply in_map_iff in Ht. destruct Ht as [e [<- He]].
    apply (top_counts_In l 5 e He).
  - pose proof (top_counts_sorted l 5) as Hs.
    assert (Hgen : forall top', (forall e, In e top' -> In e top) ->
              StronglySorted (fun a b => snd b <= snd a) top' ->
              StronglySorted (fun a b => (occurrences b l <= occurrences a l)%nat)
                             (map fst top')).
    { induction top' as [|e top' IH]; intros Hsub Hs'; [constructor|].
      inversion Hs' as [|? ? Hs'' Hall]; subst. cbn [map]. constructor.
      - apply IH; [intros e' He'; apply Hsub; right; exact He' | exact Hs''].
      - apply Forall_forall. intros t Ht. apply in_map_iff in Ht.
        destruct Ht as [e' [<- He']]. rewrite Forall_forall in Hall.
        pose proof (Hall e' He') as Hle.
        rewrite (Hocc e (Hsub e (or_introl eq_refl))) in Hle.
        rewrite (Hocc e' (Hsub e' (or_intror He'))) in Hle. lia. }
    apply Hgen; [auto | exact Hs].
  - intros t t' Ht Ht' Hout.
    apply in_map_iff in Ht. destruct Ht as [e [<- He]].
    pose proof (top_counts_best l 5 e t' He Ht' Hout) as Hb.
    rewrite (Hocc _ He) in Hb. lia.
Qed.

Lemma getPopularSearchTerms_top_witness :
  In {| sg_type := term; text := js "народ"; icon := js "fas fa-search"; count := Some 1 |}
     (getPopularSearchTerms flooded_history) /\
  (sg_type {| sg_type := term; text := js "народ"; icon := js "fas fa-search";
              count := Some 1 |} = term /\
   In (js "народ") (history_terms flooded_history) /\
   Some 1 = Some (N.of_nat (occurrences (js "народ") (history_terms flooded_history)))).
Proof.
  assert (H : In {| sg_type := term; text := js "народ"; icon := js "fas fa-search";
                    count := Some 1 |} (getPopularSearchTerms flooded_history)).
  { vm_compute. left. reflexivity. }
  split; [exact H|].
  exact (proj1 (proj2 (proj2 (getPopularSearchTerms_top flooded_history))) _ H).
Defined.

Lemma getPopularTags_top_witness :
  In (js "наука") (getPopularTags science_managers) /\
  In (js "наука") (published_tags science_managers).
Proof.
  assert (H : In (js "наука") (getPopularTags science_managers)).
  { vm_compute. left. reflexivity. }
  split; [exact H|].
  exact (proj1 (proj2 (proj2 (getPopularTags_top science_managers))) _ H).
Defined.

(** ** Keyboard navigation *)

Section KeyNavigation.
Local Open Scope Z_scope.










End KeyNavigation.

(** ** Advanced search *)

Lemma In_filter_if {A} (c : bool) (f : A -> bool) (l : list A) (a : A) :
  In a (if c then filter f l else l) <-> In a l /\ (c = true -> f a = true).
Proof.
  destruct c.
  - rewrite filter_In. intuition.
  - intuition discriminate.
Qed.

Lemma truthy_true (s : jsstring) : truthy s = true <-> s <> [].
Proof. destruct s; simpl; split; congruence. Qed.

Lemma is_string_true (v : option jsstring) (s : jsstring) :
  is_string v s = true <-> v = Some s.
Proof.
  destruct v as [x|]; simpl.
  - rewrite jsstring_eqb_eq. split; congruence.
  - split; discriminate.
Qed.

Lemma date_ge_true (x y : option Z) :
  date_ge x y = true <-> exists t t0, x = Some t /\ y = Some t0 /\ (t0 <= t)%Z.
Proof.
  destruct x as [tx|], y as [ty|]; simpl; split;
    try discriminate; try (intros [t [t0 [H1 [H2 _]]]]; discriminate).
  - intros H. apply Z.leb_le in H. eauto.
  - intros [t [t0 [[= ->] [[= ->] H]]]]. apply Z.leb_le, H.
Qed.

Lemma date_le_true (x y : option Z) :
  date_le x y = true <-> exists t t1, x = Some t /\ y = Some t1 /\ (t <= t1)%Z.
Proof.
  destruct x as [tx|], y as [ty|]; simpl; split;
    try discriminate; try (intros [t [t0 [H1 [H2 _]]]]; discriminate).
  - intros H. apply Z.leb_le in H. eauto.
  - intros [t [t0 [[= ->] [[= ->] H]]]]. apply Z.leb_le, H.
Qed.

Lemma tags_match_true (filterTags : list jsstring) (a : StoredArticle.t) :
  tags_match filterTags a = true <->
  exists filterTag articleTag,
    In filterTag filterTags /\
    In articleTag (Article.tags (StoredArticle.fields a)) /\
    includes (Unicode.toLowerCase articleTag) (Unicode.toLowerCase filterTag) = true.
Proof.
  unfold tags_match. rewrite existsb_exists. split.
  - intros [ft [Hft H]]. apply existsb_exists in H. destruct H as [at' [Hat H]].
    exists ft, at'. auto.
  - intros [ft [at' [Hft [Hat H]]]]. exists ft. split; [exact Hft|].
    apply existsb_exists. exists at'. auto.
Qed.

Lemma nonempty_length {A} (l : list A) : (0 <? List.length l)%nat = true <-> l <> [].
Proof.
  destruct l; simpl; split; intros H; try congruence; try reflexivity; discriminate H.
Qed.

Lemma id_listed (i : jsstring) (rs : list ScoredResult) :
  existsb (jsstring_eqb i) (map (fun r => id (result r)) rs) = true <->
  exists r, In r rs /\ id (result r) = i.
Proof.
  rewrite existsb_exists. split.
  - intros [x [Hin Heq]]. apply in_map_iff in Hin. destruct Hin as [r [Hr Hin]].
    apply jsstring_eqb_eq in Heq. exists r. split; [exact Hin | congruence].
  - intros [r [Hin Heq]]. exists i. split; [|apply jsstring_eqb_refl].
    apply in_map_iff. exists r. auto.
Qed.

Lemma text_query_taken (q : jsstring) :
  truthy q && (2 <=? List.length q)%nat = true <-> (2 <= List.length q)%nat.
Proof.
  destruct q as [|c [|d r]]; simpl; split; intros H; try discriminate; try lia; reflexivity.
Qed.

Section AdvancedSearchFacts.
Variable Date_time : jsstring -> option Z.

Lemma In_text_stage (res : SearchResults) (l : list StoredArticle.t) (a : StoredArticle.t) :
  In a (text_stage res l) <->
  In a l /\ exists r, In r (articles res) /\ id (result r) = Article.id (StoredArticle.fields a).
Proof.
  unfold text_stage. rewrite array_sort_In, filter_In, id_listed. reflexivity.
Qed.

(** X13: the advanced search returns exactly the stored articles that
    are published and pass every filter that is filled in: same
    category, same author, date not before [dateFrom] and not after
    [dateTo] (a date that does not parse passes neither), one of the
    article's tags containing one of the filter's tags without regard to
    case, and, with a text query of two units or more, the id among the
    listed text results. *)
Theorem advancedSearch_selects (stored : option (list StoredArticle.t))
    (idx : SearchIndex) (filters : Filters.t) (a : StoredArticle.t) :
  In a (advanced_articles Date_time stored idx filters) <->
  In a (match stored with Some l => l | None => [] end) /\
  selected_by Date_time idx filters a.
Proof.
  unfold advanced_articles, selected_by.
  set (l0 := match stored with Some l => l | None => [] end).
  destruct (truthy (Filters.query filters) && (2 <=? List.length (Filters.query filters))%nat)
    eqn:Eq.
  - pose proof (proj1 (text_query_taken _) Eq) as Hq.
    rewrite In_text_stage, !In_filter_if, filter_In.
    rewrite !truthy_true, nonempty_length, !is_string_true, date_ge_true, date_le_true,
      tags_match_true.
    unfold is_published. rewrite jsstring_eqb_eq. tauto.
  - assert (Hq : ~ (2 <= List.length (Filters.query filters))%nat).
    { intros H. apply text_query_taken in H. congruence. }
    rewrite array_sort_In, !In_filter_if, filter_In.
    rewrite !truthy_true, nonempty_length, !is_string_true, date_ge_true, date_le_true,
      tags_match_true.
    unfold is_published. rewrite jsstring_eqb_eq. tauto.
Qed.

Lemma found_among_text_results (stored : option (list StoredArticle.t))
    (idx : SearchIndex) (filters : Filters.t) (a : StoredArticle.t) :
  (2 <= List.length (Filters.query filters))%nat ->
  In a (advanced_articles Date_time stored idx filters) ->
  exists r, In r (articles (searchInIndex idx (Filters.query filters))) /\
            id (result r) = Article.id (StoredArticle.fields a).
Proof.
  intros Hq. unfold advanced_articles. rewrite (proj2 (text_query_taken _) Hq).
  intros Ha. apply In_text_stage in Ha. apply Ha.
Qed.

Lemma sort_insert_ext {A} (cmp cmp' : A -> A -> Z) (x : A) (l : list A) :
  (forall y, In y l -> cmp x y = cmp' x y) -> sort_insert cmp x l = sort_insert cmp' x l.
Proof.
  induction l as [|y l IH]; simpl; intros H; [reflexivity|].
  rewrite (H y) by auto. rewrite IH by auto. reflexivity.
Qed.

Lemma array_sort_ext {A} (cmp cmp' : A -> A -> Z) (l : list A) :
  (forall x y, In x l -> In y l -> cmp x y = cmp' x y) -> array_sort cmp l = array_sort cmp' l.
Proof.
  induction l as [|x l IH]; intros H; [reflexivity|].
  change (sort_insert cmp x (array_sort cmp l) = sort_insert cmp' x (array_sort cmp' l)).
  rewrite IH by (intros; apply H; simpl; auto).
  apply sort_insert_ext. intros y Hy. apply array_sort_In in Hy. apply H; simpl; auto.
Qed.

Lemma NoDup_map_finer {A B C} (f : A -> B) (g : A -> C) (l : list A) :
  (forall x y, In x l -> In y l -> g x = g y -> f x = f y) ->
  NoDup (map f l) -> NoDup (map g l).
Proof.
  induction l as [|x l IH]; simpl; intros Hfg Hnd; [constructor|].
  inversion Hnd as [|? ? Hni Hnd']; subst. constructor.
  - intros Hin. apply Hni. apply in_map_iff in Hin. destruct Hin as [y [Heq Hy]].
    apply in_map_iff. exists y. split; [|exact Hy]. apply Hfg; auto.
  - apply IH; [|exact Hnd']. intros; apply Hfg; auto.
Qed.

(** The article results of a text search have pairwise different ids. *)
Lemma text_articles_distinct (idx : SearchIndex) (q : jsstring) :
  NoDup (map (fun r => id (result r)) (articles (searchInIndex idx q))).
Proof.
  destruct (searchInIndex_fields idx q) as [-> _]. unfold slice0.
  set (rm := score_words idx (extractWords q)).
  assert (Hkeys : NoDup (map (fun r => result_key (result r)) (ranked idx q))).
  { eapply Permutation_NoDup.
    - symmetry. apply Permutation_map. apply ranked_perm.
    - rewrite <- keys_of_well_keyed.
      + apply NoDup_keys_score_words.
      + apply NoDup_keys_score_words.
      + apply well_keyed_score_words. }
  apply (NoDup_map_filter _ (is_type article)) in Hkeys.
  rewrite <- (firstn_skipn 20 (filter (is_type article) (ranked idx q))) in Hkeys.
  rewrite map_app in Hkeys. apply NoDup_app_remove_r in Hkeys.
  revert Hkeys. apply NoDup_map_finer.
  intros x y Hx Hy Heq. apply result_key_inj. split; [|exact Heq].
  apply In_firstn, filter_In in Hx. apply In_firstn, filter_In in Hy.
  destruct Hx as [_ Hx], Hy as [_ Hy]. unfold is_type in Hx, Hy.
  destruct (type (result x)), (type (result y)); congruence.
Qed.

Lemma relevance_map_untouched (k : jsstring) (rs : list ScoredResult) (m : JsMap.t N) :
  ~ In k (map (fun r => id (result r)) rs) ->
  JsMap.get k (fold_left (fun m r => JsMap.set (id (result r)) (score r) m) rs m) =
  JsMap.get k m.
Proof.
  revert m. induction rs as [|r rs IH]; simpl; intros m Hni; [reflexivity|].
  rewrite IH by tauto. apply get_set_other. intros Heq. apply Hni. left. congruence.
Qed.

Lemma relevance_map_get (rs : list ScoredResult) (r : ScoredResult) :
  NoDup (map (fun r => id (result r)) rs) -> In r rs ->
  JsMap.get (id (result r)) (relevance_map rs) = Some (score r).
Proof.
  unfold relevance_map. generalize (JsMap.empty (V := N)) as m.
  induction rs as [|x rs IH]; simpl; intros m Hnd Hin; [tauto|].
  inversion Hnd as [|? ? Hni Hnd']; subst. destruct Hin as [->|Hin].
  - rewrite relevance_map_untouched by exact Hni. apply get_set_same.
  - apply IH; assumption.
Qed.

(** X14: with a text query of two units or more, the advanced search
    lists its articles by falling text score; each of them carries the
    id of one of the (at most twenty) article results of the plain text
    search and is ranked by that result's score; so with pairwise
    different article ids at most twenty articles come back, whatever
    the other filters let through. *)
Theorem advancedSearch_text_query (stored : option (list StoredArticle.t))
    (idx : SearchIndex) (filters : Filters.t) :
  (2 <= List.length (Filters.query filters))%nat ->
  let text := articles (searchInIndex idx (Filters.query filters)) in
  let found := advanced_articles Date_time stored idx filters in
  StronglySorted (fun a b => relevance_of (relevance_map text) b
                             <= relevance_of (relevance_map text) a) found /\
  (forall a, In a found ->
     exists r, In r text /\ id (result r) = Article.id (StoredArticle.fields a) /\
               relevance_of (relevance_map text) a = score r) /\
  (NoDup (map (fun a => Article.id (StoredArticle.fields a))
              (match stored with Some l => l | None => [] end)) ->
   (List.length found <= 20)%nat).
Proof.
  intros Hq text found.
  assert (Htaken := proj2 (text_query_taken _) Hq).
  assert (Hfound : forall a, In a found ->
            exists r, In r text /\ id (result r) = Article.id (StoredArticle.fields a)).
  { intros a Ha. apply (found_among_text_results stored idx filters a Hq Ha). }
  split; [|split].
  - unfold found, advanced_articles. rewrite Htaken. unfold text_stage. fold text.
    eapply StronglySorted_impl;
      [|apply (array_sort_sorted (by_relevance_desc (relevance_map text))
                 (fun a => Z.of_N (relevance_of (relevance_map text) a)))].
    + unfold descending. intros x y H. lia.
    + intros x y. unfold by_relevance_desc. lia.
  - intros a Ha. destruct (Hfound a Ha) as [r [Hr Hid]].
    exists r. split; [exact Hr|]. split; [exact Hid|].
    unfold relevance_of. rewrite <- Hid.
    rewrite (relevance_map_get text r (text_articles_distinct idx _) Hr). reflexivity.
  - intros Hnd.
    assert (Hlen : (List.length text <= 20)%nat).
    { unfold text. destruct (searchInIndex_fields idx (Filters.query filters)) as [-> _].
      unfold slice0. apply firstn_le_length. }
    assert (Hnd' : NoDup (map (fun a => Article.id (StoredArticle.fields a)) found)).
    { unfold found, advanced_articles. rewrite Htaken. unfold text_stage.
      eapply Permutation_NoDup; [symmetry; apply Permutation_map, array_sort_perm|].
      repeat match goal with
             | |- NoDup (map _ (if ?c then _ else _)) => destruct c
             | |- NoDup (map _ (filter _ _)) => apply NoDup_map_filter
             end; exact Hnd. }
    rewrite <- (length_map (fun a => Article.id (StoredArticle.fields a)) found).
    etransitivity; [|exact Hlen].
    rewrite <- (length_map (fun r => id (result r)) text).
    apply NoDup_incl_length; [exact Hnd'|].
    intros i Hi. apply in_map_iff in Hi. destruct Hi as [a [<- Ha]].
    destruct (Hfound a Ha) as [r [Hr Hid]]. apply in_map_iff. exists r. auto.
Qed.

(** X15: without a text query (fewer than two units), and when the date
    of every stored article parses, the advanced search lists its
    articles newest first, by [publishedAt] or else [createdAt]. *)
Theorem advancedSearch_newest_first (stored : option (list StoredArticle.t))
    (idx : SearchIndex) (filters : Filters.t) :
  (List.length (Filters.query filters) < 2)%nat ->
  (forall a, In a (match stored with Some l => l | None => [] end) ->
             Date_time (article_date a) <> None) ->
  StronglySorted (fun a b => (article_time Date_time b <= article_time Date_time a)%Z)
                 (advanced_articles Date_time stored idx filters).
Proof.
  intros Hq Hdates.
  assert (Hnot : truthy (Filters.query filters)
                 && (2 <=? List.length (Filters.query filters))%nat = false).
  { destruct (truthy (Filters.query filters)
              && (2 <=? List.length (Filters.query filters))%nat) eqn:E; [|reflexivity].
    apply text_query_taken in E. lia. }
  pose (cmp' := fun a b : StoredArticle.t =>
                  (article_time Date_time b - article_time Date_time a)%Z).
  assert (Hsorted : forall l, StronglySorted
            (fun a b => (article_time Date_time b <= article_time Date_time a)%Z)
            (array_sort cmp' l)).
  { intros l. apply (array_sort_sorted cmp' (article_time Date_time)).
    intros x y. unfold cmp'. lia. }
  assert (Hext : forall l,
            (forall a, In a l -> In a (match stored with Some l => l | None => [] end)) ->
            array_sort (by_date_desc Date_time) l = array_sort cmp' l).
  { intros l Hl. apply array_sort_ext. intros x y Hx Hy.
    unfold by_date_desc, cmp', article_time.
    pose proof (Hdates x (Hl x Hx)) as Dx. pose proof (Hdates y (Hl y Hy)) as Dy.
    destruct (Date_time (article_date x)), (Date_time (article_date y)); congruence. }
  unfold advanced_articles. rewrite Hnot. rewrite Hext; [apply Hsorted|].
  intros a Ha.
  repeat match type of Ha with
         | In _ (if ?c then _ else _) => destruct c
         | In _ (filter _ _) => apply filter_In in Ha; destruct Ha as [Ha _]
         end; exact Ha.
Qed.

End AdvancedSearchFacts.

Lemma advancedSearch_text_query_witness :
  (2 <= List.length (Filters.query (text_filters "митинг")))%nat /\
  StronglySorted
    (fun a b =>
       relevance_of (relevance_map (articles (searchInIndex rally_index (js "митинг")))) b
       <= relevance_of (relevance_map (articles (searchInIndex rally_index (js "митинг")))) a)
    (advanced_articles digits_time rally_stored rally_index (text_filters "митинг")).
Proof.
  assert (H : (2 <= List.length (Filters.query (text_filters "митинг")))%nat)
    by (vm_compute; lia).
  split; [exact H|].
  exact (proj1 (advancedSearch_text_query digits_time rally_stored rally_index
                                          (text_filters "митинг") H)).
Defined.

Lemma advancedSearch_newest_first_witness :
  ((List.length (Filters.query (text_filters "")) < 2)%nat /\
   (forall a, In a (match rally_stored with Some l => l | None => [] end) ->
              digits_time (article_date a) <> None)) /\
  StronglySorted (fun a b => (article_time digits_time b <= article_time digits_time a)%Z)
                 (advanced_articles digits_time rally_stored rally_index (text_filters "")).
Proof.
  assert (H1 : (List.length (Filters.query (text_filters "")) < 2)%nat)
    by (vm_compute; lia).
  assert (H2 : forall a, In a (match rally_stored with Some l => l | None => [] end) ->
                         digits_time (article_date a) <> None).
  { intros a Ha. simpl in Ha.
    destruct Ha as [<-|[<-|[<-|[]]]]; vm_compute; discriminate. }
  split; [split; [exact H1 | exact H2]|].
  exact (advancedSearch_newest_first digits_time rally_stored rally_index
                                     (text_filters "") H1 H2).
Defined.

Lemma advancedSearch_selects_witness :
  In (stored_article rally_report "author-1" "2024-04-30")
     (advanced_articles digits_time rally_stored rally_index rally_filters) /\
  selected_by digits_time rally_index rally_filters
              (stored_article rally_report "author-1" "2024-04-30").
Proof.
  assert (H : In (stored_article rally_report "author-1" "2024-04-30")
                 (advanced_articles digits_time rally_stored rally_index rally_filters)).
  { vm_compute. left. reflexivity. }
  split; [exact H|].
  exact (proj2 (proj1 (advancedSearch_selects digits_time rally_stored rally_index
                         rally_filters (stored_article rally_report "author-1" "2024-04-30"))
                      H)).
Defined.

Lemma split_on_ends_empty (sep : N) (s : jsstring) :
  exists pieces, split_on sep (s ++ [sep]) = pieces ++ [[]] /\ pieces <> [].
Proof.
  induction s as [|c r [pieces [Heq Hne]]]; simpl.
  - rewrite N.eqb_refl. exists [[]]. split; [reflexivity | discriminate].
  - destruct (c =? sep).
    + exists ([] :: pieces). rewrite Heq. split; [reflexivity | discriminate].
    + rewrite Heq. destruct pieces as [|h t]; [congruence|].
      exists ((c :: h) :: t). split; [reflexivity | discriminate].
Qed.

Lemma includes_empty (a : jsstring) : includes a [] = true.
Proof. destruct a; reflexivity. Qed.

(** X17: a tags entry of the form that ends in a comma makes the tags
    filter pass every article that has a tag at all, and no article
    without tags: the piece after the last comma is an empty filter tag,
    which every tag contains. *)
Theorem trailing_comma_matches_any_tag (s : jsstring) (a : StoredArticle.t) :
  tags_match (form_filter_tags (Some (s ++ js ","))) a = true <->
  Article.tags (StoredArticle.fields a) <> [].
Proof.
  change (js ",") with [0x2C].
  assert (Hin : In [] (form_filter_tags (Some (s ++ [0x2C])))).
  { unfold form_filter_tags.
    destruct (s ++ [0x2C]) as [|c r] eqn:E; [destruct s; discriminate E|].
    rewrite <- E. destruct (split_on_ends_empty 0x2C s) as [pieces [-> _]].
    rewrite map_app. apply in_or_app. right. left. reflexivity. }
  rewrite tags_match_true. split.
  - intros [ft [at' [_ [Hat _]]]] Hnil. rewrite Hnil in Hat. exact Hat.
  - intros Hne. destruct (Article.tags (StoredArticle.fields a)) as [|t ts] eqn:E;
      [congruence|].
    exists [], t. split; [exact Hin|]. split; [left; reflexivity|].
    apply includes_empty.
Qed.

Lemma trailing_comma_matches_any_tag_witness :
  Article.tags (StoredArticle.fields (stored_article rally_report "author-1" "2024-04-30"))
    <> [] /\
  tags_match (form_filter_tags (Some (js "спорт" ++ js ",")))
             (stored_article rally_report "author-1" "2024-04-30") = true.
Proof.
  assert (H : Article.tags (StoredArticle.fields
                              (stored_article rally_report "author-1" "2024-04-30")) <> []).
  { vm_compute. discriminate. }
  split; [exact H|].
  exact (proj2 (trailing_comma_matches_any_tag (js "спорт")
                  (stored_article rally_report "author-1" "2024-04-30")) H).
Defined.

(** ** The table of the tokeniser against the lower case by code points *)

Lemma holds_from_all (p : N -> bool) (n : nat) :
  forall from, holds_from p from n = true ->
               forall c, from <= c < from + N.of_nat n -> p c = true.
Proof.
  induction n as [|n IH]; intros from H c Hc; [lia|].
  cbn [holds_from] in H. apply andb_true_iff in H. destruct H as [H0 H].
  destruct (N.eq_dec c from) as [->|Hne]; [exact H0|].
  apply (IH (from + 1) H). lia.
Qed.

Lemma run_checked_all (p : N -> N -> bool) (step : N) (n : nat) :
  forall c u, run_checked p c u step n = true ->
              forall k, k < N.of_nat n -> p (c + step * k) (u + step * k) = true.
Proof.
  induction n as [|n IH]; intros c u H k Hk; [lia|].
  cbn [run_checked] in H. apply andb_true_iff in H. destruct H as [H0 H].
  destruct (N.eq_dec k 0) as [->|Hne].
  - rewrite N.mul_0_r, !N.add_0_r. exact H0.
  - specialize (IH (c + step) (u + step) H (N.pred k) ltac:(lia)).
    replace (c + step * k) with (c + step + step * N.pred k);
      [replace (u + step * k) with (u + step + step * N.pred k); [exact IH|]|];
      rewrite <- (N.succ_pred k Hne) at 2; rewrite N.mul_succ_r; lia.
Qed.

Lemma runs_right : forallb run_right Unicode.lower_runs = true.
Proof. vm_compute. reflexivity. Qed.

Lemma table_domain_mapped :
  holds_from in_some_run 0x41 26 && holds_from in_some_run 0x400 48
  && in_some_run 0x212A = true.
Proof. vm_compute. reflexivity. Qed.

(** A unit the table changes has a mapping in the runs, or is U+0130. *)
Lemma table_domain (c : N) :
  toLowerCase_cu c <> [c] -> c = 0x130 \/ in_some_run c = true.
Proof.
  intros Hne. pose proof table_domain_mapped as H.
  apply andb_true_iff in H. destruct H as [H H3].
  apply andb_true_iff in H. destruct H as [H1 H2].
  unfold toLowerCase_cu in Hne.
  destruct (in_range 65 90 c) eqn:E1;
    [|destruct (in_range 1040 1071 c) eqn:E2;
      [|destruct (in_range 1024 1039 c) eqn:E3;
        [|destruct (N.eqb_spec c 304) as [E4|E4];
          [|destruct (N.eqb_spec c 8490) as [E5|E5]]]]].
  - right. apply (holds_from_all _ _ _ H1). units_to_prop. simpl. lia.
  - right. apply (holds_from_all _ _ _ H2). units_to_prop. simpl. lia.
  - right. apply (holds_from_all _ _ _ H2). units_to_prop. simpl. lia.
  - left. exact E4.
  - right. rewrite E5. exact H3.
  - congruence.
Qed.

Lemma table_right (c : N) :
  c < 0x10000 -> table_right_at c (Unicode.simple_lower c) = true.
Proof.
  intros Hc. unfold Unicode.simple_lower.
  destruct (find (Unicode.in_run c) Unicode.lower_runs) as [[[[first last] step] to]|] eqn:E.
  - apply find_some in E. destruct E as [Hin Hrun].
    pose proof runs_right as H. rewrite forallb_forall in H.
    specialize (H _ Hin). unfold run_right in H. unfold Unicode.in_run in Hrun.
    destruct (N.leb_spec first c) as [H1|_]; [|discriminate Hrun].
    destruct (N.leb_spec c last) as [H2|_]; [|discriminate Hrun].
    apply N.eqb_eq in Hrun.
    destruct (N.leb_spec 0x10000 first) as [Hf|_]; [lia|]. cbn [orb] in H.
    apply andb_true_iff in H. destruct H as [Hstep H]. apply N.leb_le in Hstep.
    pose proof (N.div_mod (c - first) step ltac:(lia)) as Hdiv. rewrite Hrun in Hdiv.
    pose proof (N.Div0.div_le_mono (c - first) (last - first) step ltac:(lia)) as Hk.
    pose proof (run_checked_all _ _ _ _ _ H ((c - first) / step) ltac:(lia)) as Hp.
    replace (first + step * ((c - first) / step)) with c in Hp by lia.
    replace (to + step * ((c - first) / step)) with (to + (c - first)) in Hp by lia.
    exact Hp.
  - unfold table_right_at.
    destruct (N.eqb_spec c 0x3A3) as [|H1]; [reflexivity|].
    destruct (N.eqb_spec c 0x130) as [|H2]; [reflexivity|]. cbn [orb].
    destruct (N.ltb_spec c 0x10000) as [_|Hge]; [|lia]. cbn [andb].
    assert (Ht : toLowerCase_cu c = [c]).
    { destruct (list_eq_dec N.eq_dec (toLowerCase_cu c) [c]) as [Ht|Ht]; [exact Ht|].
      destruct (table_domain c Ht) as [E0|E0]; [contradiction|].
      unfold in_some_run in E0. rewrite E in E0. discriminate E0. }
    rewrite Ht, N.eqb_refl. reflexivity.
Qed.

Lemma runs_keep_plane : forallb run_keeps_plane Unicode.lower_runs = true.
Proof. vm_compute. reflexivity. Qed.

Lemma simple_lower_astral (c : N) :
  0x10000 <= c <= 0x10FFFF ->
  0x10000 <= Unicode.simple_lower c <= 0x10FFFF.
Proof.
  intros Hc. unfold Unicode.simple_lower.
  destruct (find (Unicode.in_run c) Unicode.lower_runs) as [[[[first last] step] to]|] eqn:E;
    [|exact Hc].
  apply find_some in E. destruct E as [Hin Hrun].
  pose proof runs_keep_plane as H. rewrite forallb_forall in H.
  specialize (H _ Hin). unfold run_keeps_plane in H. unfold Unicode.in_run in Hrun.
  destruct (N.leb_spec first c) as [H1|_]; [|discriminate Hrun].
  destruct (N.leb_spec c last) as [H2|_]; [|discriminate Hrun].
  apply orb_true_iff in H. destruct H as [H|H].
  - apply andb_true_iff in H. destruct H as [H _]. apply N.ltb_lt in H. lia.
  - apply andb_true_iff in H. destruct H as [H H5].
    apply andb_true_iff in H. destruct H as [H3 H4].
    apply N.leb_le in H3, H4, H5. lia.
Qed.

Lemma surrogate_rejected (u : N) : 0xD800 <= u <= 0xDFFF -> class_member_ci u = false.
Proof. intros Hu. units_to_prop. lia. Qed.

Lemma surrogate_left (u : N) : 0xD800 <= u <= 0xDFFF -> toLowerCase_cu u = [u].
Proof.
  intros Hu. unfold toLowerCase_cu.
  destruct (in_range 65 90 u) eqn:E1;
    [|destruct (in_range 1040 1071 u) eqn:E2;
      [|destruct (in_range 1024 1039 u) eqn:E3;
        [|destruct (u =? 304) eqn:E4; [|destruct (u =? 8490) eqn:E5]]]];
    try reflexivity; exfalso; units_to_prop; lia.
Qed.

Lemma surrogate_inert (u : N) : 0xD800 <= u <= 0xDFFF -> inert u = true.
Proof.
  intros Hu. unfold inert.
  rewrite (surrogate_rejected u Hu), (surrogate_left u Hu), N.eqb_refl. reflexivity.
Qed.

Lemma alike_refl (a : N) : alike a a.
Proof. left. reflexivity. Qed.

Lemma alike_trans (a b c : N) : alike a b -> alike b c -> alike a c.
Proof.
  intros [->|[Ha Hb]] [->|[Hb' Hc]]; unfold alike; auto.
Qed.

Lemma Forall2_alike_refl (s : jsstring) : Forall2 alike s s.
Proof. induction s; constructor; [apply alike_refl | assumption]. Qed.

Lemma Forall2_alike_trans (x y z : jsstring) :
  Forall2 alike x y -> Forall2 alike y z -> Forall2 alike x z.
Proof.
  intros H. revert z. induction H as [|a b x y Hab _ IH]; intros z Hz;
    inversion Hz; subst; constructor; [eapply alike_trans; eassumption | auto].
Qed.

(** One code point of the plane against the table, whichever way the
    sigma goes. *)
Lemma unit_alike (c : N) (final : bool) :
  c < 0x10000 ->
  Forall2 alike
    (flat_map Unicode.CodePointToString
       (if c =? 0x3A3 then (if final then [0x3C2] else [0x3C3])
        else if c =? 0x130 then [0x69; 0x307]
        else [Unicode.simple_lower c]))
    (toLowerCase_cu c).
Proof.
  intros Hc. destruct (N.eqb_spec c 0x3A3) as [->|H1].
  - destruct final; simpl; (constructor; [right; split; reflexivity | constructor]).
  - destruct (N.eqb_spec c 0x130) as [->|H2].
    + simpl. apply Forall2_alike_refl.
    + pose proof (table_right c Hc) as H. unfold table_right_at in H.
      apply N.eqb_neq in H1, H2. rewrite H1, H2 in H. cbn [orb] in H.
      apply andb_true_iff in H. destruct H as [Hu H].
      cbn [flat_map]. rewrite app_nil_r. unfold Unicode.CodePointToString. rewrite Hu.
      destruct (toLowerCase_cu c) as [|t [|t' l]]; try discriminate H.
      apply orb_true_iff in H. destruct H as [H|H].
      * apply N.eqb_eq in H. subst t. apply Forall2_alike_refl.
      * apply andb_true_iff in H. destruct H as [H Hiu].
        apply andb_true_iff in H. destruct H as [Ht Hic].
        apply N.eqb_eq in Ht. subst t. constructor; [right; auto | constructor].
Qed.

Lemma surrogate_pair_alike (c d : N) :
  in_range 0xD800 0xDBFF c && in_range 0xDC00 0xDFFF d = true ->
  Forall2 alike
    (Unicode.CodePointToString
       (Unicode.simple_lower (0x10000 + (c - 0xD800) * 0x400 + (d - 0xDC00))))
    (toLowerCase_cu c ++ toLowerCase_cu d).
Proof.
  intros H. apply andb_true_iff in H. destruct H as [Hc Hd].
  unfold in_range in Hc, Hd.
  apply andb_true_iff in Hc, Hd. destruct Hc as [Hc1 Hc2], Hd as [Hd1 Hd2].
  apply N.leb_le in Hc1, Hc2, Hd1, Hd2.
  pose proof (surrogate_inert c ltac:(lia)) as Ic.
  pose proof (surrogate_inert d ltac:(lia)) as Id.
  assert (Tc : toLowerCase_cu c = [c]).
  { unfold inert in Ic. apply andb_true_iff in Ic. destruct Ic as [_ Ic].
    destruct (toLowerCase_cu c) as [|t [|t' l]]; try discriminate Ic.
    apply N.eqb_eq in Ic. subst t. reflexivity. }
  assert (Td : toLowerCase_cu d = [d]).
  { unfold inert in Id. apply andb_true_iff in Id. destruct Id as [_ Id].
    destruct (toLowerCase_cu d) as [|t [|t' l]]; try discriminate Id.
    apply N.eqb_eq in Id. subst t. reflexivity. }
  rewrite Tc, Td. cbn [app].
  set (cp := 0x10000 + (c - 0xD800) * 0x400 + (d - 0xDC00)).
  assert (Hcp : 0x10000 <= cp <= 0x10FFFF) by (unfold cp; lia).
  pose proof (simple_lower_astral cp Hcp) as Hu.
  set (u := Unicode.simple_lower cp) in *.
  unfold Unicode.CodePointToString.
  destruct (N.ltb_spec u 0x10000) as [Hlt|_]; [lia|].
  assert (Hq : (u - 0x10000) / 0x400 < 0x400).
  { apply N.Div0.div_lt_upper_bound. lia. }
  assert (Hm : (u - 0x10000) mod 0x400 < 0x400) by (apply N.mod_upper_bound; lia).
  set (q := (u - 0x10000) / 0x400) in *. set (m := (u - 0x10000) mod 0x400) in *.
  clearbody q m.
  constructor; [right; split; [apply surrogate_inert; lia | exact Ic]|].
  constructor; [right; split; [apply surrogate_inert; lia | exact Id] | constructor].
Qed.

Lemma code_points_pair (c d : N) (r : jsstring) :
  in_range 0xD800 0xDBFF c && in_range 0xDC00 0xDFFF d = true ->
  Unicode.StringToCodePoints (c :: d :: r) =
  (0x10000 + (c - 0xD800) * 0x400 + (d - 0xDC00)) :: Unicode.StringToCodePoints r.
Proof. intros H. cbn [Unicode.StringToCodePoints]. rewrite H. reflexivity. Qed.

Lemma code_points_single (c : N) (r : jsstring) :
  match r with
  | d :: _ => in_range 0xD800 0xDBFF c && in_range 0xDC00 0xDFFF d = false
  | [] => True
  end ->
  Unicode.StringToCodePoints (c :: r) = c :: Unicode.StringToCodePoints r.
Proof.
  destruct r as [|d r]; intros H; [reflexivity|].
  cbn [Unicode.StringToCodePoints]. rewrite H. reflexivity.
Qed.

Lemma lower_from_alike (n : nat) :
  forall (s : jsstring) (before : list N),
    (List.length s <= n)%nat -> code_units s ->
    Forall2 alike
      (flat_map Unicode.CodePointToString
                (Unicode.lower_from before (Unicode.StringToCodePoints s)))
      (toLowerCase s).
Proof.
  induction n as [|n IH]; intros s before Hlen Hs.
  - destruct s; [constructor | simpl in Hlen; lia].
  - destruct s as [|c r]; [constructor|].
    inversion Hs as [|? ? Hc Hr]; subst.
    assert (Hone : forall r,
               Unicode.StringToCodePoints (c :: r) = c :: Unicode.StringToCodePoints r ->
               (List.length r <= n)%nat -> code_units r ->
               Forall2 alike
                 (flat_map Unicode.CodePointToString
                    (Unicode.lower_from before (Unicode.StringToCodePoints (c :: r))))
                 (toLowerCase (c :: r))).
    { intros r0 Heq Hl Hr0. rewrite Heq. cbn [Unicode.lower_from].
      rewrite flat_map_app. unfold toLowerCase. cbn [flat_map].
      apply Forall2_app; [apply unit_alike, Hc|].
      apply IH; assumption. }
    destruct r as [|d r'].
    + apply Hone; [reflexivity | simpl; lia | constructor].
    + destruct (in_range 0xD800 0xDBFF c && in_range 0xDC00 0xDFFF d) eqn:Epair.
      * rewrite code_points_pair by exact Epair. cbn [Unicode.lower_from].
        set (cp := 0x10000 + (c - 0xD800) * 0x400 + (d - 0xDC00)).
        assert (Hcp : 0x10000 <= cp).
        { unfold cp. lia. }
        destruct (N.eqb_spec cp 0x3A3) as [E|_]; [lia|].
        destruct (N.eqb_spec cp 0x130) as [E|_]; [lia|].
        rewrite flat_map_app. cbn [flat_map]. rewrite app_nil_r.
        unfold toLowerCase. cbn [flat_map]. rewrite app_assoc.
        apply Forall2_app; [apply surrogate_pair_alike, Epair|].
        inversion Hr as [|? ? _ Hr']; subst.
        apply IH; [simpl in Hlen; lia | exact Hr'].
      * apply Hone; [apply code_points_single; exact Epair | simpl in *; lia | exact Hr].
Qed.

(** The lower case by code points and the table differ only in units
    that the tokeniser rejects on either side. *)
Lemma lower_cases_alike (s : jsstring) :
  code_units s -> Forall2 alike (Unicode.toLowerCase s) (toLowerCase s).
Proof. intros Hs. apply (lower_from_alike (List.length s)); [lia | exact Hs]. Qed.

Lemma inert_rejected (c : N) : inert c = true -> class_member_ci c = false.
Proof.
  unfold inert. intros H. apply andb_true_iff in H. destruct H as [H _].
  apply negb_true_iff, H.
Qed.

Lemma inert_left (c : N) : inert c = true -> toLowerCase_cu c = [c].
Proof.
  unfold inert. intros H. apply andb_true_iff in H. destruct H as [_ H].
  destruct (toLowerCase_cu c) as [|t [|t' l]]; try discriminate H.
  apply N.eqb_eq in H. subst t. reflexivity.
Qed.

Lemma replace_non_word_alike (x y : jsstring) :
  Forall2 alike x y -> replace_non_word x = replace_non_word y.
Proof.
  unfold replace_non_word. induction 1 as [|a b x y Hab _ IH]; [reflexivity|].
  cbn [map]. rewrite IH. f_equal.
  destruct Hab as [->|[Ha Hb]]; [reflexivity|].
  rewrite (inert_rejected a Ha), (inert_rejected b Hb). reflexivity.
Qed.

Lemma toLowerCase_alike (x y : jsstring) :
  Forall2 alike x y -> Forall2 alike (toLowerCase x) (toLowerCase y).
Proof.
  unfold toLowerCase. induction 1 as [|a b x y Hab _ IH]; [constructor|].
  cbn [flat_map]. apply Forall2_app; [|exact IH].
  destruct Hab as [->|[Ha Hb]]; [apply Forall2_alike_refl|].
  rewrite (inert_left a Ha), (inert_left b Hb). constructor; [right; auto | constructor].
Qed.

Lemma token_unit_member (c : N) : token_unit c = true -> class_member_ci c = true.
Proof.
  intros H. units_to_prop. clear -H. lia.
Qed.

Lemma startsWith_alike (x y w : jsstring) :
  Forall2 alike x y -> Forall (fun c => token_unit c = true) w ->
  startsWith x w = startsWith y w.
Proof.
  intros Hxy. revert w. induction Hxy as [|a b x y Hab _ IH]; intros w Hw;
    [reflexivity|].
  destruct w as [|u w]; [reflexivity|].
  inversion Hw as [|? ? Hu Hw']; subst. cbn [startsWith].
  rewrite (IH w Hw'). f_equal.
  destruct Hab as [->|[Ha Hb]]; [reflexivity|].
  apply token_unit_member in Hu.
  apply inert_rejected in Ha, Hb.
  destruct (N.eqb_spec a u) as [->|_]; [congruence|].
  destruct (N.eqb_spec b u) as [->|_]; [congruence|]. reflexivity.
Qed.

Lemma includes_alike (x y w : jsstring) :
  Forall2 alike x y -> Forall (fun c => token_unit c = true) w ->
  includes x w = includes y w.
Proof.
  intros Hxy Hw. induction Hxy as [|a b x y Hab Hxy IH]; [reflexivity|].
  cbn [includes]. rewrite IH.
  rewrite (startsWith_alike (a :: x) (b :: y) w); [reflexivity | constructor; assumption | exact Hw].
Qed.

Lemma code_point_units (c : N) :
  c <= 0x10FFFF -> code_units (Unicode.CodePointToString c).
Proof.
  intros Hc. unfold Unicode.CodePointToString, code_units.
  destruct (N.ltb_spec c 0x10000) as [Hlt|Hge]; [repeat constructor; exact Hlt|].
  assert (Hq : (c - 0x10000) / 0x400 < 0x400).
  { apply N.Div0.div_lt_upper_bound. lia. }
  assert (Hm : (c - 0x10000) mod 0x400 < 0x400) by (apply N.mod_upper_bound; lia).
  set (q := (c - 0x10000) / 0x400) in *. set (m := (c - 0x10000) mod 0x400) in *.
  clearbody q m. repeat constructor; lia.
Qed.

Lemma code_points_bounded (n : nat) :
  forall s, (List.length s <= n)%nat -> code_units s ->
            Forall (fun c => c <= 0x10FFFF) (Unicode.StringToCodePoints s).
Proof.
  induction n as [|n IH]; intros s Hlen Hs.
  - destruct s; [constructor | simpl in Hlen; lia].
  - destruct s as [|c r]; [constructor|].
    inversion Hs as [|? ? Hc Hr]; subst.
    destruct r as [|d r'].
    + repeat constructor. lia.
    + destruct (in_range 0xD800 0xDBFF c && in_range 0xDC00 0xDFFF d) eqn:Epair.
      * rewrite code_points_pair by exact Epair.
        apply andb_true_iff in Epair. destruct Epair as [E1 E2].
        unfold in_range in E1, E2. apply andb_true_iff in E1, E2.
        destruct E1 as [E1 E1'], E2 as [E2 E2']. apply N.leb_le in E1, E1', E2, E2'.
        inversion Hr as [|? ? _ Hr']; subst.
        constructor; [lia | apply IH; [simpl in Hlen; lia | exact Hr']].
      * rewrite code_points_single by exact Epair.
        constructor; [lia | apply IH; [simpl in *; lia | exact Hr]].
Qed.

Lemma simple_lower_bounded (c : N) : c <= 0x10FFFF -> Unicode.simple_lower c <= 0x10FFFF.
Proof.
  intros Hc. destruct (N.ltb_spec c 0x10000) as [Hlt|Hge].
  - destruct (N.eqb_spec c 0x3A3) as [->|H1]; [vm_compute; discriminate|].
    destruct (N.eqb_spec c 0x130) as [->|H2]; [vm_compute; discriminate|].
    pose proof (table_right c Hlt) as H. unfold table_right_at in H.
    apply N.eqb_neq in H1, H2. rewrite H1, H2 in H. cbn [orb] in H.
    apply andb_true_iff in H. destruct H as [H _]. apply N.ltb_lt in H. lia.
  - apply simple_lower_astral. lia.
Qed.

Lemma lower_from_bounded (cps before : list N) :
  Forall (fun c => c <= 0x10FFFF) cps ->
  Forall (fun c => c <= 0x10FFFF) (Unicode.lower_from before cps).
Proof.
  intros H. revert before. induction H as [|c cps Hc _ IH]; intros before; [constructor|].
  cbn [Unicode.lower_from]. apply Forall_app. split; [|apply IH].
  destruct (c =? 0x3A3); [destruct (Unicode.Final_Sigma before cps); repeat constructor; lia|].
  destruct (c =? 0x130); [repeat constructor; lia|].
  repeat constructor. apply simple_lower_bounded, Hc.
Qed.

Lemma lower_case_code_units (s : jsstring) :
  code_units s -> code_units (Unicode.toLowerCase s).
Proof.
  intros Hs. unfold Unicode.toLowerCase, code_units.
  pose proof (lower_from_bounded _ [] (code_points_bounded _ s (le_n _) Hs)) as H.
  induction H as [|c l Hc _ IH]; [constructor|].
  cbn [flat_map]. apply Forall_app. split; [apply code_point_units, Hc | exact IH].
Qed.

(** The tokens do not depend on which lower case is taken: the table
    inside [extractWords] gives the tokens that the lower case by code
    points gives, also for a text that has been lower-cased before (as
    [indexArticle] and [indexUser] do). *)
Lemma extractWords_lower_case (text : jsstring) :
  code_units text ->
  extractWords_by_code_points text = extractWords text /\
  extractWords_by_code_points (Unicode.toLowerCase text) = extractWords (toLowerCase text).
Proof.
  intros Ht. unfold extractWords_by_code_points, extractWords. split.
  - rewrite (replace_non_word_alike _ _ (lower_cases_alike text Ht)). reflexivity.
  - rewrite (replace_non_word_alike (Unicode.toLowerCase (Unicode.toLowerCase text))
               (toLowerCase (toLowerCase text))); [reflexivity|].
    eapply Forall2_alike_trans.
    + apply lower_cases_alike, lower_case_code_units, Ht.
    + apply toLowerCase_alike, lower_cases_alike, Ht.
Qed.

(** Nor do the weight tests: a token is found in the one lower case of a
    text exactly when it is found in the other. *)
Lemma weight_tests_lower_case (text word : jsstring) :
  code_units text -> Forall (fun c => token_unit c = true) word ->
  includes (Unicode.toLowerCase text) word = includes (toLowerCase text) word.
Proof. intros Ht Hw. apply includes_alike; [apply lower_cases_alike, Ht | exact Hw]. Qed.
